(** * Floristik/faunistik quiz: a shallow embedding of the question generator

    The repository holds three generations of one browser quiz:
    - [src/app.js]: observations are fetched from the iNaturalist API,
      filtered, enriched with family and broad group, and turned into
      questions by [buildQuizQuestions];
    - the hybrid variant (second program of [src/unnamed/part_000]): the same
      pipeline, with a stricter [buildQuizQuestions];
    - the vocabulary variant (first program of [src/unnamed/part_000]):
      questions are sampled from pre-baked vocabulary lists.

    JavaScript values are modelled as the code uses them: a string that may
    be [null] or [undefined] is an [option string], truthiness is written
    out, arrays are lists, a [Map] used for grouping is an insertion-ordered
    list, [Math.random] is an explicit source of draws, and the arrays that
    [shuffleArray] copies and permutes in place live in a store. *)

From Stdlib Require Import Ascii.
From stdpp Require Import base list strings gmap numbers pretty.

Set Warnings "-clear-no-such-hyp".

Local Open Scope string_scope.
Local Open Scope list_scope.
Local Open Scope nat_scope.
Local Open Scope stdpp_scope.

(** ** CONFIG *)

Module CONFIG.
Definition QUESTIONS_COUNT : nat := 10.
Definition OPTIONS_PER_QUESTION : nat := 4.
Definition REQUIRE_RESEARCH_GRADE : bool := true.
Definition ALLOWED_LICENSES : list string := ["cc0"; "cc-by"; "cc-by-nc"].
Definition GROUP_RANK_PRIORITY : list string := ["class"; "phylum"; "division"].
End CONFIG.

(** ** JavaScript truthiness of nullable strings *)

Module Js.
(** [!!s] for a value that is a string, [null] or [undefined]. *)
Definition truthy (s : option string) : bool :=
  match s with
  | Some s => negb (String.eqb s "")
  | None => false
  end.

(** [a || b] on such values. *)
Definition or (a b : option string) : option string :=
  if truthy a then a else b.

(** [a || "literal"], whose result is always a string. *)
Definition orStr (a : option string) (b : string) : string :=
  match a with
  | Some s => if String.eqb s "" then b else s
  | None => b
  end.

(** An id as a JavaScript value: a number, [null], or [undefined] (the
    property is missing).  The keys of a [Map] are compared with
    SameValueZero, which tells the three apart. *)
Inductive Id :=
| Undefined
| Null
| Num (z : Z).

Global Instance Id_eq_dec : EqDecision Id.
Proof. solve_decision. Defined.

Global Instance Id_countable : Countable Id.
Proof.
  refine (inj_countable'
            (λ i, match i with
                  | Undefined => inl true
                  | Null => inl false
                  | Num z => inr z
                  end)
            (λ x, match x with
                  | inl true => Undefined
                  | inl false => Null
                  | inr z => Num z
                  end) _).
  by intros [].
Defined.

(** [id !== null && id !== undefined]: the number that passes the test. *)
Definition num (i : Id) : option Z :=
  match i with
  | Num z => Some z
  | Undefined | Null => None
  end.
End Js.

(** ** The source of randomness

  [Math.floor(Math.random() * k)] is an integer of [0, k) for [k > 0] and
  [0] for [k = 0].  The draws of one run are an explicit list; a draw [d]
  stands for the outcome [d mod k], so that every outcome is reachable and
  nothing else is.  An exhausted list keeps answering [0]. *)

Module Rng.
Definition t := list nat.

Definition randomInt (k : nat) (r : t) : nat * t :=
  (match k with 0 => 0 | S _ => hd 0 r `mod` k end, tl r).
End Rng.

(** ** Arrays: [shuffleArray] and [pickRandomSubset] *)

Module Arr.
(** References to arrays, and the store that maps them to contents. *)
Abbreviation ref := positive (only parsing).
Abbreviation store A := (gmap positive (list A)) (only parsing).

Section Arr.
Context {A : Type}.

(** [[arr[i], arr[j]] = [arr[j], arr[i]]].  Both indices are in range at
    every call of the shuffle; out of range JavaScript would write
    [undefined] and possibly extend the array, which the model does not
    follow: it leaves the array alone there. *)
Definition swap (i j : nat) (arr : list A) : list A :=
  match arr !! i, arr !! j with
  | Some x, Some y => <[j:=x]> (<[i:=y]> arr)
  | _, _ => arr
  end.

(** The index map of one swap: position [n] of the swapped array holds what
    position [transpose i j n] held. *)
Definition transpose (i j n : nat) : nat :=
  if decide (n = i) then j else if decide (n = j) then i else n.

(** The body of the [for (let i = arr.length - 1; i > 0; i--)] loop, from
    the current value of [i] down to [1]. *)
Fixpoint shuffleLoop (i : nat) (arr : list A) (r : Rng.t) : list A * Rng.t :=
  match i with
  | 0 => (arr, r)
  | S i' =>
      let '(j, r') := Rng.randomInt (i + 1) r in
      shuffleLoop i' (swap i j arr) r'
  end.

(** [shuffleArray] on array contents. *)
Definition shuffleArray (array : list A) (r : Rng.t) : list A * Rng.t :=
  shuffleLoop (length array - 1) array r.

(** [pickRandomSubset] on array contents. *)
Definition pickRandomSubset (array : list A) (n : nat) (r : Rng.t)
  : list A * Rng.t :=
  if decide (length array ≤ n) then (array, r)
  else let '(shuffled, r') := shuffleArray array r in (take n shuffled, r').

(** *** The same two functions over a store of arrays

    An array value is a reference; [array.slice()] allocates.  The store
    maps references to contents. *)
Definition alloc (v : list A) (h : store A) : ref * store A :=
  let l := fresh (dom h) in (l, <[l:=v]> h).

(** [array.slice(0, n)]; [array.slice()] is [slice] with the length. *)
Definition slice (a : ref) (n : nat) (h : store A) : ref * store A :=
  alloc (take n (default [] (h !! a))) h.

Definition sliceAll (a : ref) (h : store A) : ref * store A :=
  alloc (default [] (h !! a)) h.

Definition lengthOf (a : ref) (h : store A) : nat :=
  length (default [] (h !! a)).

(** One in-place swap on the array behind [a]. *)
Definition swapAt (a : ref) (i j : nat) (h : store A) : store A :=
  match h !! a with
  | Some v => <[a:=swap i j v]> h
  | None => h
  end.

Fixpoint shuffleLoopAt (i : nat) (a : ref) (h : store A) (r : Rng.t)
  : store A * Rng.t :=
  match i with
  | 0 => (h, r)
  | S i' =>
      let '(j, r') := Rng.randomInt (i + 1) r in
      shuffleLoopAt i' a (swapAt a i j h) r'
  end.

Definition shuffleArrayAt (array : ref) (h : store A) (r : Rng.t)
  : ref * store A * Rng.t :=
  let '(arr, h1) := sliceAll array h in
  let '(h2, r') := shuffleLoopAt (lengthOf arr h1 - 1) arr h1 r in
  (arr, h2, r').

Definition pickRandomSubsetAt (array : ref) (n : nat) (h : store A) (r : Rng.t)
  : ref * store A * Rng.t :=
  if decide (lengthOf array h ≤ n) then
    let '(res, h1) := sliceAll array h in (res, h1, r)
  else
    let '(shuffled, h1, r') := shuffleArrayAt array h r in
    let '(res, h2) := slice shuffled n h1 in (res, h2, r').
End Arr.
End Arr.

(** ** Strings as the code uses them *)

Module Str.
(** [toLowerCase], on the letters [A]-[Z].  The license codes that
    [licenseIsAllowed] accepts are ASCII, and no character outside ASCII
    lowers to one of their letters, so the restriction does not change which
    codes are accepted. *)
Definition lowerChar (c : Ascii.ascii) : Ascii.ascii :=
  let n := Ascii.nat_of_ascii c in
  if (65 <=? n) && (n <=? 90) then Ascii.ascii_of_nat (n + 32) else c.

Fixpoint toLowerCase (s : string) : string :=
  match s with
  | String.EmptyString => String.EmptyString
  | String.String c s' => String.String (lowerChar c) (toLowerCase s')
  end.

(** [s.replace(pat, rep)] with a string pattern: the first occurrence only. *)
Fixpoint replace (pat rep s : string) : string :=
  if String.prefix pat s then
    rep +:+ String.substring (String.length pat) (String.length s) s
  else
    match s with
    | String.EmptyString => String.EmptyString
    | String.String c s' => String.String c (replace pat rep s')
    end.

(** [s.split(sep)] for a separator of one character: [cur] is the token
    being read, in reverse. *)
Fixpoint splitGo (sep : Ascii.ascii) (cur : string) (s : string) : list string :=
  match s with
  | String.EmptyString => [String.rev cur]
  | String.String c s' =>
      if Ascii.eqb c sep then String.rev cur :: splitGo sep String.EmptyString s'
      else splitGo sep (String.String c cur) s'
  end.

Definition split (sep : Ascii.ascii) (s : string) : list string :=
  splitGo sep String.EmptyString s.
End Str.

(** ** [src/app.js] *)

Module App.

(** *** Records of the iNaturalist API, as far as the code reads them *)

Module RawPhoto.
Record t := { url : option string; license_code : option string }.
End RawPhoto.

Module RawTaxon.
Record t := {
  id : Js.Id;
  name : option string;
  preferred_common_name : option string;
}.
End RawTaxon.

Module RawUser.
Record t := { login : option string }.
End RawUser.

Module RawObs.
Record t := {
  id : Z;
  taxon : option RawTaxon.t;
  photos : option (list RawPhoto.t);
  quality_grade : option string;
  license_code : option string;
  user : option RawUser.t;
}.
End RawObs.

(** A taxon of [/v1/taxa] and its ancestors. *)
Module Ancestor.
Record t := { rank : option string; name : option string }.
End Ancestor.

Module Taxon.
Record t := {
  id : Js.Id;
  rank : option string;
  name : option string;
  ancestors : option (list Ancestor.t);   (* [None]: not an array *)
}.
End Taxon.

(** *** The observation record built by [filterAndTransform] *)

Record Observation := {
  obsId : Z;
  taxonId : Js.Id;
  photoUrl : string;
  scientificName : string;
  swedishName : option string;
  genusName : string;
  familyName : option string;
  broadGroup : option string;
  observer : string;
  licenseCode : option string;
  obsUrl : string;
}.

Global Instance Observation_eq_dec : EqDecision Observation.
Proof. solve_decision. Defined.

Record Group := {
  label : string;
  obs : Observation;
  grpBroadGroup : option string;    (* the field [broadGroup] of a group *)
}.

Global Instance Group_eq_dec : EqDecision Group.
Proof. solve_decision. Defined.

Record Question := {
  correct : Observation;
  options : list Observation;
}.

(** *** HELPERS *)

Definition licenseIsAllowed (code : option string) : bool :=
  match code with
  | Some c =>
      if String.eqb c "" then false
      else bool_decide (Str.toLowerCase c ∈ CONFIG.ALLOWED_LICENSES)
  | None => false
  end.

Definition buildPhotoUrl (photo : option RawPhoto.t) : option string :=
  match photo with
  | None => None
  | Some p =>
      match RawPhoto.url p with
      | Some u => if String.eqb u "" then None
                  else Some (Str.replace "square." "large." u)
      | None => None
      end
  end.

(** [currentLevel] is a global string; the [switch] sends everything that is
    neither ["genus"] nor ["family"] to the species case. *)
Definition getGroupLabelForObs (currentLevel : string) (obs : Observation)
  : option string :=
  if decide (currentLevel = "genus") then
    Js.or (Some (genusName obs)) (Some (scientificName obs))
  else if decide (currentLevel = "family") then
    Js.or (familyName obs) None
  else Some (scientificName obs).

(** *** FETCH & PREP DATA *)

(** One turn of the loop of [filterAndTransform]: [None] is a [continue]. *)
Definition transform (o : RawObs.t) : option Observation :=
  match RawObs.taxon o with
  | None => None
  | Some taxon =>
      let photos := default [] (RawObs.photos o) in
      if decide (length photos = 0) then None
      else if CONFIG.REQUIRE_RESEARCH_GRADE
              && negb (bool_decide (RawObs.quality_grade o = Some "research"))
      then None
      else if Js.truthy (RawObs.license_code o)
              && negb (licenseIsAllowed (RawObs.license_code o))
      then None
      else
        match List.find (λ p, licenseIsAllowed (RawPhoto.license_code p)) photos with
        | None => None
        | Some photo =>
            match buildPhotoUrl (Some photo) with
            | None => None
            | Some photoUrl =>
                if String.eqb photoUrl "" then None
                else
                  let scientificName := Js.orStr (RawTaxon.name taxon) "" in
                  if String.eqb scientificName "" then None
                  else
                    let genusName :=
                      Js.orStr (head (Str.split " "%char scientificName))
                               scientificName in
                    Some {|
                      obsId := RawObs.id o;
                      taxonId := RawTaxon.id taxon;
                      photoUrl := photoUrl;
                      scientificName := scientificName;
                      swedishName :=
                        Js.or (RawTaxon.preferred_common_name taxon) None;
                      genusName := genusName;
                      familyName := None;
                      broadGroup := None;
                      observer :=
                        Js.orStr (RawObs.user o ≫= RawUser.login) "unknown";
                      licenseCode :=
                        Js.or (Js.or (RawPhoto.license_code photo)
                                     (RawObs.license_code o)) None;
                      obsUrl :=
                        "https://www.inaturalist.org/observations/"
                        +:+ pretty (RawObs.id o);
                    |}
            end
        end
  end.

Definition filterAndTransform (rawObs : list RawObs.t) : list Observation :=
  foldl (λ result o,
           match transform o with
           | Some x => result ++ [x]
           | None => result
           end) [] rawObs.

(** *** [enrichWithTaxaData]

    What one request of a chunk of ids comes back with.  [fetch] may reject,
    the response may be not OK, [res.json()] may reject (or give a value
    without properties), or the body arrives: [data.results], missing or an
    array.  An entry [None] of the array is a [null]: reading its [rank]
    throws inside the [try]. *)
Inductive Response :=
| FetchRejects
| NotOk
| JsonRejects
| Ok (results : option (list (option Taxon.t))).

(** [familyMap] and [broadGroupMap], keyed by taxon id.  [undefined] and
    [null] are keys like any other, and different ones. *)
Record Maps := {
  familyMap : gmap Js.Id string;
  broadGroupMap : gmap Js.Id string;
}.

Definition emptyMaps : Maps := {| familyMap := ∅; broadGroupMap := ∅ |}.

Definition hasRank (rank : string) (a : Ancestor.t) : bool :=
  bool_decide (Ancestor.rank a = Some rank).

(** The family name of one taxon, [null] when there is none. *)
Definition famNameOf (t : Taxon.t) : option string :=
  if bool_decide (Taxon.rank t = Some "family") then Taxon.name t
  else
    match Taxon.ancestors t with
    | Some ancestors =>
        match List.find (hasRank "family") ancestors with
        | Some fam => Ancestor.name fam
        | None => None
        end
    | None => None
    end.

(** The loop over [CONFIG.GROUP_RANK_PRIORITY]: the first rank that has an
    ancestor decides, also when that ancestor has no name. *)
Fixpoint firstOfRanks (ranks : list string) (ancestors : list Ancestor.t)
  : option string :=
  match ranks with
  | [] => None
  | rank :: ranks' =>
      match List.find (hasRank rank) ancestors with
      | Some anc => Ancestor.name anc
      | None => firstOfRanks ranks' ancestors
      end
  end.

Definition broadGroupOf (t : Taxon.t) : option string :=
  match Taxon.ancestors t with
  | Some ancestors => firstOfRanks CONFIG.GROUP_RANK_PRIORITY ancestors
  | None => None
  end.

(** The body of [for (const t of taxa)]. *)
Definition recordTaxon (t : Taxon.t) (m : Maps) : Maps :=
  let famName := famNameOf t in
  let broadGroup := broadGroupOf t in
  {| familyMap :=
       match famName with
       | Some f => if String.eqb f "" then familyMap m
                   else <[Taxon.id t := f]> (familyMap m)
       | None => familyMap m
       end;
     broadGroupMap :=
       match broadGroup with
       | Some b => if String.eqb b "" then broadGroupMap m
                   else <[Taxon.id t := b]> (broadGroupMap m)
       | None => broadGroupMap m
       end |}.

(** [for (const t of taxa)] inside the [try]: a [null] entry throws, the
    [catch] ends the chunk, and what was recorded before stays. *)
Fixpoint recordTaxa (taxa : list (option Taxon.t)) (m : Maps) : Maps :=
  match taxa with
  | [] => m
  | None :: _ => m
  | Some t :: taxa' => recordTaxa taxa' (recordTaxon t m)
  end.

(** The [try] block of one chunk. *)
Definition processChunk (resp : Response) (m : Maps) : Maps :=
  match resp with
  | FetchRejects => m          (* caught *)
  | NotOk => m                 (* [continue] *)
  | JsonRejects => m           (* caught *)
  | Ok results => recordTaxa (default [] results) m
  end.

(** [o.taxonId] when it passes [id !== null && id !== undefined]. *)
Definition taxonNum (o : Observation) : option Z := Js.num (taxonId o).

(** [[...new Set(xs)]]: first occurrences, in order. *)
Definition uniq (xs : list Z) : list Z :=
  foldl (λ acc x, if decide (x ∈ acc) then acc else acc ++ [x]) [] xs.

Definition chunkSize : nat := 30.

(** [for (let i = 0; i < ids.length; i += chunkSize)], from the current [i].
    [fuel] bounds the number of turns; [length ids] turns are enough, see
    [enrichLoop_chunks]. *)
Fixpoint enrichLoop (fuel : nat) (i : nat) (ids : list Z)
    (fetch : list Z → Response) (m : Maps) : Maps :=
  match fuel with
  | 0 => m
  | S fuel' =>
      if decide (i < length ids) then
        let chunk := take chunkSize (drop i ids) in
        enrichLoop fuel' (i + chunkSize) ids fetch (processChunk (fetch chunk) m)
      else m
  end.

(** The final [obsList.forEach]. *)
Definition applyMaps (m : Maps) (o : Observation) : Observation :=
  {| obsId := obsId o;
     taxonId := taxonId o;
     photoUrl := photoUrl o;
     scientificName := scientificName o;
     swedishName := swedishName o;
     genusName := genusName o;
     familyName := Js.or (familyMap m !! taxonId o) None;
     broadGroup := Js.or (broadGroupMap m !! taxonId o) None;
     observer := observer o;
     licenseCode := licenseCode o;
     obsUrl := obsUrl o |}.

(** [enrichWithTaxaData] mutates the observations of [obsList] in place; the
    model returns the list as it is after the call.  [fetch] answers the
    request of a chunk; chunks are disjoint, so requests never repeat. *)
Definition enrichWithTaxaData (fetch : list Z → Response)
    (obsList : list Observation) : list Observation :=
  let ids := uniq (omap taxonNum obsList) in
  if decide (length ids = 0) then obsList
  else
    let m := enrichLoop (length ids) 0 ids fetch emptyMaps in
    applyMaps m <$> obsList.

(** *** [buildQuizQuestions] *)

(** One turn of the grouping loop: [groupsMap] in insertion order. *)
Definition addGroup (currentLevel : string) (groups : list Group)
    (o : Observation) : list Group :=
  match getGroupLabelForObs currentLevel o with
  | None => groups
  | Some l =>
      if String.eqb l "" then groups
      else if decide (l ∈ label <$> groups) then groups
      else groups ++ [ {| label := l; obs := o;
                          grpBroadGroup := Js.or (broadGroup o) None |} ]
  end.

Definition buildGroups (currentLevel : string) (obsList : list Observation)
  : list Group :=
  foldl (addGroup currentLevel) [] obsList.

(** The two filters over [groups]. *)
Definition sameBroadAs (g x : Group) : Prop :=
  label x ≠ label g ∧ Js.truthy (grpBroadGroup g)
  ∧ grpBroadGroup x = grpBroadGroup g.

Definition otherThan (g x : Group) : Prop := label x ≠ label g.

Global Instance sameBroadAs_dec g x : Decision (sameBroadAs g x).
Proof. unfold sameBroadAs. apply _. Defined.

Global Instance otherThan_dec g x : Decision (otherThan g x).
Proof. unfold otherThan. apply _. Defined.

Definition candidateGroups (groups : list Group) (g : Group) : list Group :=
  let candidates := filter (sameBroadAs g) groups in
  if decide (length candidates < CONFIG.OPTIONS_PER_QUESTION - 1)
  then filter (otherThan g) groups
  else candidates.

(** The body of [for (const g of chosenGroups)]. *)
Definition buildQuestion (groups : list Group) (g : Group) (r : Rng.t)
  : Question * Rng.t :=
  let '(distractorGroups, r1) :=
    Arr.pickRandomSubset (candidateGroups groups g)
                         (CONFIG.OPTIONS_PER_QUESTION - 1) r in
  let '(shuffled, r2) := Arr.shuffleArray (g :: distractorGroups) r1 in
  ({| correct := obs g; options := obs <$> shuffled |}, r2).

Definition buildQuizQuestions (currentLevel : string)
    (obsList : list Observation) (r : Rng.t) : list Question * Rng.t :=
  let groups := buildGroups currentLevel obsList in
  if decide (length groups = 0) then ([], r)
  else
    let nQuestions := CONFIG.QUESTIONS_COUNT `min` length groups in
    let '(chosenGroups, r1) := Arr.pickRandomSubset groups nQuestions r in
    foldl (λ '(questions, r') g,
             let '(q, r'') := buildQuestion groups g r' in
             (questions ++ [q], r''))
          ([], r1) chosenGroups.

(** *** RENDERING: the text and the label of an answer button *)

(** [getGroupLabelForObs(opt) || opt.scientificName], the label that
    [renderQuestion] stores on a button and [handleAnswerClick] compares. *)
Definition buttonLabel (currentLevel : string) (o : Observation) : string :=
  Js.orStr (getGroupLabelForObs currentLevel o) (scientificName o).

Definition formatAnswerText (currentLevel : string) (o : Observation)
  : string :=
  let groupLabel := buttonLabel currentLevel o in
  match swedishName o with
  | Some swe =>
      if String.eqb swe "" then groupLabel
      else groupLabel +:+ " (" +:+ swe +:+ ")"
  | None => groupLabel
  end.

(** *** STATE and INIT

    The state variables of the page and the text of the status element.
    What else [renderQuestion] writes to the page (photo, attribution,
    buttons, classes) is not part of this record. *)
Record Quiz := {
  observations : list Observation;
  quizQuestions : list Question;
  currentIndex : nat;
  score : nat;
  status : string;
}.

(** What the request of [fetchObservations] comes back with: [fetch] or
    [res.json()] rejects, the response is not OK, or the body arrives, with
    [data.results] missing ([None]) or an array. *)
Inductive ObsResponse :=
| ObsRejects
| ObsNotOk
| ObsBody (results : option (list RawObs.t)).

(** [fetchObservations]; [None] is a throw. *)
Definition fetchObservations (resp : ObsResponse) : option (list RawObs.t) :=
  match resp with
  | ObsBody results => Some (default [] results)
  | ObsRejects | ObsNotOk => None
  end.

Definition msgNoSuitable : string :=
  "No suitable observations found (with photos and allowed licenses).".
Definition msgNotEnoughTaxa : string :=
  "Not enough distinct taxa to create a quiz. Add more observations!".
Definition msgNotEnoughGroups : string :=
  "Not enough distinct groups to create a quiz at this level. Try another level.".
Definition msgError : string :=
  "Error loading data from iNaturalist. See console for details.".

(** [initQuiz], from the state [s] it finds.  [currentLevel] is the level
    at the time the questions are built.  The call of [renderQuestion] at
    its end finds [currentIndex = 0] below the number of questions, and
    clears the status. *)
Definition initQuiz (currentLevel : string) (s : Quiz) (resp : ObsResponse)
    (fetch : list Z → Response) (r : Rng.t) : Quiz * Rng.t :=
  match fetchObservations resp with
  | None =>
      ({| observations := observations s; quizQuestions := quizQuestions s;
          currentIndex := currentIndex s; score := score s;
          status := msgError |}, r)
  | Some raw =>
      let filtered := filterAndTransform raw in
      if decide (length filtered = 0) then
        ({| observations := observations s; quizQuestions := quizQuestions s;
            currentIndex := currentIndex s; score := score s;
            status := msgNoSuitable |}, r)
      else
        let filtered := enrichWithTaxaData fetch filtered in
        let '(questions, r') := buildQuizQuestions currentLevel filtered r in
        ({| observations := filtered; quizQuestions := questions;
            currentIndex := 0; score := 0;
            status := if decide (length questions = 0) then msgNotEnoughTaxa
                      else "" |}, r')
  end.

(** The handler of the level selector: [currentLevel] is the new value,
    then [rebuildQuizForCurrentLevel]. *)
Definition rebuildQuizForCurrentLevel (currentLevel : string) (s : Quiz)
    (r : Rng.t) : Quiz * Rng.t :=
  if decide (length (observations s) = 0) then (s, r)
  else
    let '(questions, r') := buildQuizQuestions currentLevel (observations s) r in
    ({| observations := observations s; quizQuestions := questions;
        currentIndex := 0; score := 0;
        status := if decide (length questions = 0) then msgNotEnoughGroups
                  else "" |}, r').
End App.

(** ** The hybrid variant: [buildQuizQuestions] of the second program of
    [src/unnamed/part_000]

    Observations carry a [didacticGroup]; the options of a genus question
    are made up from an external vocabulary and have no photo, id or URL. *)

Module Hybrid.

Record Observation := {
  obsId : option Z;
  taxonId : option Z;
  photoUrl : option string;
  scientificName : string;
  swedishName : option string;
  genusName : string;
  familyName : option string;
  broadGroup : option string;
  didacticGroup : option string;
  observer : string;
  licenseCode : option string;
  obsUrl : option string;
}.

Global Instance Observation_eq_dec : EqDecision Observation.
Proof. solve_decision. Defined.

Record Group := {
  label : string;
  obs : Observation;
  grpBroadGroup : option string;
  grpDidacticGroup : option string;
}.

Global Instance Group_eq_dec : EqDecision Group.
Proof. solve_decision. Defined.

Record Question := {
  correct : Observation;
  options : list Observation;
}.

(** An entry of [externalDistractors]. *)
Record VocabEntry := {
  vocScientificName : string;
  vocSwedishName : option string;
}.

Definition getGroupLabelForObs (currentLevel : string) (o : Observation)
  : option string :=
  if decide (currentLevel = "genus") then
    Js.or (Some (genusName o)) (Some (scientificName o))
  else if decide (currentLevel = "family") then
    Js.or (familyName o) None
  else Some (scientificName o).

Definition addGroup (currentLevel : string) (groups : list Group)
    (o : Observation) : list Group :=
  match getGroupLabelForObs currentLevel o with
  | None => groups
  | Some l =>
      if String.eqb l "" then groups
      else if decide (l ∈ label <$> groups) then groups
      else groups ++ [ {| label := l; obs := o;
                          grpBroadGroup := Js.or (broadGroup o) None;
                          grpDidacticGroup := Js.or (didacticGroup o) None |} ]
  end.

Definition buildGroups (currentLevel : string) (obsList : list Observation)
  : list Group :=
  foldl (addGroup currentLevel) [] obsList.

Definition neededDistractors : nat := CONFIG.OPTIONS_PER_QUESTION - 1.

(** The observation made up for a vocabulary distractor. *)
Definition distractorOf (correctBroad : option string)
    (didactic : option string) (v : VocabEntry) : Observation :=
  {| obsId := None; taxonId := None; photoUrl := None;
     scientificName := vocScientificName v;
     swedishName := Js.or (vocSwedishName v) None;
     genusName := vocScientificName v;
     familyName := None;
     broadGroup := correctBroad;
     didacticGroup := didactic;
     observer := "external";
     licenseCode := None;
     obsUrl := None |}.

(** GENUS MODE for one group: [None] is a [continue]. *)
Definition genusQuestion (currentLevel : string)
    (externalDistractors : gmap string (list VocabEntry))
    (g : Group) (r : Rng.t) : option Question * Rng.t :=
  match grpDidacticGroup g with
  | None => (None, r)
  | Some d =>
      if String.eqb d "" then (None, r)
      else
        match externalDistractors !! d with
        | None => (None, r)
        | Some vocabList =>
            if decide (length vocabList = 0) then (None, r)
            else
              match getGroupLabelForObs currentLevel (obs g) with
              | None => (None, r)
              | Some correctGenusLabel =>
                  if String.eqb correctGenusLabel "" then (None, r)
                  else
                    let vocabClean :=
                      filter (λ v, vocScientificName v ≠ correctGenusLabel)
                             vocabList in
                    if decide (length vocabClean < neededDistractors)
                    then (None, r)
                    else
                      let '(chosenVocab, r1) :=
                        Arr.pickRandomSubset vocabClean neededDistractors r in
                      let distractorObs :=
                        distractorOf (grpBroadGroup g) (Some d) <$> chosenVocab in
                      let '(opts, r2) :=
                        Arr.shuffleArray (obs g :: distractorObs) r1 in
                      (Some {| correct := obs g; options := opts |}, r2)
              end
        end
  end.

(** SPECIES / FAMILY MODE for one group: [None] is a [continue]. *)
Definition projectQuestion (groups : list Group) (g : Group) (r : Rng.t)
  : option Question * Rng.t :=
  let projectCandidates :=
    filter (λ x, label x ≠ label g ∧ grpBroadGroup x = grpBroadGroup g)
           groups in
  if decide (length projectCandidates < neededDistractors) then (None, r)
  else
    let '(distractors, r1) :=
      Arr.pickRandomSubset (obs <$> projectCandidates) neededDistractors r in
    let '(opts, r2) := Arr.shuffleArray (obs g :: distractors) r1 in
    (Some {| correct := obs g; options := opts |}, r2).

(** The body of [for (const g of shuffleArray(groups))].  After the [break]
    nothing more happens, so a turn that finds [QUESTIONS_COUNT] questions
    leaves the state alone. *)
Definition step (currentLevel : string)
    (externalDistractors : gmap string (list VocabEntry))
    (groups : list Group) (st : list Question * Rng.t) (g : Group)
  : list Question * Rng.t :=
  let '(questions, r) := st in
  if decide (CONFIG.QUESTIONS_COUNT ≤ length questions) then st
  else if negb (Js.truthy (grpBroadGroup g)) then st
  else
    let '(q, r') :=
      if decide (currentLevel = "genus")
      then genusQuestion currentLevel externalDistractors g r
      else projectQuestion groups g r in
    match q with
    | Some q => (questions ++ [q], r')
    | None => (questions, r')
    end.

Definition buildQuizQuestions (currentLevel : string)
    (externalDistractors : gmap string (list VocabEntry))
    (obsList : list Observation) (r : Rng.t) : list Question * Rng.t :=
  let groups := buildGroups currentLevel obsList in
  if decide (length groups = 0) then ([], r)
  else
    let '(shuffled, r1) := Arr.shuffleArray groups r in
    foldl (step currentLevel externalDistractors groups) ([], r1) shuffled.

(** [getGroupLabelForObs(opt) || opt.scientificName], the label of an answer
    button in [renderQuestion]. *)
Definition buttonLabel (currentLevel : string) (o : Observation) : string :=
  Js.orStr (getGroupLabelForObs currentLevel o) (scientificName o).

(** [mapBroadGroupToDidacticGroup] *)
Definition mapBroadGroupToDidacticGroup (broadGroupName : option string)
  : option string :=
  match broadGroupName with
  | None => None
  | Some b =>
      if String.eqb b "" then None
      else if String.eqb b "Insecta" then Some "insects"
      else if String.eqb b "Aves" then Some "birds"
      else if String.eqb b "Mammalia" then Some "mammals"
      else if String.eqb b "Araneae" then Some "spiders"
      else if String.eqb b "Plantae" || String.eqb b "Tracheophyta"
      then Some "plants"
      else if String.eqb b "Bryophyta" || String.eqb b "Marchantiophyta"
              || String.eqb b "Anthocerotophyta"
      then Some "mosses"
      else if String.eqb b "Fungi" then Some "fungi"
      else if String.eqb b "Lecanoromycetes" then Some "lichens"
      else None
  end.

(** The keys of [externalDistractors], in the order of the source. *)
Definition externalKeys : list string :=
  ["insects"; "plants"; "mosses"; "lichens"; "mammals"; "birds"; "fungi";
   "spiders"].
End Hybrid.

(** ** The vocabulary variant: first program of [src/unnamed/part_000] *)

Module Vocab.

Definition MAX_ATTEMPTS : nat := 200.
Definition neededDistractors : nat := CONFIG.OPTIONS_PER_QUESTION - 1.

Record ExampleObservation := {
  exObsId : option Z;
  exPhotoUrl : option string;
  exObserver : option string;
  exLicenseCode : option string;
  exObsUrl : option string;
}.

(** A species entry of a vocabulary file. *)
Record SpeciesEntry := {
  taxonId : Z;
  scientificName : string;
  swedishName : option string;
  genusName : option string;
  familyName : option string;
  familySwedishName : option string;
  exampleObservation : option ExampleObservation;
}.

Record GenusEntry := {
  genGenusName : string;
  genSwedishName : option string;
  genRepresentative : SpeciesEntry;
}.

Record FamilyEntry := {
  famFamilyName : string;
  famSwedishName : option string;
  famRepresentative : SpeciesEntry;
  useExampleSpeciesName : bool;
}.

(** An answer option and the correct answer of a question. *)
Record Option_ := {
  key : string;
  labelSci : string;
  labelSwe : option string;
}.

Record Correct := {
  answerKey : string;
  corLabelSci : string;
  corLabelSwe : option string;
  obsId : option Z;
  photoUrl : option string;
  observer : string;
  licenseCode : option string;
  obsUrl : string;
  groupKey : string;
}.

Record Question := {
  correct : Correct;
  options : list Option_;
}.

(** [vocabByGroup] and its two derived vocabularies are objects whose
    entries are read in insertion order. *)
Definition vocab (E : Type) : Type := list (string * list E).

(** The filter of [loadVocab]: an entry needs an example observation with a
    photo URL and an id. *)
Definition hasExample (e : SpeciesEntry) : bool :=
  match exampleObservation e with
  | Some ex =>
      Js.truthy (exPhotoUrl ex)
      && match exObsId ex with Some i => negb (Z.eqb i 0) | None => false end
  | None => false
  end.

(** [buildGenusVocabFromSpecies], for the species list of one group. *)
Definition addGenus (genera : list GenusEntry) (sp : SpeciesEntry)
  : list GenusEntry :=
  match genusName sp with
  | None => genera
  | Some g =>
      if String.eqb g "" then genera
      else if decide (g ∈ genGenusName <$> genera) then genera
      else genera ++ [ {| genGenusName := g;
                          genSwedishName := Js.or (swedishName sp) None;
                          genRepresentative := sp |} ]
  end.

Definition buildGenusVocabFromSpecies (vocabByGroup : vocab SpeciesEntry)
  : vocab GenusEntry :=
  (λ '(groupKey, speciesList), (groupKey, foldl addGenus [] speciesList))
    <$> vocabByGroup.

(** [buildFamilyVocabFromSpecies], for the species list of one group. *)
Definition addFamily (families : list FamilyEntry) (sp : SpeciesEntry)
  : list FamilyEntry :=
  match familyName sp with
  | None => families
  | Some fam =>
      if String.eqb fam "" then families
      else if decide (fam ∈ famFamilyName <$> families) then families
      else families ++ [ {|
        famFamilyName := fam;
        famSwedishName := Js.or (Js.or (familySwedishName sp) (swedishName sp)) None;
        famRepresentative := sp;
        useExampleSpeciesName := negb (Js.truthy (familySwedishName sp)) |} ]
  end.

Definition buildFamilyVocabFromSpecies (vocabByGroup : vocab SpeciesEntry)
  : vocab FamilyEntry :=
  (λ '(groupKey, speciesList), (groupKey, foldl addFamily [] speciesList))
    <$> vocabByGroup.

(** *** The sampling loop shared by the three builders

    [while (questions.length < CONFIG.QUESTIONS_COUNT && attempts < MAX_ATTEMPTS)]
    around a body that either pushes a question or [continue]s.  [fuel]
    bounds the number of turns of the model; [None] is a loop that is still
    running when the fuel is gone. *)
Section Loop.
Context {Q : Type} (attempt : Rng.t → option Q * Rng.t).

Fixpoint sampleLoop (fuel : nat) (questions : list Q) (attempts : nat)
    (r : Rng.t) : option (list Q * nat * Rng.t) :=
  if (length questions <? CONFIG.QUESTIONS_COUNT) && (attempts <? MAX_ATTEMPTS)
  then
    match fuel with
    | 0 => None
    | S fuel' =>
        let '(q, r') := attempt r in
        sampleLoop fuel'
          (match q with Some q => questions ++ [q] | None => questions end)
          (attempts + 1) r'
    end
  else Some (questions, attempts, r).
End Loop.

(** The part of a builder before and around the loop. *)
Definition build {E Q : Type} (groups : vocab E)
    (attempt : vocab E → Rng.t → option Q * Rng.t) (fuel : nat) (r : Rng.t)
  : option (list Q * nat * Rng.t) :=
  let availableGroups :=
    filter (λ kl : string * list E, neededDistractors < length kl.2) groups in
  if decide (length availableGroups = 0) then Some ([], 0, r)
  else sampleLoop (attempt availableGroups) fuel [] 0 r.

(** What every body does with the example observation of its answer. *)
Definition correctOf (answerKey labelSci : string) (labelSwe : option string)
    (ex : ExampleObservation) (groupKey : string) : Correct :=
  {| answerKey := answerKey;
     corLabelSci := labelSci;
     corLabelSwe := labelSwe;
     obsId := exObsId ex;
     photoUrl := exPhotoUrl ex;
     observer := Js.orStr (exObserver ex) "okänd";
     licenseCode := Js.or (exLicenseCode ex) None;
     obsUrl := Js.orStr (exObsUrl ex) "#";
     groupKey := groupKey |}.

(** [ex] when [ex && ex.photoUrl]. *)
Definition usableExample (sp : SpeciesEntry) : option ExampleObservation :=
  match exampleObservation sp with
  | Some ex => if Js.truthy (exPhotoUrl ex) then Some ex else None
  | None => None
  end.

(** *** SPECIES LEVEL: the body of the loop *)

Definition speciesOption (s : SpeciesEntry) : Option_ :=
  {| key := pretty (taxonId s);
     labelSci := scientificName s;
     labelSwe := swedishName s |}.

Definition speciesAttempt (availableGroups : vocab SpeciesEntry) (r : Rng.t)
  : option Question * Rng.t :=
  let '(gi, r1) := Rng.randomInt (length availableGroups) r in
  match availableGroups !! gi with
  | None => (None, r1)     (* not reached: the index is in range *)
  | Some (groupKey, list) =>
      if decide (length list ≤ neededDistractors) then (None, r1)
      else
        let '(ci, r2) := Rng.randomInt (length list) r1 in
        match list !! ci with
        | None => (None, r2)     (* not reached *)
        | Some correctEntry =>
            match usableExample correctEntry with
            | None => (None, r2)
            | Some ex =>
                let pool :=
                  filter (λ s, taxonId s ≠ taxonId correctEntry) list in
                if decide (length pool < neededDistractors) then (None, r2)
                else
                  let '(distractorEntries, r3) :=
                    Arr.pickRandomSubset pool neededDistractors r2 in
                  let opts :=
                    speciesOption correctEntry
                    :: (speciesOption <$> distractorEntries) in
                  let '(shuffled, r4) := Arr.shuffleArray opts r3 in
                  (Some {| correct :=
                             correctOf (pretty (taxonId correctEntry))
                                       (scientificName correctEntry)
                                       (swedishName correctEntry) ex groupKey;
                           options := shuffled |}, r4)
            end
        end
  end.

Definition buildSpeciesQuizQuestionsFromVocab
    (vocabByGroup : vocab SpeciesEntry) :=
  build vocabByGroup speciesAttempt.

(** *** GENUS LEVEL *)

Definition genusOption (g : GenusEntry) : Option_ :=
  {| key := genGenusName g; labelSci := genGenusName g; labelSwe := None |}.

Definition genusAttempt (availableGroups : vocab GenusEntry) (r : Rng.t)
  : option Question * Rng.t :=
  let '(gi, r1) := Rng.randomInt (length availableGroups) r in
  match availableGroups !! gi with
  | None => (None, r1)
  | Some (groupKey, genusList) =>
      if decide (length genusList ≤ neededDistractors) then (None, r1)
      else
        let '(ci, r2) := Rng.randomInt (length genusList) r1 in
        match genusList !! ci with
        | None => (None, r2)
        | Some correctGenus =>
            match usableExample (genRepresentative correctGenus) with
            | None => (None, r2)
            | Some ex =>
                let pool :=
                  filter (λ g, genGenusName g ≠ genGenusName correctGenus)
                         genusList in
                if decide (length pool < neededDistractors) then (None, r2)
                else
                  let '(distractorGenera, r3) :=
                    Arr.pickRandomSubset pool neededDistractors r2 in
                  let opts :=
                    genusOption correctGenus
                    :: (genusOption <$> distractorGenera) in
                  let '(shuffled, r4) := Arr.shuffleArray opts r3 in
                  (Some {| correct :=
                             correctOf (genGenusName correctGenus)
                                       (genGenusName correctGenus)
                                       (genSwedishName correctGenus) ex groupKey;
                           options := shuffled |}, r4)
            end
        end
  end.

Definition buildGenusQuizQuestionsFromVocab
    (genusVocabByGroup : vocab GenusEntry) :=
  build genusVocabByGroup genusAttempt.

(** *** FAMILY LEVEL *)

Definition familyOption (f : FamilyEntry) : Option_ :=
  {| key := famFamilyName f;
     labelSci := famFamilyName f;
     labelSwe :=
       if useExampleSpeciesName f && Js.truthy (famSwedishName f)
       then Some ("t.ex. " +:+ default "" (famSwedishName f))
       else famSwedishName f |}.

Definition familyAttempt (availableGroups : vocab FamilyEntry) (r : Rng.t)
  : option Question * Rng.t :=
  let '(gi, r1) := Rng.randomInt (length availableGroups) r in
  match availableGroups !! gi with
  | None => (None, r1)
  | Some (groupKey, familyList) =>
      if decide (length familyList ≤ neededDistractors) then (None, r1)
      else
        let '(ci, r2) := Rng.randomInt (length familyList) r1 in
        match familyList !! ci with
        | None => (None, r2)
        | Some correctFamily =>
            match usableExample (famRepresentative correctFamily) with
            | None => (None, r2)
            | Some ex =>
                let pool :=
                  filter (λ f, famFamilyName f ≠ famFamilyName correctFamily)
                         familyList in
                if decide (length pool < neededDistractors) then (None, r2)
                else
                  let '(distractorFamilies, r3) :=
                    Arr.pickRandomSubset pool neededDistractors r2 in
                  let opts :=
                    familyOption correctFamily
                    :: (familyOption <$> distractorFamilies) in
                  let '(shuffled, r4) := Arr.shuffleArray opts r3 in
                  (Some {| correct :=
                             correctOf (famFamilyName correctFamily)
                                       (famFamilyName correctFamily)
                                       (famSwedishName correctFamily) ex groupKey;
                           options := shuffled |}, r4)
            end
        end
  end.

Definition buildFamilyQuizQuestionsFromVocab
    (familyVocabByGroup : vocab FamilyEntry) :=
  build familyVocabByGroup familyAttempt.

(** *** LOAD VOCAB *)

Definition VOCAB_FILES : list (string * string) :=
  [ ("insects", "data/insects_vocab_sweden.json");
    ("plants", "data/plants_vocab_sweden.json");
    ("mosses", "data/mosses_vocab_sweden.json");
    ("lichens", "data/lichens_vocab_sweden.json");
    ("mammals", "data/mammals_vocab_sweden.json");
    ("birds", "data/birds_vocab_sweden.json");
    ("fungi", "data/fungi_vocab_sweden.json");
    ("spiders", "data/spiders_vocab_sweden.json") ].

(** What the request of one vocabulary file comes back with.  The body is
    an array ([Some]) or something else; an entry [None] of the array is a
    [null], on which the filter throws. *)
Inductive Response :=
| FetchRejects
| NotOk
| JsonRejects
| Ok (data : option (list (option SpeciesEntry))).

(** The [try] block for one file: every failure, caught or not OK, leaves
    the group with an empty list. *)
Definition loadGroup (resp : Response) : list SpeciesEntry :=
  match resp with
  | Ok (Some list) =>
      match mapM id list with
      | Some entries => filter (λ e, hasExample e = true) entries
      | None => []
      end
  | _ => []
  end.

(** [loadVocab]: the value it gives to [vocabByGroup]. *)
Definition loadVocab (fetch : string → Response) : vocab SpeciesEntry :=
  (λ '(groupKey, path), (groupKey, loadGroup (fetch path))) <$> VOCAB_FILES.
End Vocab.


(** ** Sample data used by the examples *)

Module Sample.
Definition photoOk : App.RawPhoto.t :=
  {| App.RawPhoto.url := Some "https://static.inaturalist.org/photos/1/square.jpg";
     App.RawPhoto.license_code := Some "cc-by" |}.

Definition photoUnlicensed : App.RawPhoto.t :=
  {| App.RawPhoto.url := Some "https://static.inaturalist.org/photos/2/square.jpg";
     App.RawPhoto.license_code := None |}.

Definition taxonNamed (i : Z) (n : string) : App.RawTaxon.t :=
  {| App.RawTaxon.id := Js.Num i;
     App.RawTaxon.name := Some n;
     App.RawTaxon.preferred_common_name := None |}.

Definition rawWith (i : Z) (n : string) (ps : option (list App.RawPhoto.t))
  : App.RawObs.t :=
  {| App.RawObs.id := i;
     App.RawObs.taxon := Some (taxonNamed i n);
     App.RawObs.photos := ps;
     App.RawObs.quality_grade := Some "research";
     App.RawObs.license_code := None;
     App.RawObs.user := None |}.

(** A usable record, one without photos, one whose only photo has no
    license, and one whose taxon name starts with a space. *)
Definition rawGood : App.RawObs.t := rawWith 1 "Parus major" (Some [photoOk]).
Definition rawNoPhoto : App.RawObs.t := rawWith 2 "Pica pica" None.
Definition rawUnlicensed : App.RawObs.t :=
  rawWith 3 "Apis mellifera" (Some [photoUnlicensed]).
Definition rawLeadingSpace : App.RawObs.t :=
  rawWith 4 " Parus major" (Some [photoOk]).

(** An observation as [filterAndTransform] and the enrichment leave it. *)
Definition obsOf (i : Z) (sci : string) (fam broad : option string)
  : App.Observation :=
  {| App.obsId := i;
     App.taxonId := Js.Num i;
     App.photoUrl := "https://static.inaturalist.org/photos/1/large.jpg";
     App.scientificName := sci;
     App.swedishName := None;
     App.genusName := Js.orStr (head (Str.split " "%char sci)) sci;
     App.familyName := fam;
     App.broadGroup := broad;
     App.observer := "unknown";
     App.licenseCode := Some "cc-by";
     App.obsUrl := "https://www.inaturalist.org/observations/" +:+ pretty i |}.

(** Thirty-one observations of thirty-one taxa, and a service that rejects
    the request of a full chunk and answers any other with the taxon 31. *)
Definition taxon31 : App.Taxon.t :=
  {| App.Taxon.id := Js.Num 31%Z;
     App.Taxon.rank := Some "species";
     App.Taxon.name := Some "Parus major";
     App.Taxon.ancestors :=
       Some [ {| App.Ancestor.rank := Some "class";
                 App.Ancestor.name := Some "Aves" |};
              {| App.Ancestor.rank := Some "family";
                 App.Ancestor.name := Some "Paridae" |} ] |}.

Definition obs31 : list App.Observation :=
  (λ i, obsOf i "Parus major" None None) <$> seqZ 1 31.

Definition fetch31 (chunk : list Z) : App.Response :=
  if decide (length chunk = 30) then App.FetchRejects
  else App.Ok (Some [Some taxon31]).

(** Enriched observations: five insects and three birds, and a bird whose
    family is not known. *)
Definition insect (i : Z) (sci fam : string) : App.Observation :=
  obsOf i sci (Some fam) (Some "Insecta").

Definition bird (i : Z) (sci fam : string) : App.Observation :=
  obsOf i sci (Some fam) (Some "Aves").

Definition quizObs : list App.Observation :=
  [ insect 1 "Apis mellifera" "Apidae";
    insect 2 "Bombus terrestris" "Apidae";
    insect 3 "Vespula vulgaris" "Vespidae";
    insect 4 "Pieris napi" "Pieridae";
    insect 5 "Aglais io" "Nymphalidae";
    bird 6 "Parus major" "Paridae";
    bird 7 "Pica pica" "Corvidae";
    bird 8 "Corvus corax" "Corvidae" ].

Definition noFamily : App.Observation := obsOf 9 "Sitta europaea" None (Some "Aves").

(** The hybrid variant: one bird and four insects. *)
Definition hybridObs (i : Z) (sci broad didactic : string) : Hybrid.Observation :=
  {| Hybrid.obsId := Some i;
     Hybrid.taxonId := Some i;
     Hybrid.photoUrl := Some "https://static.inaturalist.org/photos/1/large.jpg";
     Hybrid.scientificName := sci;
     Hybrid.swedishName := None;
     Hybrid.genusName := Js.orStr (head (Str.split " "%char sci)) sci;
     Hybrid.familyName := None;
     Hybrid.broadGroup := Some broad;
     Hybrid.didacticGroup := Some didactic;
     Hybrid.observer := "unknown";
     Hybrid.licenseCode := Some "cc-by";
     Hybrid.obsUrl := Some ("https://www.inaturalist.org/observations/" +:+ pretty i) |}.

Definition hybridQuizObs : list Hybrid.Observation :=
  [ hybridObs 6 "Parus major" "Aves" "birds";
    hybridObs 1 "Apis mellifera" "Insecta" "insects";
    hybridObs 2 "Bombus terrestris" "Insecta" "insects";
    hybridObs 3 "Vespula vulgaris" "Insecta" "insects";
    hybridObs 4 "Pieris napi" "Insecta" "insects" ].

(** Vocabulary entries. *)
Definition example (i : Z) : Vocab.ExampleObservation :=
  {| Vocab.exObsId := Some i;
     Vocab.exPhotoUrl := Some "https://static.inaturalist.org/photos/1/medium.jpg";
     Vocab.exObserver := Some "observer";
     Vocab.exLicenseCode := Some "cc-by";
     Vocab.exObsUrl := Some ("https://www.inaturalist.org/observations/" +:+ pretty i) |}.

Definition species (i : Z) (sci genus fam : string) : Vocab.SpeciesEntry :=
  {| Vocab.taxonId := i;
     Vocab.scientificName := sci;
     Vocab.swedishName := None;
     Vocab.genusName := Some genus;
     Vocab.familyName := Some fam;
     Vocab.familySwedishName := None;
     Vocab.exampleObservation := Some (example i) |}.

(** One group of four species. *)
Definition birdVocab : Vocab.vocab Vocab.SpeciesEntry :=
  [ ("birds",
     [ species 1 "Parus major" "Parus" "Paridae";
       species 2 "Pica pica" "Pica" "Corvidae";
       species 3 "Sitta europaea" "Sitta" "Sittidae";
       species 4 "Turdus merula" "Turdus" "Turdidae" ]) ].

(** Twelve species, genera and families, three to a group: no group has
    more entries than a question needs distractors. *)
Definition smallGroups : Vocab.vocab Vocab.SpeciesEntry :=
  [ ("birds",
     [ species 1 "Parus major" "Parus" "Paridae";
       species 2 "Pica pica" "Pica" "Corvidae";
       species 3 "Sitta europaea" "Sitta" "Sittidae" ]);
    ("insects",
     [ species 4 "Apis mellifera" "Apis" "Apidae";
       species 5 "Vespula vulgaris" "Vespula" "Vespidae";
       species 6 "Pieris napi" "Pieris" "Pieridae" ]);
    ("mammals",
     [ species 7 "Vulpes vulpes" "Vulpes" "Canidae";
       species 8 "Meles meles" "Meles" "Mustelidae";
       species 9 "Alces alces" "Alces" "Cervidae" ]);
    ("plants",
     [ species 10 "Betula pendula" "Betula" "Betulaceae";
       species 11 "Picea abies" "Picea" "Pinaceae";
       species 12 "Acer platanoides" "Acer" "Sapindaceae" ]) ].

(** A group whose four entries are one taxon, before a group of ten
    species. *)
Definition repeatedFirst : Vocab.vocab Vocab.SpeciesEntry :=
  [ ("spiders", replicate 4 (species 20 "Araneus diadematus" "Araneus" "Araneidae"));
    ("birds", (λ i, species i ("Species " +:+ pretty i) "Genus" "Family")
                <$> seqZ 1 10) ].

(** A service that answers every vocabulary file with the same four
    species. *)
Definition fetchFourBirds (path : string) : Vocab.Response :=
  Vocab.Ok (Some (Some <$> [ species 1 "Parus major" "Parus" "Paridae";
                             species 2 "Pica pica" "Pica" "Corvidae";
                             species 3 "Sitta europaea" "Sitta" "Sittidae";
                             species 4 "Turdus merula" "Turdus" "Turdidae" ])).

(** An observation whose genus name is empty. *)
Definition emptyGenus : App.Observation :=
  {| App.obsId := 10;
     App.taxonId := Js.Num 10;
     App.photoUrl := "https://static.inaturalist.org/photos/1/large.jpg";
     App.scientificName := "Parus major";
     App.swedishName := None;
     App.genusName := "";
     App.familyName := None;
     App.broadGroup := None;
     App.observer := "unknown";
     App.licenseCode := Some "cc-by";
     App.obsUrl := "https://www.inaturalist.org/observations/10" |}.

(** A taxon that comes without id, and an observation with a given taxon
    id. *)
Definition taxonNoId : App.Taxon.t :=
  {| App.Taxon.id := Js.Undefined;
     App.Taxon.rank := Some "family";
     App.Taxon.name := Some "Paridae";
     App.Taxon.ancestors := None |}.

Definition obsWithTaxonId (i : Js.Id) : App.Observation :=
  {| App.obsId := 11;
     App.taxonId := i;
     App.photoUrl := "https://static.inaturalist.org/photos/1/large.jpg";
     App.scientificName := "Parus major";
     App.swedishName := None;
     App.genusName := "Parus";
     App.familyName := None;
     App.broadGroup := None;
     App.observer := "unknown";
     App.licenseCode := Some "cc-by";
     App.obsUrl := "https://www.inaturalist.org/observations/11" |}.
End Sample.

(** ** Properties named by the claims *)

(** Every array of the store [h] is still there, with the same contents, in
    [h']. *)
Definition preserved {A : Type} (h h' : gmap positive (list A)) : Prop :=
  ∀ b v, h !! b = Some v → h' !! b = Some v.

(** The outcomes [j] of the draws of the shuffle loop, from the current [i]
    down to [1]. *)
Fixpoint drawn (i : nat) (r : Rng.t) : list nat :=
  match i with
  | 0 => []
  | S i' =>
      (Rng.randomInt (i + 1) r).1 :: drawn i' (Rng.randomInt (i + 1) r).2
  end.
(** A raw record without a photo, without a photo that has an allowed
    license, and with a license of its own that is present and not allowed. *)
Definition noPhoto (o : App.RawObs.t) : Prop :=
  default [] (App.RawObs.photos o) = [].

Definition noAllowedPhoto (o : App.RawObs.t) : Prop :=
  Forall (λ p, App.licenseIsAllowed (App.RawPhoto.license_code p) = false)
         (default [] (App.RawObs.photos o)).

Definition ownLicenseDisallowed (o : App.RawObs.t) : Prop :=
  Js.truthy (App.RawObs.license_code o) = true
  ∧ App.licenseIsAllowed (App.RawObs.license_code o) = false.

(** The chunks that the loop of [enrichWithTaxaData] requests, in order:
    the same recursion as [App.enrichLoop], keeping the chunks. *)
Fixpoint requestedChunks (fuel : nat) (i : nat) (ids : list Z)
  : list (list Z) :=
  match fuel with
  | 0 => []
  | S fuel' =>
      if decide (i < length ids) then
        take App.chunkSize (drop i ids)
        :: requestedChunks fuel' (i + App.chunkSize) ids
      else []
  end.

Definition chunksOf (obsList : list App.Observation) : list (list Z) :=
  let ids := App.uniq (omap App.taxonNum obsList) in
  requestedChunks (length ids) 0 ids.

(** A request that fails, or whose response is not OK or not readable. *)
Definition failed (resp : App.Response) : Prop :=
  match resp with App.Ok _ => False | _ => True end.

Global Instance failed_dec resp : Decision (failed resp).
Proof. destruct resp; simpl; apply _. Defined.

(** The response holds a taxon with id [k]. *)
Definition returns (resp : App.Response) (k : Js.Id) : Prop :=
  match resp with
  | App.Ok (Some taxa) => ∃ t, Some t ∈ taxa ∧ App.Taxon.id t = k
  | _ => False
  end.

(** The response holds the taxon [t], with no [null] entry before it. *)
Definition reads (resp : App.Response) (t : App.Taxon.t) : Prop :=
  match resp with
  | App.Ok (Some taxa) =>
      ∃ pre post, taxa = pre ++ Some t :: post ∧ Forall is_Some pre
  | _ => False
  end.

(** No response to a chunk of [chunks] holds the taxon of [o]. *)
Definition unresolved (fetch : list Z → App.Response)
    (chunks : list (list Z)) (o : App.Observation) : Prop :=
  ∀ c, c ∈ chunks → ¬ returns (fetch c) (App.taxonId o).

(** Every key of either map satisfies [P]. *)
Definition keysFrom (m : App.Maps) (P : Js.Id → Prop) : Prop :=
  ∀ k, is_Some (App.familyMap m !! k) ∨ is_Some (App.broadGroupMap m !! k)
       → P k.

(** The map has an entry for [k], and it is not empty. *)
Definition hasFamily (m : App.Maps) (k : Js.Id) : Prop :=
  ∃ f, App.familyMap m !! k = Some f ∧ f ≠ "".

Definition hasBroad (m : App.Maps) (k : Js.Id) : Prop :=
  ∃ b, App.broadGroupMap m !! k = Some b ∧ b ≠ "".

(** Two observations that differ at most in family and broad group. *)
Definition sameButTaxonomy (o o' : App.Observation) : Prop :=
  App.obsId o' = App.obsId o ∧ App.taxonId o' = App.taxonId o
  ∧ App.photoUrl o' = App.photoUrl o
  ∧ App.scientificName o' = App.scientificName o
  ∧ App.swedishName o' = App.swedishName o
  ∧ App.genusName o' = App.genusName o
  ∧ App.observer o' = App.observer o
  ∧ App.licenseCode o' = App.licenseCode o
  ∧ App.obsUrl o' = App.obsUrl o.

(** The label of an observation when it is truthy: what [buildQuizQuestions]
    keys its groups by. *)
Definition groupLabel (currentLevel : string) (o : App.Observation)
  : option string :=
  match App.getGroupLabelForObs currentLevel o with
  | Some l => if String.eqb l "" then None else Some l
  | None => None
  end.

(** The label that the claims name for each level: the scientific name for
    species, the genus name for genus, the family name for family. *)
Definition levelLabel (currentLevel : string) (o : App.Observation)
  : option string :=
  if decide (currentLevel = "genus") then Some (App.genusName o)
  else if decide (currentLevel = "family") then App.familyName o
  else Some (App.scientificName o).

(** An observation that has no label at the level. *)
Definition lacksLabel (currentLevel : string) (o : App.Observation) : Prop :=
  Js.truthy (levelLabel currentLevel o) = false.

Global Instance lacksLabel_dec lvl o : Decision (lacksLabel lvl o).
Proof. unfold lacksLabel. apply _. Defined.

(** The number of distinct labels among the observations. *)
Definition groupCount (currentLevel : string) (obsList : list App.Observation)
  : nat :=
  length (remove_dups (omap (groupLabel currentLevel) obsList)).

(** The questions of the groups [chosen], in order, with the draws threaded
    through: the loop of [buildQuizQuestions] as a recursion. *)
Fixpoint questionsFor (groups chosen : list App.Group) (r : Rng.t)
  : list App.Question * Rng.t :=
  match chosen with
  | [] => ([], r)
  | g :: chosen' =>
      let '(q, r1) := App.buildQuestion groups g r in
      let '(qs, r2) := questionsFor groups chosen' r1 in
      (q :: qs, r2)
  end.

(** The distractor groups drawn for [g]. *)
Definition distractorsOf (groups : list App.Group) (g : App.Group) (r : Rng.t)
  : list App.Group :=
  (Arr.pickRandomSubset (App.candidateGroups groups g)
                        (CONFIG.OPTIONS_PER_QUESTION - 1) r).1.

(** The groups chosen as correct answers. *)
Definition chosenGroups (currentLevel : string)
    (obsList : list App.Observation) (r : Rng.t) : list App.Group :=
  let groups := App.buildGroups currentLevel obsList in
  (Arr.pickRandomSubset groups
     (CONFIG.QUESTIONS_COUNT `min` length groups) r).1.

(** The photo that [filterAndTransform] takes: the first one with an allowed
    license. *)
Definition firstAllowedPhoto (o : App.RawObs.t) : option App.RawPhoto.t :=
  List.find (λ p, App.licenseIsAllowed (App.RawPhoto.license_code p))
            (default [] (App.RawObs.photos o)).

(** What a raw record needs to be kept. *)
Definition kept (o : App.RawObs.t) : Prop :=
  (∃ taxon, App.RawObs.taxon o = Some taxon
            ∧ Js.truthy (App.RawTaxon.name taxon) = true)
  ∧ App.RawObs.quality_grade o = Some "research"
  ∧ (Js.truthy (App.RawObs.license_code o) = true →
     App.licenseIsAllowed (App.RawObs.license_code o) = true)
  ∧ (∃ photo, firstAllowedPhoto o = Some photo
              ∧ Js.truthy (App.RawPhoto.url photo) = true).

(** The truthy label of an observation of the hybrid variant. *)
Definition hybridLabel (lvl : string) (o : Hybrid.Observation) : option string :=
  match Hybrid.getGroupLabelForObs lvl o with
  | Some l => if String.eqb l "" then None else Some l
  | None => None
  end.

(** A question of the hybrid variant whose options are the correct
    observation, which has a broad group, and as many distractors as a
    question needs, none of which has the label of the correct one. *)
Definition hybridWellFormed (lvl : string) (q : Hybrid.Question) : Prop :=
  ∃ ds, Hybrid.options q ≡ₚ Hybrid.correct q :: ds
        ∧ length ds = CONFIG.OPTIONS_PER_QUESTION - 1
        ∧ Js.truthy (Hybrid.broadGroup (Hybrid.correct q)) = true
        ∧ ∀ d, d ∈ ds → Hybrid.buttonLabel lvl d
                        ≠ Hybrid.buttonLabel lvl (Hybrid.correct q).

(** The body shared by the three sampling loops of the vocabulary variant:
    [keyOf] is what the pool is filtered by, [rep] the species whose example
    observation is shown, [optOf] the answer option of an entry and
    [corOf] the correct answer.  Each of the three bodies is this one, see
    [speciesAttempt_generic] and its siblings. *)
Definition attemptWith {E K : Type} `{EqDecision K} (keyOf : E → K)
    (rep : E → Vocab.SpeciesEntry) (optOf : E → Vocab.Option_)
    (corOf : E → Vocab.ExampleObservation → string → Vocab.Correct)
    (availableGroups : Vocab.vocab E) (r : Rng.t)
  : option Vocab.Question * Rng.t :=
  let '(gi, r1) := Rng.randomInt (length availableGroups) r in
  match availableGroups !! gi with
  | None => (None, r1)
  | Some (groupKey, list) =>
      if decide (length list ≤ Vocab.neededDistractors) then (None, r1)
      else
        let '(ci, r2) := Rng.randomInt (length list) r1 in
        match list !! ci with
        | None => (None, r2)
        | Some correctEntry =>
            match Vocab.usableExample (rep correctEntry) with
            | None => (None, r2)
            | Some ex =>
                let pool := filter (λ s, keyOf s ≠ keyOf correctEntry) list in
                if decide (length pool < Vocab.neededDistractors) then (None, r2)
                else
                  let '(distractorEntries, r3) :=
                    Arr.pickRandomSubset pool Vocab.neededDistractors r2 in
                  let opts := optOf correctEntry :: (optOf <$> distractorEntries) in
                  let '(shuffled, r4) := Arr.shuffleArray opts r3 in
                  (Some {| Vocab.correct := corOf correctEntry ex groupKey;
                           Vocab.options := shuffled |}, r4)
            end
        end
  end.

(** A question of the vocabulary variant: a photo to show, and among the
    options, which are as many as a question has, exactly the first of
    [c :: ds] with the key of the answer. *)
Definition vocabWellFormed (q : Vocab.Question) : Prop :=
  Js.truthy (Vocab.photoUrl (Vocab.correct q)) = true
  ∧ ∃ c ds, Vocab.options q ≡ₚ c :: ds
            ∧ Vocab.key c = Vocab.answerKey (Vocab.correct q)
            ∧ length ds = CONFIG.OPTIONS_PER_QUESTION - 1
            ∧ ∀ d, d ∈ ds → Vocab.key d ≠ Vocab.key c.

(** A vocabulary in which every entry has an example observation to show
    and the entries of a group have pairwise distinct keys. *)
Definition vocabReady {E K : Type} (keyOf : E → K)
    (rep : E → Vocab.SpeciesEntry) (v : Vocab.vocab E) : Prop :=
  ∀ groupKey list, (groupKey, list) ∈ v →
    NoDup (keyOf <$> list)
    ∧ ∀ e, e ∈ list → is_Some (Vocab.usableExample (rep e)).

(** Grouping by first occurrence, as [buildGenusVocabFromSpecies] and
    [buildFamilyVocabFromSpecies] do it with a [Map]: [keyOf] is the key of
    an element when it has one, [mk] makes the entry of a new key. *)
Definition addByKey {X G : Type} (keyOf : X → option string)
    (gkey : G → string) (mk : string → X → G) (acc : list G) (x : X)
  : list G :=
  match keyOf x with
  | None => acc
  | Some k => if decide (k ∈ gkey <$> acc) then acc else acc ++ [mk k x]
  end.

(** A string that is there and not empty. *)
Definition nonEmpty (s : option string) : option string :=
  match s with
  | Some t => if String.eqb t "" then None else Some t
  | None => None
  end.

Definition mkGenus (g : string) (sp : Vocab.SpeciesEntry) : Vocab.GenusEntry :=
  {| Vocab.genGenusName := g;
     Vocab.genSwedishName := Js.or (Vocab.swedishName sp) None;
     Vocab.genRepresentative := sp |}.

Definition mkFamily (fam : string) (sp : Vocab.SpeciesEntry)
  : Vocab.FamilyEntry :=
  {| Vocab.famFamilyName := fam;
     Vocab.famSwedishName :=
       Js.or (Js.or (Vocab.familySwedishName sp) (Vocab.swedishName sp)) None;
     Vocab.famRepresentative := sp;
     Vocab.useExampleSpeciesName :=
       negb (Js.truthy (Vocab.familySwedishName sp)) |}.

(** What a question of the vocabulary variant offers: a photo, as many
    options as a question has, and exactly one of them with the key of the
    answer. *)
Definition vocabShape (q : Vocab.Question) : Prop :=
  Js.truthy (Vocab.photoUrl (Vocab.correct q)) = true
  ∧ length (Vocab.options q) = CONFIG.OPTIONS_PER_QUESTION
  ∧ length (filter (λ o, Vocab.key o = Vocab.answerKey (Vocab.correct q))
                   (Vocab.options q)) = 1.

(** *** The enrichment in the words of the claim

    The family of a taxon is its own name when it is a family, and else the
    name of its first ancestor of rank family; its broad group is the name
    of its first ancestor of rank class, without one that of rank phylum,
    and without that of rank division.  An ancestor without name gives
    nothing. *)
Definition ancestorOfRank (t : App.Taxon.t) (rank : string)
  : option App.Ancestor.t :=
  List.find (λ a, bool_decide (App.Ancestor.rank a = Some rank))
            (default [] (App.Taxon.ancestors t)).

Definition familyOfTaxon (t : App.Taxon.t) : option string :=
  if bool_decide (App.Taxon.rank t = Some "family") then App.Taxon.name t
  else ancestorOfRank t "family" ≫= App.Ancestor.name.

Definition broadGroupOfTaxon (t : App.Taxon.t) : option string :=
  match ancestorOfRank t "class", ancestorOfRank t "phylum",
        ancestorOfRank t "division" with
  | Some a, _, _ => App.Ancestor.name a
  | None, Some a, _ => App.Ancestor.name a
  | None, None, Some a => App.Ancestor.name a
  | None, None, None => None
  end.

(** The response holds the taxon [t]. *)
Definition holds (resp : App.Response) (t : App.Taxon.t) : Prop :=
  match resp with
  | App.Ok (Some taxa) => Some t ∈ taxa
  | _ => False
  end.

(** [t] is the only taxon with its id in the responses to [chunks]. *)
Definition onlyTaxon (fetch : list Z → App.Response) (chunks : list (list Z))
    (t : App.Taxon.t) : Prop :=
  ∀ c t', c ∈ chunks → holds (fetch c) t' →
          App.Taxon.id t' = App.Taxon.id t → t' = t.

(** Every entry of either map was recorded for a taxon that satisfies [Q],
    under its id, with its family name or broad group. *)
Definition entriesFrom (m : App.Maps) (Q : App.Taxon.t → Prop) : Prop :=
  (∀ k f, App.familyMap m !! k = Some f →
     ∃ t, Q t ∧ App.Taxon.id t = k ∧ App.famNameOf t = Some f ∧ f ≠ "")
  ∧ (∀ k b, App.broadGroupMap m !! k = Some b →
     ∃ t, Q t ∧ App.Taxon.id t = k ∧ App.broadGroupOf t = Some b ∧ b ≠ "").

(** The label of each level with the fallback that the genus level has: the
    genus name, and the scientific name when the genus name is empty. *)
Definition labelOrFallback (currentLevel : string) (o : App.Observation)
  : option string :=
  if decide (currentLevel = "genus") then
    Some (if String.eqb (App.genusName o) "" then App.scientificName o
          else App.genusName o)
  else if decide (currentLevel = "family") then App.familyName o
  else Some (App.scientificName o).

(** An observation that has no such label at the level: it is [null] or
    empty. *)
Definition lacksLabelOrFallback (currentLevel : string) (o : App.Observation)
  : Prop :=
  Js.truthy (labelOrFallback currentLevel o) = false.

Global Instance lacksLabelOrFallback_dec lvl o :
  Decision (lacksLabelOrFallback lvl o).
Proof. unfold lacksLabelOrFallback. apply _. Defined.

(** ** Theorems *)

Section ArrFacts.
Context {A : Type}.
Implicit Types (arr : list A) (r : Rng.t) (h : Arr.store A).

Lemma swap_length i j arr : length (Arr.swap i j arr) = length arr.
Proof.
  unfold Arr.swap. destruct (arr !! i), (arr !! j); auto.
  by rewrite !length_insert.
Qed.

Lemma transpose_inj i j : Inj (=) (=) (Arr.transpose i j).
Proof.
  intros a b. unfold Arr.transpose. repeat case_decide; congruence.
Qed.

Lemma swap_lookup i j arr n :
  i < length arr → j < length arr →
  Arr.swap i j arr !! n = arr !! Arr.transpose i j n.
Proof.
  intros Hi Hj. unfold Arr.swap, Arr.transpose.
  destruct (lookup_lt_is_Some_2 arr i Hi) as [x Hx].
  destruct (lookup_lt_is_Some_2 arr j Hj) as [y Hy].
  rewrite Hx, Hy.
  destruct (decide (n = j)) as [->|Hnj].
  - rewrite list_lookup_insert_eq by (rewrite length_insert; lia).
    case_decide; congruence.
  - rewrite list_lookup_insert_ne by congruence.
    destruct (decide (n = i)) as [->|Hni].
    + rewrite list_lookup_insert_eq by lia. congruence.
    + by rewrite list_lookup_insert_ne by congruence.
Qed.

Lemma swap_perm i j arr : Arr.swap i j arr ≡ₚ arr.
Proof.
  destruct (decide (i < length arr ∧ j < length arr)) as [[Hi Hj]|Hn].
  - apply Permutation_inj. split; [apply swap_length|].
    exists (Arr.transpose i j). split; [apply transpose_inj|].
    intros n. by apply swap_lookup.
  - unfold Arr.swap.
    destruct (arr !! i) eqn:Ei; [|done].
    destruct (arr !! j) eqn:Ej; [|done].
    apply lookup_lt_Some in Ei, Ej. lia.
Qed.

Lemma shuffleLoop_perm i arr r : (Arr.shuffleLoop i arr r).1 ≡ₚ arr.
Proof.
  revert arr r. induction i as [|i IH]; intros arr r; simpl; [done|].
  rewrite IH. apply swap_perm.
Qed.

Lemma shuffleArray_perm arr r : (Arr.shuffleArray arr r).1 ≡ₚ arr.
Proof. apply shuffleLoop_perm. Qed.
End ArrFacts.

(** *** The shuffle maps distinct outcomes of its draws to distinct orders *)

Section ShuffleInjective.
Context {A : Type}.
Implicit Types (arr : list A) (r : Rng.t).

Lemma randomInt_bound k r : 0 < k → (Rng.randomInt k r).1 < k.
Proof.
  intros Hk. unfold Rng.randomInt. destruct k as [|k]; [lia|].
  cbn [fst]. apply Nat.mod_upper_bound. lia.
Qed.

Lemma shuffleLoop_step i arr r :
  Arr.shuffleLoop (S i) arr r
  = Arr.shuffleLoop i (Arr.swap (S i) (Rng.randomInt (S i + 1) r).1 arr)
                    (Rng.randomInt (S i + 1) r).2.
Proof. simpl. by destruct (Rng.randomInt (S (i + 1)) r). Qed.

Lemma swap_above i j k arr :
  i < k → j < k → Arr.swap i j arr !! k = arr !! k.
Proof.
  intros Hi Hj. unfold Arr.swap.
  destruct (arr !! i) eqn:Ei; [|done]. destruct (arr !! j) eqn:Ej; [|done].
  rewrite !list_lookup_insert_ne by lia. done.
Qed.

Lemma shuffleLoop_above i arr r k :
  i < k → (Arr.shuffleLoop i arr r).1 !! k = arr !! k.
Proof.
  revert arr r. induction i as [|i IH]; intros arr r Hk; [done|].
  rewrite shuffleLoop_step, IH by lia.
  apply swap_above; [done|].
  pose proof (randomInt_bound (S i + 1) r). lia.
Qed.

Lemma swap_at i j arr :
  i < length arr → j < length arr → Arr.swap i j arr !! i = arr !! j.
Proof.
  intros Hi Hj. rewrite swap_lookup by done.
  unfold Arr.transpose. by rewrite decide_True.
Qed.

Lemma shuffleLoop_injective i arr r1 r2 :
  NoDup arr → i < length arr →
  (Arr.shuffleLoop i arr r1).1 = (Arr.shuffleLoop i arr r2).1 →
  drawn i r1 = drawn i r2.
Proof.
  revert arr r1 r2. induction i as [|i IH]; intros arr r1 r2 Hnd Hi Heq; [done|].
  rewrite !shuffleLoop_step in Heq.
  pose proof (randomInt_bound (S i + 1) r1) as Hb1.
  pose proof (randomInt_bound (S i + 1) r2) as Hb2.
  set (j1 := (Rng.randomInt (S i + 1) r1).1) in *.
  set (j2 := (Rng.randomInt (S i + 1) r2).1) in *.
  assert (j1 = j2) as Hj.
  { assert (arr !! j1 = arr !! j2) as Hlook.
    { rewrite <- (swap_at (S i) j1 arr), <- (swap_at (S i) j2 arr) by lia.
      rewrite <- (shuffleLoop_above i _ (Rng.randomInt (S i + 1) r1).2 (S i)) by lia.
      rewrite <- (shuffleLoop_above i (Arr.swap (S i) j2 arr)
                    (Rng.randomInt (S i + 1) r2).2 (S i)) by lia.
      by rewrite Heq. }
    destruct (lookup_lt_is_Some_2 arr j1) as [x Hx]; [lia|].
    rewrite Hx in Hlook. symmetry in Hlook.
    by apply (NoDup_lookup arr j1 j2 x). }
  change (drawn (S i) r1) with (j1 :: drawn i (Rng.randomInt (S i + 1) r1).2).
  change (drawn (S i) r2) with (j2 :: drawn i (Rng.randomInt (S i + 1) r2).2).
  rewrite Hj. f_equal.
  apply (IH (Arr.swap (S i) j2 arr)).
  - by rewrite swap_perm.
  - rewrite swap_length. lia.
  - by rewrite <- Hj at 1.
Qed.
End ShuffleInjective.

(** *** The store versions refine the list versions and leave every array
    that existed before the call as it was *)

Section StoreFacts.
Context {A : Type}.
Implicit Types (v : list A) (r : Rng.t) (h : Arr.store A).

Lemma preserved_refl h : preserved h h.
Proof. by intros b v. Qed.

Lemma preserved_trans h1 h2 h3 :
  preserved h1 h2 → preserved h2 h3 → preserved h1 h3.
Proof. intros H12 H23 b v Hb. by apply H23, H12. Qed.

Lemma alloc_spec v h :
  ((Arr.alloc v h).1 ∉ dom h) ∧
  (Arr.alloc v h).2 !! (Arr.alloc v h).1 = Some v ∧
  preserved h (Arr.alloc v h).2.
Proof.
  unfold Arr.alloc. simpl. pose proof (is_fresh (dom h)) as Hf.
  split; [done|]. split; [by rewrite lookup_insert_eq|].
  intros b w Hb. rewrite lookup_insert_ne; [done|].
  intros <-. apply Hf, elem_of_dom. by eexists.
Qed.

Lemma shuffleLoopAt_refines i a h v r :
  h !! a = Some v →
  Arr.shuffleLoopAt i a h r =
    (<[a:=(Arr.shuffleLoop i v r).1]> h, (Arr.shuffleLoop i v r).2).
Proof.
  revert h v r. induction i as [|i IH]; intros h v r Ha; simpl.
  - by rewrite insert_id.
  - unfold Arr.swapAt. rewrite Ha.
    erewrite IH by apply lookup_insert_eq.
    by rewrite insert_insert_eq.
Qed.

Lemma shuffleArrayAt_refines array h v r :
  h !! array = Some v →
  let res := Arr.shuffleArrayAt array h r in
  (res.1.1 ∉ dom h) ∧
  res.1.2 !! res.1.1 = Some (Arr.shuffleArray v r).1 ∧
  res.2 = (Arr.shuffleArray v r).2 ∧
  preserved h res.1.2.
Proof.
  intros Ha. unfold Arr.shuffleArrayAt, Arr.sliceAll. rewrite Ha.
  change (default [] (Some v)) with v.
  destruct (alloc_spec v h) as (Hfresh & Hnew & Hpres).
  destruct (Arr.alloc v h) as [arr h1]. cbn [fst snd] in *.
  unfold Arr.lengthOf. rewrite Hnew.
  change (default [] (Some v)) with v.
  rewrite (shuffleLoopAt_refines _ _ _ v) by done. cbn [fst snd].
  unfold Arr.shuffleArray.
  split; [done|]. split; [by rewrite lookup_insert_eq|]. split; [done|].
  intros b w Hb. rewrite lookup_insert_ne; [by apply Hpres|].
  intros <-. apply Hfresh, elem_of_dom. by eexists.
Qed.

Lemma pickRandomSubsetAt_refines array n h v r :
  h !! array = Some v →
  let res := Arr.pickRandomSubsetAt array n h r in
  (res.1.1 ∉ dom h) ∧
  res.1.2 !! res.1.1 = Some (Arr.pickRandomSubset v n r).1 ∧
  res.2 = (Arr.pickRandomSubset v n r).2 ∧
  preserved h res.1.2.
Proof.
  intros Ha. unfold Arr.pickRandomSubsetAt, Arr.pickRandomSubset, Arr.lengthOf.
  rewrite Ha. change (default [] (Some v)) with v. case_decide as Hlen.
  - unfold Arr.sliceAll. rewrite Ha. change (default [] (Some v)) with v.
    destruct (alloc_spec v h) as (Hfresh & Hnew & Hpres).
    by destruct (Arr.alloc v h) as [res h1].
  - destruct (shuffleArrayAt_refines array h v r Ha) as (Hf1 & Hn1 & Hr1 & Hp1).
    destruct (Arr.shuffleArrayAt array h r) as [[shuffled h1] r'].
    cbn [fst snd] in *. unfold Arr.slice. rewrite Hn1.
    change (default [] (Some ?x)) with x.
    destruct (alloc_spec (take n (Arr.shuffleArray v r).1) h1)
      as (Hf2 & Hn2 & Hp2).
    destruct (Arr.alloc (take n (Arr.shuffleArray v r).1) h1) as [res h2].
    destruct (Arr.shuffleArray v r) as [s r'']. cbn [fst snd] in *.
    split_and!; [|done|done|by eapply preserved_trans].
    intros Hin. apply Hf2. apply elem_of_dom in Hin as [w Hw].
    apply elem_of_dom. exists w. by apply Hp1.
Qed.

Lemma pickRandomSubset_length v n r :
  length (Arr.pickRandomSubset v n r).1 = n `min` length v.
Proof.
  unfold Arr.pickRandomSubset. case_decide as Hlen; simpl; [lia|].
  pose proof (shuffleArray_perm v r) as Hp.
  destruct (Arr.shuffleArray v r) as [s r']. simpl in *.
  rewrite length_take, Hp. done.
Qed.

Lemma pickRandomSubset_submseteq v n r : (Arr.pickRandomSubset v n r).1 ⊆+ v.
Proof.
  unfold Arr.pickRandomSubset. case_decide as Hlen; simpl; [done|].
  pose proof (shuffleArray_perm v r) as Hp.
  destruct (Arr.shuffleArray v r) as [s r']. simpl in *.
  rewrite <- Hp. apply submseteq_take.
Qed.
End StoreFacts.


(** C8.  For every array [array] of the store, with contents [v], and every
    natural number [n]: [pickRandomSubset(array, n)] returns an array of
    length [min n (length v)] whose elements are a sub-multiset of [v] (each
    position of the input is used at most once); [shuffleArray(array)]
    returns a permutation of [v]; and after either call every array that
    existed before, the input among them, has the contents it had. *)
Theorem pickRandomSubset_shuffleArray_spec {A : Type}
    (h : gmap positive (list A)) (array : positive) (v : list A)
    (n : nat) (r : Rng.t) :
  h !! array = Some v →
  (∃ out,
      (Arr.pickRandomSubsetAt array n h r).1.2
        !! (Arr.pickRandomSubsetAt array n h r).1.1 = Some out
      ∧ length out = n `min` length v
      ∧ out ⊆+ v
      ∧ (Arr.pickRandomSubsetAt array n h r).1.2 !! array = Some v
      ∧ preserved h (Arr.pickRandomSubsetAt array n h r).1.2)
  ∧ (∃ out,
      (Arr.shuffleArrayAt array h r).1.2
        !! (Arr.shuffleArrayAt array h r).1.1 = Some out
      ∧ out ≡ₚ v
      ∧ (Arr.shuffleArrayAt array h r).1.2 !! array = Some v
      ∧ preserved h (Arr.shuffleArrayAt array h r).1.2).
Proof.
  intros Ha. split.
  - destruct (pickRandomSubsetAt_refines array n h v r Ha) as (_ & Hout & _ & Hp).
    eexists. split; [exact Hout|].
    split; [apply pickRandomSubset_length|].
    split; [apply pickRandomSubset_submseteq|].
    split; [by apply Hp|done].
  - destruct (shuffleArrayAt_refines array h v r Ha) as (_ & Hout & _ & Hp).
    eexists. split; [exact Hout|].
    split; [apply shuffleArray_perm|].
    split; [by apply Hp|done].
Qed.

Lemma pickRandomSubset_shuffleArray_spec_witness :
  let h : gmap positive (list nat) := {[ 1%positive := [10; 20; 30] ]} in
  (∃ out,
      (Arr.pickRandomSubsetAt 1%positive 2 h [1; 1]).1.2
        !! (Arr.pickRandomSubsetAt 1%positive 2 h [1; 1]).1.1 = Some out
      ∧ length out = 2 `min` length [10; 20; 30]
      ∧ out ⊆+ [10; 20; 30]
      ∧ (Arr.pickRandomSubsetAt 1%positive 2 h [1; 1]).1.2 !! 1%positive
        = Some [10; 20; 30]
      ∧ preserved h (Arr.pickRandomSubsetAt 1%positive 2 h [1; 1]).1.2)
  ∧ (∃ out,
      (Arr.shuffleArrayAt 1%positive h [1; 1]).1.2
        !! (Arr.shuffleArrayAt 1%positive h [1; 1]).1.1 = Some out
      ∧ out ≡ₚ [10; 20; 30]
      ∧ (Arr.shuffleArrayAt 1%positive h [1; 1]).1.2 !! 1%positive
        = Some [10; 20; 30]
      ∧ preserved h (Arr.shuffleArrayAt 1%positive h [1; 1]).1.2).
Proof.
  intros h.
  apply (pickRandomSubset_shuffleArray_spec h 1%positive [10; 20; 30] 2 [1; 1]).
  reflexivity.
Defined.

(** *** [filterAndTransform] *)

Lemma filterAndTransform_omap rawObs :
  App.filterAndTransform rawObs = omap App.transform rawObs.
Proof.
  unfold App.filterAndTransform.
  enough (∀ acc, foldl (λ result o,
                          match App.transform o with
                          | Some x => result ++ [x]
                          | None => result
                          end) acc rawObs
                 = acc ++ omap App.transform rawObs) as H by apply H.
  induction rawObs as [|o raw IH]; intros acc; simpl.
  - by rewrite app_nil_r.
  - rewrite IH. destruct (App.transform o); [|done].
    by rewrite <- app_assoc.
Qed.

Lemma find_none_of_Forall {X} (f : X → bool) l :
  Forall (λ x, f x = false) l → List.find f l = None.
Proof.
  induction 1 as [|x l Hx _ IH]; simpl; [done|]. by rewrite Hx.
Qed.

Lemma find_some_elem {X} (f : X → bool) l x :
  List.find f l = Some x → x ∈ l ∧ f x = true.
Proof.
  induction l as [|y l IH]; simpl; [done|].
  destruct (f y) eqn:Ey.
  - intros [= ->]. split; [left|done].
  - intros H. destruct (IH H). split; [by right|done].
Qed.

Lemma transform_excluded o :
  noPhoto o ∨ noAllowedPhoto o ∨ ownLicenseDisallowed o →
  App.transform o = None.
Proof.
  unfold noPhoto, noAllowedPhoto, ownLicenseDisallowed, App.transform.
  intros H. destruct (App.RawObs.taxon o) as [taxon|]; [|done].
  destruct (default [] (App.RawObs.photos o)) as [|p ps] eqn:Ep.
  { done. }
  case_decide; [done|].
  destruct (_ && _); [done|].
  destruct H as [H|[H|[H1 H2]]]; [done| |].
  - destruct (Js.truthy _ && _); [done|].
    by rewrite (find_none_of_Forall _ _ H).
  - by rewrite H1, H2.
Qed.

Lemma transform_kept o x :
  App.transform o = Some x →
  (∃ p, p ∈ default [] (App.RawObs.photos o)
        ∧ App.licenseIsAllowed (App.RawPhoto.license_code p) = true)
  ∧ ¬ ownLicenseDisallowed o.
Proof.
  intros Hx. split.
  - destruct (decide (noAllowedPhoto o)) as [Hn|Hn].
    { rewrite transform_excluded in Hx by auto. done. }
    unfold noAllowedPhoto in Hn. apply not_Forall_Exists in Hn; [|intros ?; apply _].
    apply Exists_exists in Hn as (p & Hp & Hl).
    exists p. split; [done|]. simpl in Hl. by destruct (App.licenseIsAllowed _).
  - intros Hd. rewrite transform_excluded in Hx by auto. done.
Qed.

(** C6.  [filterAndTransform] is a total function of the raw records.  A
    record that has no photo, or no photo with an allowed license, or a
    license of its own that is present and not allowed, is dropped in
    silence: the result is the one of the same list without the record.
    Every observation returned comes from a record that has a photo with an
    allowed license and no disallowed license of its own. *)
Theorem filterAndTransform_drops rawObs :
  (∀ before o after,
      rawObs = before ++ o :: after →
      noPhoto o ∨ noAllowedPhoto o ∨ ownLicenseDisallowed o →
      App.transform o = None
      ∧ App.filterAndTransform rawObs = App.filterAndTransform (before ++ after))
  ∧ (∀ x, x ∈ App.filterAndTransform rawObs →
      ∃ o, o ∈ rawObs ∧ App.transform o = Some x
           ∧ (∃ p, p ∈ default [] (App.RawObs.photos o)
                   ∧ App.licenseIsAllowed (App.RawPhoto.license_code p) = true)
           ∧ ¬ ownLicenseDisallowed o).
Proof.
  split.
  - intros before o after -> Hex.
    pose proof (transform_excluded o Hex) as Hnone. split; [done|].
    rewrite !filterAndTransform_omap, !omap_app. simpl. by rewrite Hnone.
  - intros x Hx. rewrite filterAndTransform_omap in Hx.
    apply list_elem_of_omap in Hx as (o & Ho & Hox).
    exists o. split_and!; [done|done|apply (transform_kept o x Hox)..].
Qed.

Lemma filterAndTransform_drops_witness :
  App.filterAndTransform [Sample.rawGood; Sample.rawNoPhoto; Sample.rawUnlicensed]
  = App.filterAndTransform ([Sample.rawGood; Sample.rawNoPhoto] ++ []).
Proof.
  refine (proj2 (proj1 (filterAndTransform_drops
            [Sample.rawGood; Sample.rawNoPhoto; Sample.rawUnlicensed])
            [Sample.rawGood; Sample.rawNoPhoto] Sample.rawUnlicensed []
            eq_refl _)).
  right. left. repeat constructor.
Defined.

(** *** The first token of a name *)

Lemma rev_app_empty s acc : String.rev_app s acc = "" ↔ s = "" ∧ acc = "".
Proof.
  revert acc. induction s as [|c s IH]; intros acc; simpl.
  - naive_solver.
  - rewrite IH. naive_solver.
Qed.

Lemma rev_empty s : String.rev s = "" ↔ s = "".
Proof. unfold String.rev. rewrite rev_app_empty. naive_solver. Qed.

(** The first token is empty exactly when nothing was read yet and the rest
    is empty or starts with the separator. *)
Lemma splitGo_head sep cur s :
  ∃ t, head (Str.splitGo sep cur s) = Some t
       ∧ (t = "" ↔ cur = "" ∧ (s = "" ∨ ∃ s', s = String.String sep s')).
Proof.
  revert cur. induction s as [|c s IH]; intros cur; simpl.
  - exists (String.rev cur). split; [done|]. rewrite rev_empty. naive_solver.
  - destruct (Ascii.eqb c sep) eqn:Ec.
    + apply Ascii.eqb_eq in Ec as ->.
      exists (String.rev cur). split; [done|]. rewrite rev_empty. naive_solver.
    + apply Ascii.eqb_neq in Ec.
      destruct (IH (String.String c cur)) as (t & Ht & Hiff).
      exists t. split; [done|]. rewrite Hiff. naive_solver.
Qed.

Lemma split_head sep s :
  ∃ t, head (Str.split sep s) = Some t
       ∧ (t = "" ↔ s = "" ∨ ∃ s', s = String.String sep s').
Proof.
  destruct (splitGo_head sep "" s) as (t & Ht & Hiff).
  exists t. split; [done|]. rewrite Hiff. naive_solver.
Qed.

Lemma eqb_false_ne (s t : string) : String.eqb s t = false → s ≠ t.
Proof. apply String.eqb_neq. Qed.

Lemma transform_shape o x :
  App.transform o = Some x →
  App.photoUrl x ≠ "" ∧ App.scientificName x ≠ ""
  ∧ App.genusName x
    = Js.orStr (head (Str.split " " (App.scientificName x))) (App.scientificName x)
  ∧ App.familyName x = None ∧ App.broadGroup x = None.
Proof.
  unfold App.transform. intros H.
  destruct (App.RawObs.taxon o) as [taxon|]; [|done].
  case_decide; [done|].
  destruct (_ && _); [done|]. destruct (_ && _); [done|].
  destruct (List.find _ _) as [photo|]; [|done].
  destruct (App.buildPhotoUrl _) as [url|]; [|done].
  destruct (String.eqb url "") eqn:Eu; [done|].
  destruct (String.eqb (Js.orStr _ "") "") eqn:Es; [done|].
  injection H as <-. simpl.
  split_and!; auto using eqb_false_ne.
Qed.

(** C9, as the code has it.  Every observation that [filterAndTransform]
    returns has a photo URL and a scientific name that are not empty, a
    genus name that is not empty, and [familyName] and [broadGroup] equal to
    [null].  The genus name is the first space-separated token of the
    scientific name when that token is not empty; the token is empty exactly
    when the name starts with a space, and the genus name is then the whole
    scientific name. *)
Theorem filterAndTransform_shape rawObs x :
  x ∈ App.filterAndTransform rawObs →
  App.photoUrl x ≠ "" ∧ App.scientificName x ≠ "" ∧ App.genusName x ≠ ""
  ∧ (∃ token,
        head (Str.split " " (App.scientificName x)) = Some token
        ∧ (token ≠ "" → App.genusName x = token)
        ∧ (token = "" → App.genusName x = App.scientificName x)
        ∧ (token = "" ↔ ∃ rest, App.scientificName x = String.String " " rest))
  ∧ App.familyName x = None ∧ App.broadGroup x = None.
Proof.
  rewrite filterAndTransform_omap. intros Hx.
  apply list_elem_of_omap in Hx as (o & _ & Hox).
  destruct (transform_shape o x Hox) as (Hurl & Hsci & Hgen & Hfam & Hbroad).
  destruct (split_head " " (App.scientificName x)) as (token & Htok & Hiff).
  rewrite Htok in Hgen. simpl in Hgen.
  split_and!; try done.
  - rewrite Hgen. destruct (String.eqb token "") eqn:Et; [done|].
    by apply eqb_false_ne.
  - exists token. split_and!; [done| | |].
    + intros Hne. apply String.eqb_neq in Hne. by rewrite Hne in Hgen.
    + intros ->. done.
    + rewrite Hiff. naive_solver.
Qed.

Lemma filterAndTransform_shape_witness :
  let x := Sample.obsOf 1 "Parus major" None None in
  App.photoUrl x ≠ "" ∧ App.scientificName x ≠ "" ∧ App.genusName x ≠ ""
  ∧ (∃ token,
        head (Str.split " " (App.scientificName x)) = Some token
        ∧ (token ≠ "" → App.genusName x = token)
        ∧ (token = "" → App.genusName x = App.scientificName x)
        ∧ (token = "" ↔ ∃ rest, App.scientificName x = String.String " " rest))
  ∧ App.familyName x = None ∧ App.broadGroup x = None.
Proof.
  intros x.
  apply (filterAndTransform_shape [Sample.rawGood; Sample.rawNoPhoto] x).
  vm_compute. left.
Defined.

(** C9 as it is written fails on a taxon name that starts with a space: the
    first token is empty and the genus name is the whole name. *)
Lemma genusName_first_token_counterexample :
  ¬ (∀ rawObs x, x ∈ App.filterAndTransform rawObs →
       head (Str.split " " (App.scientificName x)) = Some (App.genusName x)).
Proof.
  intros H.
  specialize (H [Sample.rawLeadingSpace]
                (Sample.obsOf 4 " Parus major" None None)).
  assert (Sample.obsOf 4 " Parus major" None None
          ∈ App.filterAndTransform [Sample.rawLeadingSpace]) as Hin
    by (vm_compute; left).
  specialize (H Hin). vm_compute in H. discriminate H.
Qed.

(** *** [enrichWithTaxaData] *)

Lemma requestedChunks_concat fuel i ids :
  length ids - i ≤ fuel → concat (requestedChunks fuel i ids) = drop i ids.
Proof.
  revert i. induction fuel as [|fuel IH]; intros i Hfuel; simpl.
  - rewrite drop_ge; [done|lia].
  - case_decide as Hi.
    + simpl. rewrite IH by (unfold App.chunkSize; lia).
      rewrite <- drop_drop. apply take_drop.
    + rewrite drop_ge; [done|lia].
Qed.

Lemma requestedChunks_nonempty fuel i ids :
  requestedChunks fuel i ids ≠ [] → i < length ids.
Proof. destruct fuel; simpl; [done|]. by case_decide. Qed.

Lemma requestedChunks_sizes fuel i ids :
  Forall (λ c, 0 < length c ≤ App.chunkSize) (requestedChunks fuel i ids).
Proof.
  revert i. induction fuel as [|fuel IH]; intros i; simpl; [constructor|].
  case_decide as Hi; [|constructor].
  constructor; [|apply IH].
  rewrite length_take, length_drop. unfold App.chunkSize. lia.
Qed.

Lemma requestedChunks_full fuel i ids k c :
  requestedChunks fuel i ids !! k = Some c →
  S k < length (requestedChunks fuel i ids) →
  length c = App.chunkSize.
Proof.
  revert i k. induction fuel as [|fuel IH]; intros i k; simpl; [done|].
  case_decide as Hi; [|done].
  destruct k as [|k]; simpl.
  - intros [= <-] Hlen.
    assert (i + App.chunkSize < length ids) as Hnext.
    { apply (requestedChunks_nonempty fuel). intros E. rewrite E in Hlen.
      simpl in Hlen. lia. }
    rewrite length_take, length_drop. lia.
  - intros Hk Hlen. apply (IH _ _ Hk). lia.
Qed.

Lemma enrichLoop_chunks fuel i ids fetch m :
  App.enrichLoop fuel i ids fetch m
  = foldl (λ m c, App.processChunk (fetch c) m) m (requestedChunks fuel i ids).
Proof.
  revert i m. induction fuel as [|fuel IH]; intros i m; simpl; [done|].
  case_decide; [|done]. simpl. apply IH.
Qed.

Lemma foldl_skip {X S} (step : S → X → S) (P : X → Prop)
    `{∀ x, Decision (P x)} (l : list X) (s : S) :
  (∀ s x, ¬ P x → step s x = s) →
  foldl step s l = foldl step s (filter P l).
Proof.
  intros Hskip. revert s. induction l as [|x l IH]; intros s; simpl; [done|].
  destruct (decide (P x)) as [Hx|Hx].
  - rewrite filter_cons_True by done. simpl. apply IH.
  - rewrite filter_cons_False by done. rewrite Hskip by done. apply IH.
Qed.

Lemma processChunk_failed resp m : failed resp → App.processChunk resp m = m.
Proof. by destruct resp. Qed.

Lemma recordTaxon_keys t m (P : Js.Id → Prop) :
  keysFrom m P → P (App.Taxon.id t) → keysFrom (App.recordTaxon t m) P.
Proof.
  intros Hm Ht k. unfold App.recordTaxon. simpl.
  destruct (decide (k = App.Taxon.id t)) as [->|Hk]; [done|].
  intros Hor. apply Hm.
  destruct Hor as [Hf|Hb]; [left|right].
  - destruct (App.famNameOf t) as [f|]; [|done].
    destruct (String.eqb f ""); [done|]. by rewrite lookup_insert_ne in Hf.
  - destruct (App.broadGroupOf t) as [b|]; [|done].
    destruct (String.eqb b ""); [done|]. by rewrite lookup_insert_ne in Hb.
Qed.

Lemma recordTaxa_keys taxa m (P : Js.Id → Prop) :
  keysFrom m P → (∀ t, Some t ∈ taxa → P (App.Taxon.id t)) →
  keysFrom (App.recordTaxa taxa m) P.
Proof.
  revert m. induction taxa as [|[t|] taxa IH]; intros m Hm Ht; simpl; [done| |done].
  apply IH.
  - apply recordTaxon_keys; [done|]. apply Ht. left.
  - intros t' Hin. apply Ht. by right.
Qed.

Lemma processChunk_keys resp m (P : Js.Id → Prop) :
  keysFrom m P → (∀ k, returns resp k → P k) →
  keysFrom (App.processChunk resp m) P.
Proof.
  intros Hm Hr. destruct resp as [| | |[taxa|]]; simpl; try done.
  apply recordTaxa_keys; [done|]. intros t Ht. apply Hr. simpl. eauto.
Qed.

Lemma foldl_keys fetch (chunks : list (list Z)) m (P : Js.Id → Prop) :
  keysFrom m P →
  (∀ c k, c ∈ chunks → returns (fetch c) k → P k) →
  keysFrom (foldl (λ m c, App.processChunk (fetch c) m) m chunks) P.
Proof.
  revert m. induction chunks as [|c chunks IH]; intros m Hm Hr; simpl; [done|].
  apply IH.
  - apply processChunk_keys; [done|]. intros k. apply Hr. left.
  - intros c' k Hin. apply Hr. by right.
Qed.

Lemma recordTaxon_mono t m k :
  (hasFamily m k → hasFamily (App.recordTaxon t m) k)
  ∧ (hasBroad m k → hasBroad (App.recordTaxon t m) k).
Proof.
  unfold hasFamily, hasBroad, App.recordTaxon. simpl. split; intros (v & Hv & Hne).
  - destruct (App.famNameOf t) as [f|]; [|eauto].
    destruct (String.eqb f "") eqn:Ef; [eauto|].
    apply String.eqb_neq in Ef.
    destruct (decide (App.Taxon.id t = k)) as [->|Hk].
    + exists f. by rewrite lookup_insert_eq.
    + exists v. by rewrite lookup_insert_ne.
  - destruct (App.broadGroupOf t) as [b|]; [|eauto].
    destruct (String.eqb b "") eqn:Eb; [eauto|].
    apply String.eqb_neq in Eb.
    destruct (decide (App.Taxon.id t = k)) as [->|Hk].
    + exists b. by rewrite lookup_insert_eq.
    + exists v. by rewrite lookup_insert_ne.
Qed.

Lemma recordTaxon_sets t m :
  (∀ f, App.famNameOf t = Some f → f ≠ "" →
        hasFamily (App.recordTaxon t m) (App.Taxon.id t))
  ∧ (∀ b, App.broadGroupOf t = Some b → b ≠ "" →
        hasBroad (App.recordTaxon t m) (App.Taxon.id t)).
Proof.
  unfold hasFamily, hasBroad, App.recordTaxon. simpl.
  split; intros v -> Hne; apply String.eqb_neq in Hne as Hne'; rewrite Hne';
    exists v; by rewrite lookup_insert_eq.
Qed.

Lemma recordTaxa_mono taxa m k :
  (hasFamily m k → hasFamily (App.recordTaxa taxa m) k)
  ∧ (hasBroad m k → hasBroad (App.recordTaxa taxa m) k).
Proof.
  revert m. induction taxa as [|[t|] taxa IH]; intros m; simpl; [done| |done].
  destruct (IH (App.recordTaxon t m)) as [IHf IHb].
  destruct (recordTaxon_mono t m k) as [Hf Hb]. split; auto.
Qed.

Lemma processChunk_mono resp m k :
  (hasFamily m k → hasFamily (App.processChunk resp m) k)
  ∧ (hasBroad m k → hasBroad (App.processChunk resp m) k).
Proof. destruct resp; simpl; try done. apply recordTaxa_mono. Qed.

Lemma foldl_mono fetch (chunks : list (list Z)) m k :
  (hasFamily m k →
   hasFamily (foldl (λ m c, App.processChunk (fetch c) m) m chunks) k)
  ∧ (hasBroad m k →
     hasBroad (foldl (λ m c, App.processChunk (fetch c) m) m chunks) k).
Proof.
  revert m. induction chunks as [|c chunks IH]; intros m; simpl; [done|].
  destruct (IH (App.processChunk (fetch c) m)) as [IHf IHb].
  destruct (processChunk_mono (fetch c) m k) as [Hf Hb]. split; auto.
Qed.

Lemma recordTaxa_reads pre t post m :
  Forall is_Some pre →
  (∀ f, App.famNameOf t = Some f → f ≠ "" →
        hasFamily (App.recordTaxa (pre ++ Some t :: post) m) (App.Taxon.id t))
  ∧ (∀ b, App.broadGroupOf t = Some b → b ≠ "" →
        hasBroad (App.recordTaxa (pre ++ Some t :: post) m) (App.Taxon.id t)).
Proof.
  intros Hpre. revert m. induction Hpre as [|x pre [u ->] _ IH]; intros m; simpl.
  - destruct (recordTaxon_sets t m) as [Hf Hb].
    split; intros v Hv Hne.
    + apply recordTaxa_mono. eauto.
    + apply recordTaxa_mono. eauto.
  - apply IH.
Qed.

Lemma foldl_reads fetch (chunks : list (list Z)) m c t :
  c ∈ chunks → reads (fetch c) t →
  (∀ f, App.famNameOf t = Some f → f ≠ "" →
        hasFamily (foldl (λ m c, App.processChunk (fetch c) m) m chunks)
                  (App.Taxon.id t))
  ∧ (∀ b, App.broadGroupOf t = Some b → b ≠ "" →
        hasBroad (foldl (λ m c, App.processChunk (fetch c) m) m chunks)
                 (App.Taxon.id t)).
Proof.
  intros Hin Hreads. revert m.
  induction chunks as [|c' chunks IH]; intros m; [by apply elem_of_nil in Hin|].
  apply elem_of_cons in Hin as [->|Hin]; simpl; [|by apply IH].
  unfold reads in Hreads.
  destruct (fetch c') as [| | |[taxa|]]; try done.
  destruct Hreads as (pre & post & -> & Hpre). simpl.
  destruct (recordTaxa_reads pre t post m Hpre) as [Hf Hb].
  split; intros v Hv Hne; apply foldl_mono; eauto.
Qed.

Lemma applyMaps_same m o : sameButTaxonomy o (App.applyMaps m o).
Proof. by repeat split. Qed.

Lemma sameButTaxonomy_refl o : sameButTaxonomy o o.
Proof. by repeat split. Qed.

Lemma keysFrom_empty P : keysFrom App.emptyMaps P.
Proof.
  intros k [[v Hv]|[v Hv]]; simpl in Hv; by rewrite lookup_empty in Hv.
Qed.

Lemma or_none_nonempty (v : option string) s :
  v = Some s → s ≠ "" → Js.or v None = Some s.
Proof.
  intros -> Hne. unfold Js.or. simpl.
  apply String.eqb_neq in Hne. by rewrite Hne.
Qed.

Lemma famNameOf_spec t : App.famNameOf t = familyOfTaxon t.
Proof.
  unfold App.famNameOf, familyOfTaxon, ancestorOfRank.
  case_bool_decide; [done|].
  destruct (App.Taxon.ancestors t) as [ancestors|]; simpl; [|done].
  change (App.hasRank "family")
    with (λ a, bool_decide (App.Ancestor.rank a = Some "family")).
  by destruct (List.find _ ancestors).
Qed.

Lemma broadGroupOf_spec t : App.broadGroupOf t = broadGroupOfTaxon t.
Proof.
  unfold App.broadGroupOf, broadGroupOfTaxon, ancestorOfRank.
  destruct (App.Taxon.ancestors t) as [ancestors|]; simpl; [|done].
  unfold App.hasRank.
  destruct (List.find (λ a, bool_decide (App.Ancestor.rank a = Some "class"))
                      ancestors); [done|].
  destruct (List.find (λ a, bool_decide (App.Ancestor.rank a = Some "phylum"))
                      ancestors); [done|].
  by destruct (List.find
                 (λ a, bool_decide (App.Ancestor.rank a = Some "division"))
                 ancestors).
Qed.

Lemma entriesFrom_empty Q : entriesFrom App.emptyMaps Q.
Proof. split; intros k v Hv; simpl in Hv; by rewrite lookup_empty in Hv. Qed.

Lemma recordTaxon_entries t m Q :
  entriesFrom m Q → Q t → entriesFrom (App.recordTaxon t m) Q.
Proof.
  intros [Hf Hb] Ht. unfold App.recordTaxon. split; intros k v; simpl.
  - destruct (App.famNameOf t) as [f|] eqn:E; [|apply Hf].
    destruct (String.eqb f "") eqn:Ef; [apply Hf|].
    apply String.eqb_neq in Ef.
    destruct (decide (k = App.Taxon.id t)) as [->|Hk].
    + rewrite lookup_insert_eq. intros [= <-]. by exists t.
    + rewrite lookup_insert_ne by done. apply Hf.
  - destruct (App.broadGroupOf t) as [b|] eqn:E; [|apply Hb].
    destruct (String.eqb b "") eqn:Eb; [apply Hb|].
    apply String.eqb_neq in Eb.
    destruct (decide (k = App.Taxon.id t)) as [->|Hk].
    + rewrite lookup_insert_eq. intros [= <-]. by exists t.
    + rewrite lookup_insert_ne by done. apply Hb.
Qed.

Lemma recordTaxa_entries taxa m Q :
  entriesFrom m Q → (∀ t, Some t ∈ taxa → Q t) →
  entriesFrom (App.recordTaxa taxa m) Q.
Proof.
  revert m. induction taxa as [|[t|] taxa IH]; intros m Hm Ht; simpl; [done| |done].
  apply IH.
  - apply recordTaxon_entries; [done|]. apply Ht. left.
  - intros t' Hin. apply Ht. by right.
Qed.

Lemma processChunk_entries resp m Q :
  entriesFrom m Q → (∀ t, holds resp t → Q t) →
  entriesFrom (App.processChunk resp m) Q.
Proof.
  intros Hm Hr. destruct resp as [| | |[taxa|]]; simpl; try done.
  apply recordTaxa_entries; [done|]. intros t Ht. by apply Hr.
Qed.

Lemma foldl_entries fetch (chunks : list (list Z)) m Q :
  entriesFrom m Q →
  (∀ c t, c ∈ chunks → holds (fetch c) t → Q t) →
  entriesFrom (foldl (λ m c, App.processChunk (fetch c) m) m chunks) Q.
Proof.
  revert m. induction chunks as [|c chunks IH]; intros m Hm Hr; simpl; [done|].
  apply IH.
  - apply processChunk_entries; [done|]. intros t. apply Hr. left.
  - intros c' t Hin. apply Hr. by right.
Qed.

Lemma or_none_determined (mv v : option string) :
  (∀ f, mv = Some f → v = Some f ∧ f ≠ "") →
  (∀ f, v = Some f → f ≠ "" → ∃ f', mv = Some f' ∧ f' ≠ "") →
  Js.or mv None = nonEmpty v.
Proof.
  intros Hfrom Hto. destruct mv as [f|].
  - destruct (Hfrom f eq_refl) as [-> Hne]. apply String.eqb_neq in Hne.
    unfold Js.or, nonEmpty. simpl. by rewrite Hne.
  - destruct v as [f|]; simpl; [|done].
    destruct (String.eqb f "") eqn:E; [done|]. apply String.eqb_neq in E.
    by destruct (Hto f eq_refl E) as (f' & ? & _).
Qed.

(** C7.  [enrichWithTaxaData] is a total function of the responses.  The ids
    are requested in chunks that partition them in order, each of at most 30
    ids and all but the last of exactly 30.  The two maps are what the
    chunks that did not fail recorded, in order: a chunk whose request fails,
    or whose response is not OK or not readable, changes nothing and the
    chunks after it are processed all the same.  Every observation comes
    back at its place, changed at most in [familyName] and [broadGroup];
    an observation that had both [null] and whose taxon no response holds
    has both [null] afterwards; an observation whose taxon is read from a
    response with a family name (or a broad group) has one afterwards; and
    when that taxon is the only one with its id in the responses, the
    observation has the family of the taxon (its own name when it is a
    family, else the name of its first ancestor of rank family) and its
    broad group (the name of its first ancestor of rank class, else phylum,
    else division), [null] where the taxon has none.  Ids are compared as
    the [Map] compares them: [null] and [undefined] are different keys. *)
Theorem enrichWithTaxaData_chunks (fetch : list Z → App.Response)
    (obsList : list App.Observation) :
  let ids := App.uniq (omap App.taxonNum obsList) in
  let chunks := chunksOf obsList in
  concat chunks = ids
  ∧ Forall (λ c, 0 < length c ≤ 30) chunks
  ∧ (∀ k c, chunks !! k = Some c → S k < length chunks → length c = 30)
  ∧ App.enrichLoop (length ids) 0 ids fetch App.emptyMaps
    = foldl (λ m c, App.processChunk (fetch c) m) App.emptyMaps
            (filter (λ c, ¬ failed (fetch c)) chunks)
  ∧ length (App.enrichWithTaxaData fetch obsList) = length obsList
  ∧ ∀ i o, obsList !! i = Some o →
      ∃ o', App.enrichWithTaxaData fetch obsList !! i = Some o'
        ∧ sameButTaxonomy o o'
        ∧ (App.familyName o = None → App.broadGroup o = None →
           unresolved fetch chunks o →
           App.familyName o' = None ∧ App.broadGroup o' = None)
        ∧ (∀ c t, c ∈ chunks → reads (fetch c) t →
             App.Taxon.id t = App.taxonId o →
             (∀ f, familyOfTaxon t = Some f → f ≠ "" →
                   ∃ f', App.familyName o' = Some f' ∧ f' ≠ "")
             ∧ (∀ b, broadGroupOfTaxon t = Some b → b ≠ "" →
                   ∃ b', App.broadGroup o' = Some b' ∧ b' ≠ "")
             ∧ (onlyTaxon fetch chunks t →
                App.familyName o' = nonEmpty (familyOfTaxon t)
                ∧ App.broadGroup o' = nonEmpty (broadGroupOfTaxon t))).
Proof.
  intros ids chunks.
  assert (concat chunks = ids) as Hconcat.
  { unfold chunks, chunksOf. fold ids.
    rewrite requestedChunks_concat by lia. apply drop_0. }
  split; [done|].
  split; [apply (requestedChunks_sizes (length ids) 0 ids)|].
  split; [apply (requestedChunks_full (length ids) 0 ids)|].
  assert (App.enrichLoop (length ids) 0 ids fetch App.emptyMaps
          = foldl (λ m c, App.processChunk (fetch c) m) App.emptyMaps chunks)
    as Hloop by apply enrichLoop_chunks.
  split.
  { rewrite Hloop. apply (foldl_skip _ (λ c, ¬ failed (fetch c))).
    intros m c Hc. apply processChunk_failed. by apply dec_stable. }
  unfold App.enrichWithTaxaData. fold ids.
  case_decide as Hids.
  - split; [done|]. intros i o Hi. exists o.
    split; [done|]. split; [apply sameButTaxonomy_refl|].
    split; [done|].
    intros c t Hc. exfalso.
    assert (chunks = []) as Hnil.
    { unfold chunks, chunksOf. fold ids. destruct ids; [done|]. done. }
    rewrite Hnil in Hc. by apply elem_of_nil in Hc.
  - rewrite length_fmap. split; [done|]. intros i o Hi.
    exists (App.applyMaps
              (App.enrichLoop (length ids) 0 ids fetch App.emptyMaps) o).
    split; [by rewrite list_lookup_fmap, Hi|].
    split; [apply applyMaps_same|].
    rewrite Hloop. split.
    + intros _ _ Hun.
      pose proof (foldl_keys fetch chunks App.emptyMaps
                    (λ k, ∃ c, c ∈ chunks ∧ returns (fetch c) k)
                    (keysFrom_empty _)) as Hkeys.
      assert (¬ (∃ c, c ∈ chunks ∧ returns (fetch c) (App.taxonId o))) as Hno.
      { intros (c & Hc & Hr). by apply (Hun c). }
      set (m := foldl _ _ _) in *.
      assert (App.familyMap m !! App.taxonId o = None
              ∧ App.broadGroupMap m !! App.taxonId o = None) as [Hf Hb].
      { split; apply eq_None_not_Some; intros Hs; apply Hno;
          apply Hkeys; eauto. }
      simpl. by rewrite Hf, Hb.
    + intros c t Hc Hreads Hid.
      destruct (foldl_reads fetch chunks App.emptyMaps c t Hc Hreads)
        as [Hfam Hbroad].
      rewrite Hid in Hfam, Hbroad.
      rewrite famNameOf_spec in Hfam. rewrite broadGroupOf_spec in Hbroad.
      simpl. split_and!.
      * intros v Hv Hne. destruct (Hfam v Hv Hne) as (f' & Hf' & Hne').
        exists f'. split; [by apply or_none_nonempty|done].
      * intros v Hv Hne. destruct (Hbroad v Hv Hne) as (b' & Hb' & Hne').
        exists b'. split; [by apply or_none_nonempty|done].
      * intros Honly.
        destruct (foldl_entries fetch chunks App.emptyMaps
                    (λ t', ∃ c', c' ∈ chunks ∧ holds (fetch c') t')
                    (entriesFrom_empty _)) as [Hef Heb]; [by eauto|].
        split; apply or_none_determined; try done.
        -- intros f Hf. destruct (Hef _ _ Hf) as (t' & (c' & Hc' & Hh) & Ht' & Hn & Hne).
           rewrite <- Hid in Ht'. rewrite (Honly c' t' Hc' Hh Ht') in Hn.
           by rewrite famNameOf_spec in Hn.
        -- intros b Hb. destruct (Heb _ _ Hb) as (t' & (c' & Hc' & Hh) & Ht' & Hn & Hne).
           rewrite <- Hid in Ht'. rewrite (Honly c' t' Hc' Hh Ht') in Hn.
           by rewrite broadGroupOf_spec in Hn.
Qed.

Lemma enrichWithTaxaData_chunks_witness :
  (∃ o', App.enrichWithTaxaData Sample.fetch31 Sample.obs31 !! 0 = Some o'
         ∧ App.familyName o' = None ∧ App.broadGroup o' = None)
  ∧ (∃ o', App.enrichWithTaxaData Sample.fetch31 Sample.obs31 !! 30 = Some o'
           ∧ App.familyName o' = Some "Paridae"
           ∧ App.broadGroup o' = Some "Aves").
Proof.
  destruct (enrichWithTaxaData_chunks Sample.fetch31 Sample.obs31)
    as (_ & _ & _ & _ & _ & H).
  split.
  - destruct (H 0 (Sample.obsOf 1 "Parus major" None None) eq_refl)
      as (o' & Hlookup & _ & Hnull & _).
    exists o'. split; [exact Hlookup|].
    apply Hnull; [reflexivity|reflexivity|].
    intros c _. unfold Sample.fetch31. case_decide; simpl; [tauto|].
    intros (t & Hin & Hid). apply list_elem_of_singleton in Hin.
    injection Hin as ->. discriminate Hid.
  - assert (Sample.obs31 !! 30 = Some (Sample.obsOf 31 "Parus major" None None))
      as H30 by (vm_compute; reflexivity).
    destruct (H 30 (Sample.obsOf 31 "Parus major" None None) H30)
      as (o' & Hlookup & _ & _ & Hval).
    exists o'. split; [exact Hlookup|].
    assert ([31%Z] ∈ chunksOf Sample.obs31) as Hc by (vm_compute; right; left).
    destruct (Hval [31%Z] Sample.taxon31 Hc) as (_ & _ & Honly).
    + exists [], []. split; [reflexivity|constructor].
    + reflexivity.
    + assert (onlyTaxon Sample.fetch31 (chunksOf Sample.obs31) Sample.taxon31)
        as Hone.
      { clear. intros c t' _ Hh _. unfold Sample.fetch31 in Hh.
        destruct (decide (length c = 30)); simpl in Hh; [destruct Hh|].
        apply list_elem_of_singleton in Hh. injection Hh as ->. reflexivity. }
      destruct (Honly Hone) as [Hf Hb]. rewrite Hf, Hb. split; reflexivity.
Defined.

(** The first chunk of 30 ids is rejected, the second chunk is processed:
    the observation of taxon 31 gets its family and broad group, the others
    stay without. *)
Example enrichWithTaxaData_partial :
  length <$> chunksOf Sample.obs31 = [30; 1]
  ∧ (λ o, (App.familyName o, App.broadGroup o))
      <$> App.enrichWithTaxaData Sample.fetch31 Sample.obs31
    = replicate 30 (None, None) ++ [(Some "Paridae", Some "Aves")].
Proof. split; vm_compute; reflexivity. Qed.

(** The maps tell [undefined] and [null] apart: a taxon that comes without
    id is recorded under [undefined], where the observation without taxon id
    finds it and the observation whose taxon id is [null] does not. *)
Example enrichWithTaxaData_null_undefined :
  App.familyName
    <$> App.enrichWithTaxaData (λ _, App.Ok (Some [Some Sample.taxonNoId]))
          [ Sample.obsWithTaxonId (Js.Num 1);
            Sample.obsWithTaxonId Js.Undefined;
            Sample.obsWithTaxonId Js.Null ]
  = [None; Some "Paridae"; None].
Proof. vm_compute. reflexivity. Qed.

(** *** Grouping *)

Lemma addGroup_unfold lvl groups o :
  App.addGroup lvl groups o
  = match groupLabel lvl o with
    | None => groups
    | Some l =>
        if decide (l ∈ App.label <$> groups) then groups
        else groups ++ [ {| App.label := l; App.obs := o;
                            App.grpBroadGroup := Js.or (App.broadGroup o) None |} ]
    end.
Proof.
  unfold App.addGroup, groupLabel.
  destruct (App.getGroupLabelForObs lvl o) as [l|]; [|done].
  by destruct (String.eqb l "").
Qed.

Lemma buildGroups_snoc lvl l o :
  App.buildGroups lvl (l ++ [o]) = App.addGroup lvl (App.buildGroups lvl l) o.
Proof. unfold App.buildGroups. by rewrite foldl_app. Qed.

Lemma groupLabel_nonempty lvl o l : groupLabel lvl o = Some l → l ≠ "".
Proof.
  unfold groupLabel. destruct (App.getGroupLabelForObs lvl o) as [l'|]; [|done].
  destruct (String.eqb l' "") eqn:E; [done|].
  intros [= <-]. by apply String.eqb_neq.
Qed.

Lemma buildGroups_inv lvl obsList :
  NoDup (App.label <$> App.buildGroups lvl obsList)
  ∧ (∀ g, g ∈ App.buildGroups lvl obsList →
       App.obs g ∈ obsList
       ∧ groupLabel lvl (App.obs g) = Some (App.label g)
       ∧ App.grpBroadGroup g = Js.or (App.broadGroup (App.obs g)) None)
  ∧ (∀ o l, o ∈ obsList → groupLabel lvl o = Some l →
       l ∈ App.label <$> App.buildGroups lvl obsList).
Proof.
  induction obsList as [|o obsList (IHnd & IHg & IHo)] using rev_ind.
  - split; [constructor|]. split; [by intros g Hg; apply elem_of_nil in Hg|].
    by intros o l Ho; apply elem_of_nil in Ho.
  - rewrite buildGroups_snoc, addGroup_unfold.
    destruct (groupLabel lvl o) as [l|] eqn:El.
    + case_decide as Hin.
      * split; [done|]. split.
        -- intros g Hg. destruct (IHg g Hg) as (? & ? & ?).
           split_and!; [|done|done]. apply elem_of_app. by left.
        -- intros o' l' Ho' Hl'. apply elem_of_app in Ho' as [Ho'|Ho'].
           ++ by apply (IHo o').
           ++ apply list_elem_of_singleton in Ho' as ->. congruence.
      * split.
        { rewrite fmap_app. simpl. apply NoDup_app. split; [done|].
          split; [|apply NoDup_singleton].
          intros x Hx Hx'. apply list_elem_of_singleton in Hx'. by subst. }
        split.
        -- intros g Hg. apply elem_of_app in Hg as [Hg|Hg].
           ++ destruct (IHg g Hg) as (? & ? & ?).
              split_and!; [|done|done]. apply elem_of_app. by left.
           ++ apply list_elem_of_singleton in Hg as ->. simpl.
              split_and!; [|done|done]. apply elem_of_app. right. left.
        -- intros o' l' Ho' Hl'. rewrite fmap_app. apply elem_of_app.
           apply elem_of_app in Ho' as [Ho'|Ho'].
           ++ left. by apply (IHo o').
           ++ apply list_elem_of_singleton in Ho' as ->.
              right. simpl. rewrite El in Hl'. injection Hl' as <-. left.
    + split; [done|]. split.
      * intros g Hg. destruct (IHg g Hg) as (? & ? & ?).
        split_and!; [|done|done]. apply elem_of_app. by left.
      * intros o' l' Ho' Hl'. apply elem_of_app in Ho' as [Ho'|Ho'].
        -- by apply (IHo o').
        -- apply list_elem_of_singleton in Ho' as ->. congruence.
Qed.

Lemma buildGroups_length lvl obsList :
  length (App.buildGroups lvl obsList) = groupCount lvl obsList.
Proof.
  destruct (buildGroups_inv lvl obsList) as (Hnd & Hg & Ho).
  unfold groupCount. rewrite <- (length_fmap App.label).
  apply Permutation_length, NoDup_Permutation; [done|apply NoDup_remove_dups|].
  intros l. rewrite elem_of_remove_dups, list_elem_of_omap. split.
  - intros Hl. apply list_elem_of_fmap in Hl as (g & -> & Hgin).
    destruct (Hg g Hgin) as (? & ? & ?). eauto.
  - intros (o & Hin & Hl). by apply (Ho o).
Qed.

Lemma buildGroups_filter lvl (P : App.Observation → Prop)
    `{∀ o, Decision (P o)} obsList :
  (∀ o, ¬ P o → groupLabel lvl o = None) →
  App.buildGroups lvl obsList = App.buildGroups lvl (filter P obsList).
Proof.
  intros HP. unfold App.buildGroups. apply foldl_skip.
  intros groups o Ho. rewrite addGroup_unfold. by rewrite HP.
Qed.

(** With a genus name that is not empty, the label of the code is the label
    that the claims name. *)
Lemma groupLabel_levelLabel lvl o :
  App.genusName o ≠ "" →
  groupLabel lvl o
  = if Js.truthy (levelLabel lvl o) then levelLabel lvl o else None.
Proof.
  intros Hgen. apply String.eqb_neq in Hgen.
  unfold groupLabel, levelLabel, App.getGroupLabelForObs.
  repeat case_decide.
  - unfold Js.or. simpl. by rewrite Hgen; simpl; rewrite Hgen.
  - unfold Js.or. simpl. destruct (App.familyName o) as [f|]; simpl; [|done].
    destruct (String.eqb f "") eqn:Ef; simpl; [done|]. by rewrite Ef.
  - simpl. by destruct (String.eqb (App.scientificName o) "").
Qed.

(** *** The questions of [buildQuizQuestions] *)

Lemma questions_foldl groups chosen acc r :
  foldl (λ '(questions, r') g,
           let '(q, r'') := App.buildQuestion groups g r' in
           (questions ++ [q], r''))
        (acc, r) chosen
  = (acc ++ (questionsFor groups chosen r).1, (questionsFor groups chosen r).2).
Proof.
  revert acc r. induction chosen as [|g chosen IH]; intros acc r; simpl.
  - by rewrite app_nil_r.
  - destruct (App.buildQuestion groups g r) as [q r1]. rewrite IH.
    destruct (questionsFor groups chosen r1) as [qs r2]. simpl.
    by rewrite <- app_assoc.
Qed.

Lemma buildQuizQuestions_questionsFor lvl obsList r :
  ∃ r1, (App.buildQuizQuestions lvl obsList r).1
        = (questionsFor (App.buildGroups lvl obsList)
                        (chosenGroups lvl obsList r) r1).1.
Proof.
  unfold App.buildQuizQuestions, chosenGroups.
  set (groups := App.buildGroups lvl obsList).
  case_decide as Hlen.
  - exists r. destruct groups; [|done]. done.
  - destruct (Arr.pickRandomSubset groups _ r) as [chosen r1].
    exists r1. by rewrite questions_foldl.
Qed.

Lemma questionsFor_Forall2 groups chosen r :
  Forall2 (λ g q, ∃ r', q = (App.buildQuestion groups g r').1)
          chosen (questionsFor groups chosen r).1.
Proof.
  revert r. induction chosen as [|g chosen IH]; intros r; simpl; [constructor|].
  destruct (App.buildQuestion groups g r) as [q r1] eqn:Eq.
  specialize (IH r1). destruct (questionsFor groups chosen r1) as [qs r2].
  simpl in *. constructor; [|done]. exists r. by rewrite Eq.
Qed.

Lemma buildQuestion_spec groups g r :
  App.correct (App.buildQuestion groups g r).1 = App.obs g
  ∧ App.options (App.buildQuestion groups g r).1
    ≡ₚ App.obs <$> (g :: distractorsOf groups g r).
Proof.
  unfold App.buildQuestion, distractorsOf.
  destruct (Arr.pickRandomSubset _ _ r) as [ds r1]. simpl.
  pose proof (shuffleArray_perm (g :: ds) r1) as Hp.
  destruct (Arr.shuffleArray (g :: ds) r1) as [sh r2]. simpl in *.
  split; [done|]. by rewrite Hp.
Qed.

Lemma filter_submseteq_impl {X} (P Q : X → Prop)
    `{∀ x, Decision (P x)} `{∀ x, Decision (Q x)} (l : list X) :
  (∀ x, P x → Q x) → filter P l ⊆+ filter Q l.
Proof.
  intros HPQ. induction l as [|x l IH]; [done|].
  destruct (decide (P x)) as [Hx|Hx].
  - rewrite (filter_cons_True P) by done.
    rewrite (filter_cons_True Q) by auto. by constructor.
  - rewrite (filter_cons_False P) by done.
    destruct (decide (Q x)).
    + rewrite (filter_cons_True Q) by done. by apply submseteq_cons.
    + by rewrite (filter_cons_False Q) by done.
Qed.

Lemma candidateGroups_others groups g :
  App.candidateGroups groups g ⊆+ filter (App.otherThan g) groups.
Proof.
  unfold App.candidateGroups. case_decide; [done|].
  apply filter_submseteq_impl. by intros x (Hne & _).
Qed.

Lemma distractorsOf_candidates groups g r :
  distractorsOf groups g r ⊆+ App.candidateGroups groups g
  ∧ length (distractorsOf groups g r)
    = (CONFIG.OPTIONS_PER_QUESTION - 1)
        `min` length (App.candidateGroups groups g).
Proof.
  unfold distractorsOf. split.
  - apply pickRandomSubset_submseteq.
  - apply pickRandomSubset_length.
Qed.

Lemma submseteq_fmap_NoDup {X Y} (f : X → Y) (l k : list X) :
  l ⊆+ k → NoDup (f <$> k) → NoDup (f <$> l).
Proof.
  intros Hsub Hnd.
  assert (f <$> l ⊆+ f <$> k) as Hf by by apply fmap_submseteq.
  apply submseteq_Permutation in Hf as [rest Hrest].
  rewrite Hrest in Hnd. by apply NoDup_app in Hnd as (? & _).
Qed.

(** The labels of a question's options: the correct group and its
    distractors have pairwise distinct labels. *)
Lemma options_labels_NoDup groups g r :
  NoDup (App.label <$> groups) →
  NoDup (App.label <$> (g :: distractorsOf groups g r)).
Proof.
  intros Hnd. simpl.
  destruct (distractorsOf_candidates groups g r) as [Hsub _].
  pose proof (candidateGroups_others groups g) as Hoth.
  assert (distractorsOf groups g r ⊆+ filter (App.otherThan g) groups) as Hd
    by (etrans; done).
  constructor.
  - intros Hin. apply list_elem_of_fmap in Hin as (x & Hx & Hxin).
    eapply elem_of_submseteq in Hxin; [|exact Hd].
    apply list_elem_of_filter in Hxin as [Hne _]. by apply Hne.
  - eapply submseteq_fmap_NoDup; [|exact Hnd].
    etrans; [exact Hd|]. apply sublist_submseteq, sublist_filter.
Qed.

Lemma chosenGroups_sub lvl obsList r :
  chosenGroups lvl obsList r ⊆+ App.buildGroups lvl obsList
  ∧ length (chosenGroups lvl obsList r)
    = CONFIG.QUESTIONS_COUNT `min` groupCount lvl obsList.
Proof.
  unfold chosenGroups. split.
  - apply pickRandomSubset_submseteq.
  - rewrite pickRandomSubset_length, buildGroups_length. lia.
Qed.

Lemma buildQuizQuestions_Forall2 lvl obsList r :
  Forall2 (λ g q, ∃ r', q = (App.buildQuestion (App.buildGroups lvl obsList) g r').1)
          (chosenGroups lvl obsList r) (App.buildQuizQuestions lvl obsList r).1.
Proof.
  destruct (buildQuizQuestions_questionsFor lvl obsList r) as [r1 ->].
  apply questionsFor_Forall2.
Qed.

(** Every question was built for a chosen group, which is a group. *)
Lemma question_origin lvl obsList r q :
  q ∈ (App.buildQuizQuestions lvl obsList r).1 →
  ∃ g r', g ∈ chosenGroups lvl obsList r
          ∧ g ∈ App.buildGroups lvl obsList
          ∧ q = (App.buildQuestion (App.buildGroups lvl obsList) g r').1.
Proof.
  intros Hq. apply list_elem_of_lookup in Hq as [i Hi].
  destruct (Forall2_lookup_r _ _ _ _ _ (buildQuizQuestions_Forall2 lvl obsList r) Hi)
    as (g & Hg & r' & ->).
  assert (g ∈ chosenGroups lvl obsList r) as Hin
    by (apply list_elem_of_lookup; eauto).
  exists g, r'. split; [done|]. split; [|done].
  eapply elem_of_submseteq; [exact Hin|]. apply chosenGroups_sub.
Qed.

(** C2, for [buildQuizQuestions] of [src/app.js].  For every observation
    list, level and source of draws, the number of questions is
    [min QUESTIONS_COUNT groupCount], where [groupCount] is the number of
    distinct labels at the level; the correct answers are the observations
    of groups drawn without replacement (a sub-multiset of the groups, in
    the order of the shuffle), so their labels are pairwise distinct.  The
    shuffle of the groups sends distinct outcomes of its draws to distinct
    orders, so that draws that are uniform make every order as likely as
    any other. *)
Theorem buildQuizQuestions_count (lvl : string)
    (obsList : list App.Observation) (r : Rng.t) :
  let questions := (App.buildQuizQuestions lvl obsList r).1 in
  let groups := App.buildGroups lvl obsList in
  length questions = CONFIG.QUESTIONS_COUNT `min` groupCount lvl obsList
  ∧ chosenGroups lvl obsList r ⊆+ groups
  ∧ App.correct <$> questions = App.obs <$> chosenGroups lvl obsList r
  ∧ NoDup ((λ q, groupLabel lvl (App.correct q)) <$> questions)
  ∧ (∀ r1 r2, (Arr.shuffleArray groups r1).1 = (Arr.shuffleArray groups r2).1 →
       drawn (length groups - 1) r1 = drawn (length groups - 1) r2).
Proof.
  intros questions groups.
  pose proof (buildQuizQuestions_Forall2 lvl obsList r) as HF. fold questions in HF.
  destruct (chosenGroups_sub lvl obsList r) as [Hsub Hlen].
  destruct (buildGroups_inv lvl obsList) as (Hnd & Hg & _).
  fold groups in Hsub, Hnd, Hg.
  assert (App.correct <$> questions = App.obs <$> chosenGroups lvl obsList r)
    as Hcorrect.
  { clear -HF. induction HF as [|g q gs qs (r' & ->) _ IH]; [done|].
    rewrite !fmap_cons. f_equal; [apply buildQuestion_spec|exact IH]. }
  split; [by rewrite <- (Forall2_length _ _ _ HF)|].
  split; [done|]. split; [done|]. split.
  - rewrite (list_fmap_compose App.correct (groupLabel lvl)), Hcorrect.
    rewrite <- list_fmap_compose.
    assert ((groupLabel lvl ∘ App.obs) <$> chosenGroups lvl obsList r
            = Some <$> (App.label <$> chosenGroups lvl obsList r)) as ->.
    { rewrite <- list_fmap_compose. apply list_fmap_ext.
      intros i g Hi. simpl. apply Hg.
      eapply elem_of_submseteq; [|exact Hsub].
      apply list_elem_of_lookup. eauto. }
    apply NoDup_fmap; [apply _|].
    by apply (submseteq_fmap_NoDup _ _ _ Hsub).
  - intros r1 r2 Heq. destruct groups as [|g0 groups0] eqn:Egroups; [done|].
    apply (shuffleLoop_injective _ (g0 :: groups0)); [|simpl; lia|exact Heq].
    by apply NoDup_fmap_1 in Hnd.
Qed.

Lemma truthy_Some v : Js.truthy v = true ↔ ∃ s, v = Some s ∧ s ≠ "".
Proof.
  destruct v as [s|]; simpl.
  - destruct (String.eqb s "") eqn:E; simpl.
    + apply String.eqb_eq in E. naive_solver.
    + apply String.eqb_neq in E. naive_solver.
  - naive_solver.
Qed.

Lemma groupLabel_iff lvl o l :
  App.genusName o ≠ "" →
  groupLabel lvl o = Some l ↔ levelLabel lvl o = Some l ∧ l ≠ "".
Proof.
  intros Hgen. rewrite (groupLabel_levelLabel lvl o Hgen).
  destruct (Js.truthy (levelLabel lvl o)) eqn:Et.
  - apply truthy_Some in Et as (s & Hs & Hne). rewrite Hs. naive_solver.
  - split; [done|]. intros [Hl Hne].
    assert (Js.truthy (levelLabel lvl o) = true) as Ht
      by (apply truthy_Some; eauto).
    congruence.
Qed.

Lemma groupLabel_lacks lvl o :
  App.genusName o ≠ "" → lacksLabel lvl o → groupLabel lvl o = None.
Proof.
  intros Hgen Hl. rewrite (groupLabel_levelLabel lvl o Hgen).
  unfold lacksLabel in Hl. by rewrite Hl.
Qed.

Lemma buildQuestion_options_groups groups g r o :
  o ∈ App.options (App.buildQuestion groups g r).1 →
  o = App.obs g ∨ ∃ x, x ∈ distractorsOf groups g r ∧ o = App.obs x.
Proof.
  destruct (buildQuestion_spec groups g r) as [_ Hp]. rewrite Hp.
  rewrite fmap_cons. intros Ho. apply elem_of_cons in Ho as [->|Ho]; [by left|].
  right. apply list_elem_of_fmap in Ho as (x & -> & Hx). eauto.
Qed.

Lemma distractorsOf_groups groups g r x :
  x ∈ distractorsOf groups g r → x ∈ groups ∧ App.label x ≠ App.label g.
Proof.
  intros Hx. destruct (distractorsOf_candidates groups g r) as [Hsub _].
  eapply elem_of_submseteq in Hx; [|exact Hsub].
  eapply elem_of_submseteq in Hx; [|apply candidateGroups_others].
  apply list_elem_of_filter in Hx as [Hne Hin]. done.
Qed.

Lemma groupLabel_labelOrFallback lvl o :
  groupLabel lvl o
  = if Js.truthy (labelOrFallback lvl o) then labelOrFallback lvl o else None.
Proof.
  unfold groupLabel, labelOrFallback, App.getGroupLabelForObs.
  repeat case_decide.
  - unfold Js.or. simpl.
    destruct (String.eqb (App.genusName o) "") eqn:Eg; simpl.
    + by destruct (String.eqb (App.scientificName o) "").
    + by rewrite Eg.
  - unfold Js.or. simpl. destruct (App.familyName o) as [f|]; simpl; [|done].
    destruct (String.eqb f "") eqn:Ef; simpl; [done|]. by rewrite Ef.
  - simpl. by destruct (String.eqb (App.scientificName o) "").
Qed.

Lemma groupLabel_fallback_iff lvl o l :
  groupLabel lvl o = Some l ↔ labelOrFallback lvl o = Some l ∧ l ≠ "".
Proof.
  rewrite groupLabel_labelOrFallback.
  destruct (Js.truthy (labelOrFallback lvl o)) eqn:Et.
  - apply truthy_Some in Et as (s & Hs & Hne). rewrite Hs. naive_solver.
  - split; [done|]. intros [Hl Hne].
    assert (Js.truthy (labelOrFallback lvl o) = true) as Ht
      by (apply truthy_Some; eauto).
    congruence.
Qed.

Lemma groupLabel_fallback_lacks lvl o :
  lacksLabelOrFallback lvl o → groupLabel lvl o = None.
Proof.
  intros Hl. rewrite groupLabel_labelOrFallback.
  unfold lacksLabelOrFallback in Hl. by rewrite Hl.
Qed.

Lemma buildGroups_filter_lacks lvl obsList :
  App.buildGroups lvl (filter (λ o, ¬ lacksLabelOrFallback lvl o) obsList)
  = App.buildGroups lvl obsList.
Proof.
  unfold App.buildGroups. generalize (@nil App.Group).
  induction obsList as [|o l IH]; intros acc; [done|].
  destruct (decide (lacksLabelOrFallback lvl o)) as [Hlack|Hlack].
  - rewrite filter_cons_False by auto. simpl.
    rewrite addGroup_unfold, groupLabel_fallback_lacks by done. apply IH.
  - rewrite filter_cons_True by done. simpl. apply IH.
Qed.

(** C5.  The groups of a level are keyed by the label of the level: the
    scientific name for species, the family name for family, and for genus
    the genus name, or the scientific name when the genus name is empty.
    No two groups have the same label, every group carries an observation
    of the list with that label, every label that occurs has its group, and
    an observation that lacks the label (it is [null] or empty) is dropped:
    it is the observation of no group, the questions are those of the list
    without it, and it is neither the correct answer nor an option of any
    question.  The label is the one of the level as such whenever the genus
    name is not empty, and at every level other than genus. *)
Theorem grouping_by_level_label (lvl : string)
    (obsList : list App.Observation) :
  let groups := App.buildGroups lvl obsList in
  NoDup (App.label <$> groups)
  ∧ (∀ g, g ∈ groups →
       App.obs g ∈ obsList
       ∧ labelOrFallback lvl (App.obs g) = Some (App.label g)
       ∧ App.label g ≠ "")
  ∧ (∀ o l, o ∈ obsList → labelOrFallback lvl o = Some l → l ≠ "" →
       l ∈ App.label <$> groups)
  ∧ (∀ o, o ∈ obsList → lacksLabelOrFallback lvl o → o ∉ App.obs <$> groups)
  ∧ (∀ r, App.buildQuizQuestions lvl obsList r
          = App.buildQuizQuestions lvl
              (filter (λ o, ¬ lacksLabelOrFallback lvl o) obsList) r)
  ∧ (∀ r q o, q ∈ (App.buildQuizQuestions lvl obsList r).1 →
       lacksLabelOrFallback lvl o → App.correct q ≠ o ∧ o ∉ App.options q)
  ∧ (∀ o, App.genusName o ≠ "" ∨ lvl ≠ "genus" →
          labelOrFallback lvl o = levelLabel lvl o
          ∧ (lacksLabelOrFallback lvl o ↔ lacksLabel lvl o)).
Proof.
  intros groups.
  destruct (buildGroups_inv lvl obsList) as (Hnd & Hg & Ho). fold groups in Hnd, Hg, Ho.
  assert (∀ g, g ∈ groups →
            App.obs g ∈ obsList
            ∧ labelOrFallback lvl (App.obs g) = Some (App.label g)
            ∧ App.label g ≠ "") as Hkey.
  { intros g Hgin. destruct (Hg g Hgin) as (Hin & Hl & _).
    split; [done|]. by apply groupLabel_fallback_iff in Hl. }
  assert (∀ g o, g ∈ groups → lacksLabelOrFallback lvl o → App.obs g ≠ o)
    as Hdrop.
  { intros g o Hgin Hlack <-. destruct (Hkey g Hgin) as (_ & Hl & Hne).
    unfold lacksLabelOrFallback in Hlack. rewrite Hl in Hlack. simpl in Hlack.
    apply String.eqb_neq in Hne. by rewrite Hne in Hlack. }
  split; [done|]. split; [done|]. split.
  { intros o l Hin Hl Hne. apply (Ho o); [done|].
    by apply groupLabel_fallback_iff. }
  split.
  { intros o Hin Hlack Hobs. apply list_elem_of_fmap in Hobs as (g & Heq & Hgin).
    by apply (Hdrop g o). }
  split.
  { intros r. unfold App.buildQuizQuestions.
    assert (App.buildGroups lvl
              (filter (λ o, ¬ lacksLabelOrFallback lvl o) obsList)
            = groups) as Hsame.
    { apply buildGroups_filter_lacks. }
    by rewrite Hsame. }
  split.
  { intros r q o Hq Hlack.
    destruct (question_origin lvl obsList r q Hq) as (g & r' & _ & Hgin & ->).
    fold groups in Hgin |- *.
    destruct (buildQuestion_spec groups g r') as [Hc _].
    split; [rewrite Hc; by apply Hdrop|].
    intros Hopt. apply buildQuestion_options_groups in Hopt as [->|(x & Hx & ->)].
    - by apply (Hdrop g (App.obs g)).
    - apply distractorsOf_groups in Hx as [Hx _]. by apply (Hdrop x (App.obs x)). }
  intros o Hor.
  assert (labelOrFallback lvl o = levelLabel lvl o) as Heq.
  { unfold labelOrFallback, levelLabel. case_decide as Hlvl; [|done].
    destruct Hor as [Hgen|Hne]; [|done].
    apply String.eqb_neq in Hgen. by rewrite Hgen. }
  split; [done|]. unfold lacksLabelOrFallback, lacksLabel. by rewrite Heq.
Qed.

Lemma grouping_by_level_label_witness :
  Sample.noFamily
  ∉ App.obs <$> App.buildGroups "family" (Sample.quizObs ++ [Sample.noFamily]).
Proof.
  refine (proj1 (proj2 (proj2 (proj2
            (grouping_by_level_label "family"
               (Sample.quizObs ++ [Sample.noFamily]))))) _ _ _).
  - apply elem_of_app. right. left.
  - reflexivity.
Defined.

(** At the genus level an observation whose genus name is empty is not
    dropped: it is grouped under its scientific name and is the correct
    answer of a question. *)
Example genus_label_fallback_counterexample :
  lacksLabel "genus" Sample.emptyGenus
  ∧ App.label <$> App.buildGroups "genus" [Sample.emptyGenus] = ["Parus major"]
  ∧ Sample.emptyGenus ∈ App.obs <$> App.buildGroups "genus" [Sample.emptyGenus]
  ∧ (App.correct <$> (App.buildQuizQuestions "genus" [Sample.emptyGenus] []).1)
    = [Sample.emptyGenus].
Proof.
  split; [reflexivity|]. split; [reflexivity|]. split; [|reflexivity].
  vm_compute. left.
Qed.

Lemma pipeline_genusName fetch rawObs :
  Forall (λ o, App.genusName o ≠ "")
         (App.enrichWithTaxaData fetch (App.filterAndTransform rawObs)).
Proof.
  assert (Forall (λ o, App.genusName o ≠ "") (App.filterAndTransform rawObs))
    as Hraw.
  { rewrite filterAndTransform_omap. apply Forall_forall. intros x Hx.
    apply list_elem_of_omap in Hx as (o & _ & Hox).
    destruct (transform_shape o x Hox) as (_ & Hsci & Hgen & _).
    rewrite Hgen.
    destruct (head (Str.split " " (App.scientificName x))) as [t|]; simpl; [|done].
    destruct (String.eqb t "") eqn:Et; [done|]. by apply String.eqb_neq. }
  unfold App.enrichWithTaxaData. case_decide; [done|].
  apply Forall_fmap. eapply Forall_impl; [exact Hraw|]. by intros o.
Qed.

Lemma Forall2_lookup_both {X Y} (P : X → Y → Prop) l k i x :
  Forall2 P l k → l !! i = Some x → ∃ y, k !! i = Some y ∧ P x y.
Proof. intros HF Hx. by apply (Forall2_lookup_l P l k i x). Qed.

Lemma app_distractors_fallback (lvl : string)
    (obsList : list App.Observation) (r : Rng.t) (i : nat) (g : App.Group) :
  let groups := App.buildGroups lvl obsList in
  chosenGroups lvl obsList r !! i = Some g →
  ∃ q, (App.buildQuizQuestions lvl obsList r).1 !! i = Some q
       ∧ App.correct q = App.obs g
       ∧ (length (filter (App.sameBroadAs g) groups)
            < CONFIG.OPTIONS_PER_QUESTION - 1 →
          ∃ r', App.options q
                ≡ₚ App.obs <$>
                     (g :: (Arr.pickRandomSubset
                              (filter (App.otherThan g) groups)
                              (CONFIG.OPTIONS_PER_QUESTION - 1) r').1)).
Proof.
  intros groups Hg.
  destruct (Forall2_lookup_both _ _ _ _ _
              (buildQuizQuestions_Forall2 lvl obsList r) Hg)
    as (q & Hq & r' & ->).
  exists (App.buildQuestion (App.buildGroups lvl obsList) g r').1.
  fold groups. split; [done|].
  destruct (buildQuestion_spec groups g r') as [Hc Hp].
  split; [done|]. intros Hfew. exists r'. rewrite Hp.
  unfold distractorsOf, App.candidateGroups.
  by rewrite decide_True by done.
Qed.

Lemma hybrid_step_skips lvl ext (groups : list Hybrid.Group) questions r g :
  lvl ≠ "genus" →
  length (filter (λ x, Hybrid.label x ≠ Hybrid.label g
                       ∧ Hybrid.grpBroadGroup x = Hybrid.grpBroadGroup g)
                 groups) < Hybrid.neededDistractors →
  Hybrid.step lvl ext groups (questions, r) g = (questions, r).
Proof.
  intros Hlvl Hfew. unfold Hybrid.step.
  case_decide; [done|]. destruct (negb _); [done|].
  rewrite decide_False by done. unfold Hybrid.projectQuestion.
  by rewrite decide_True by done.
Qed.

(** C3, as the code has it.  In [buildQuizQuestions] of [src/app.js] every
    chosen group gets its question, at the same position; when fewer than
    [OPTIONS_PER_QUESTION - 1] other groups share the broad group of the
    chosen group, the options are, up to their order, the group itself and
    a random subset of all the groups with another label, whatever their
    broad group.  In [buildQuizQuestions] of the hybrid variant, at the
    species and family levels, such a group is passed over: the turn of the
    loop adds no question and uses no draw. *)
Theorem distractors_fallback :
  (∀ (lvl : string) (obsList : list App.Observation) (r : Rng.t)
     (i : nat) (g : App.Group),
      chosenGroups lvl obsList r !! i = Some g →
      ∃ q, (App.buildQuizQuestions lvl obsList r).1 !! i = Some q
           ∧ App.correct q = App.obs g
           ∧ (length (filter (App.sameBroadAs g) (App.buildGroups lvl obsList))
                < CONFIG.OPTIONS_PER_QUESTION - 1 →
              ∃ r', App.options q
                    ≡ₚ App.obs <$>
                         (g :: (Arr.pickRandomSubset
                                  (filter (App.otherThan g)
                                          (App.buildGroups lvl obsList))
                                  (CONFIG.OPTIONS_PER_QUESTION - 1) r').1)))
  ∧ (∀ (lvl : string) (ext : gmap string (list Hybrid.VocabEntry))
       (groups : list Hybrid.Group) (questions : list Hybrid.Question)
       (r : Rng.t) (g : Hybrid.Group),
      lvl ≠ "genus" →
      length (filter (λ x, Hybrid.label x ≠ Hybrid.label g
                           ∧ Hybrid.grpBroadGroup x = Hybrid.grpBroadGroup g)
                     groups) < CONFIG.OPTIONS_PER_QUESTION - 1 →
      Hybrid.step lvl ext groups (questions, r) g = (questions, r)).
Proof.
  split.
  - intros lvl obsList r i g. apply app_distractors_fallback.
  - intros lvl ext groups questions r g. apply hybrid_step_skips.
Qed.

Lemma distractors_fallback_witness :
  ∃ q, (App.buildQuizQuestions "species" Sample.quizObs []).1 !! 5 = Some q
       ∧ App.correct q = Sample.bird 6 "Parus major" "Paridae"
       ∧ ∃ r', App.options q
               ≡ₚ App.obs <$>
                    ({| App.label := "Parus major";
                        App.obs := Sample.bird 6 "Parus major" "Paridae";
                        App.grpBroadGroup := Some "Aves" |}
                     :: (Arr.pickRandomSubset
                           (filter (App.otherThan
                                      {| App.label := "Parus major";
                                         App.obs := Sample.bird 6 "Parus major" "Paridae";
                                         App.grpBroadGroup := Some "Aves" |})
                                   (App.buildGroups "species" Sample.quizObs))
                           3 r').1).
Proof.
  destruct (proj1 distractors_fallback "species" Sample.quizObs [] 5
              {| App.label := "Parus major";
                 App.obs := Sample.bird 6 "Parus major" "Paridae";
                 App.grpBroadGroup := Some "Aves" |} eq_refl)
    as (q & Hq & Hc & Hfew).
  exists q. split; [exact Hq|]. split; [exact Hc|].
  apply Hfew. vm_compute. lia.
Defined.

Lemma filter_other_id (l : list App.Group) (g : App.Group) :
  App.label g ∉ App.label <$> l → filter (App.otherThan g) l = l.
Proof.
  induction l as [|y l IH]; intros Ha; [done|].
  rewrite fmap_cons in Ha. apply not_elem_of_cons in Ha as [Hy Ha].
  rewrite filter_cons_True by (intros Heq; by apply Hy).
  by rewrite IH.
Qed.

(** Removing the one group with the label of [g] from groups with pairwise
    distinct labels. *)
Lemma filter_other_length (l : list App.Group) (g : App.Group) :
  NoDup (App.label <$> l) →
  length l ≤ S (length (filter (App.otherThan g) l))
  ∧ (App.label g ∈ App.label <$> l →
     length l = S (length (filter (App.otherThan g) l))).
Proof.
  induction l as [|x l IH]; intros Hnd.
  { split; [simpl; lia|]. intros Hin. by apply elem_of_nil in Hin. }
  rewrite fmap_cons in Hnd. apply NoDup_cons in Hnd as [Hx Hnd].
  destruct (IH Hnd) as [IHle IHeq].
  destruct (decide (App.label x = App.label g)) as [Heq|Hne].
  - rewrite filter_cons_False by (intros Hn; by apply Hn).
    rewrite Heq in Hx. rewrite (filter_other_id l g) by done.
    split; [simpl; lia|done].
  - rewrite filter_cons_True by done. split; [simpl; lia|].
    rewrite fmap_cons. intros Hin.
    apply elem_of_cons in Hin as [Heq|Hin]; [done|].
    simpl. by rewrite IHeq.
Qed.

Lemma or_none_inv a b : Js.or a None = Some b → a = Some b.
Proof. unfold Js.or. by destruct (Js.truthy a). Qed.

(** C4.  If at least four groups of the level have the broad group [b] of
    the correct answer, every option of the question, the distractors among
    them, has the broad group [b]. *)
Theorem distractors_same_broad_group (lvl : string)
    (obsList : list App.Observation) (r : Rng.t) (q : App.Question)
    (b : string) :
  q ∈ (App.buildQuizQuestions lvl obsList r).1 →
  App.broadGroup (App.correct q) = Some b → b ≠ "" →
  4 ≤ length (filter (λ g, App.grpBroadGroup g = Some b)
                     (App.buildGroups lvl obsList)) →
  ∀ o, o ∈ App.options q → App.broadGroup o = Some b.
Proof.
  intros Hq Hb Hne Hfour o Ho.
  destruct (question_origin lvl obsList r q Hq) as (g & r' & _ & Hgin & ->).
  set (groups := App.buildGroups lvl obsList) in *.
  destruct (buildGroups_inv lvl obsList) as (Hnd & Hg & _). fold groups in Hnd, Hg.
  destruct (buildQuestion_spec groups g r') as [Hc _]. rewrite Hc in Hb.
  assert (App.grpBroadGroup g = Some b) as Hgb.
  { destruct (Hg g Hgin) as (_ & _ & ->). rewrite Hb. by apply or_none_nonempty. }
  assert (filter (App.sameBroadAs g) groups
          = filter (App.otherThan g)
                   (filter (λ x, App.grpBroadGroup x = Some b) groups)) as Hsame.
  { rewrite list_filter_filter. apply list_filter_iff. intros x.
    unfold App.sameBroadAs, App.otherThan. rewrite Hgb. simpl.
    apply String.eqb_neq in Hne. rewrite Hne. simpl. naive_solver. }
  assert (App.candidateGroups groups g = filter (App.sameBroadAs g) groups)
    as Hcand.
  { unfold App.candidateGroups. rewrite decide_False; [done|].
    rewrite Hsame.
    pose proof (filter_other_length
                  (filter (λ x, App.grpBroadGroup x = Some b) groups)
                  g) as [Hle _].
    { eapply submseteq_fmap_NoDup; [|exact Hnd].
      apply sublist_submseteq, sublist_filter. }
    unfold CONFIG.OPTIONS_PER_QUESTION. lia. }
  apply buildQuestion_options_groups in Ho as [->|(x & Hx & ->)]; [done|].
  destruct (distractorsOf_candidates groups g r') as [Hsub _].
  eapply elem_of_submseteq in Hx; [|exact Hsub]. rewrite Hcand in Hx.
  apply list_elem_of_filter in Hx as [(_ & _ & Hxb) Hxin].
  destruct (Hg x Hxin) as (_ & _ & Hx').
  rewrite Hxb, Hgb in Hx'. symmetry in Hx'. by apply or_none_inv.
Qed.

Lemma distractors_same_broad_group_witness :
  Forall (λ o, App.broadGroup o = Some "Insecta")
         [ Sample.insect 3 "Vespula vulgaris" "Vespidae";
           Sample.insect 4 "Pieris napi" "Pieridae";
           Sample.insect 5 "Aglais io" "Nymphalidae";
           Sample.insect 1 "Apis mellifera" "Apidae" ].
Proof.
  apply Forall_forall.
  apply (distractors_same_broad_group "species" Sample.quizObs []
           {| App.correct := Sample.insect 1 "Apis mellifera" "Apidae";
              App.options :=
                [ Sample.insect 3 "Vespula vulgaris" "Vespidae";
                  Sample.insect 4 "Pieris napi" "Pieridae";
                  Sample.insect 5 "Aglais io" "Nymphalidae";
                  Sample.insect 1 "Apis mellifera" "Apidae" ] |}
           "Insecta").
  - vm_compute. left.
  - reflexivity.
  - discriminate.
  - vm_compute. lia.
Defined.

(** What holds of every question of [buildQuizQuestions]: the number of
    options is [OPTIONS_PER_QUESTION] only when there are that many groups;
    the labels of the options are pairwise distinct, and the label of the
    correct answer is among them (so exactly once). *)
Lemma question_options_shape lvl obsList r q :
  q ∈ (App.buildQuizQuestions lvl obsList r).1 →
  length (App.options q)
  = CONFIG.OPTIONS_PER_QUESTION `min` groupCount lvl obsList
  ∧ NoDup (groupLabel lvl <$> App.options q)
  ∧ groupLabel lvl (App.correct q) ∈ groupLabel lvl <$> App.options q.
Proof.
  intros Hq.
  destruct (question_origin lvl obsList r q Hq) as (g & r' & _ & Hgin & ->).
  rewrite <- buildGroups_length.
  set (groups := App.buildGroups lvl obsList) in *.
  destruct (buildGroups_inv lvl obsList) as (Hnd & Hg & _). fold groups in Hnd, Hg.
  destruct (buildQuestion_spec groups g r') as [Hc Hp].
  destruct (distractorsOf_candidates groups g r') as [Hsub Hlen].
  assert (groupLabel lvl <$> (App.obs <$> (g :: distractorsOf groups g r'))
          = Some <$> (App.label <$> (g :: distractorsOf groups g r'))) as Hlabels.
  { rewrite <- !list_fmap_compose. apply list_fmap_ext. intros i x Hx. simpl.
    apply Hg. apply list_elem_of_lookup_2 in Hx.
    apply elem_of_cons in Hx as [->|Hx]; [done|].
    by apply distractorsOf_groups in Hx as [? _]. }
  split; [|split].
  - rewrite Hp, length_fmap, length_cons, Hlen.
    destruct (filter_other_length groups g Hnd) as [_ Hone].
    assert (length groups = S (length (filter (App.otherThan g) groups)))
      as Hgroups by (apply Hone, list_elem_of_fmap; eauto).
    unfold App.candidateGroups. case_decide as Hfew.
    + unfold CONFIG.OPTIONS_PER_QUESTION in *. lia.
    + pose proof (submseteq_length _ _
                    (filter_submseteq_impl (App.sameBroadAs g) (App.otherThan g)
                       groups (λ x H, proj1 H))) as Hle.
      unfold CONFIG.OPTIONS_PER_QUESTION in *. lia.
  - rewrite Hp, Hlabels. apply NoDup_fmap; [apply _|].
    by apply options_labels_NoDup.
  - rewrite Hp, Hc. apply list_elem_of_fmap. exists (App.obs g).
    split; [done|]. rewrite fmap_cons. left.
Qed.

(** C1 at a list with one species.  The only question has one option, the
    correct answer: nothing in [buildQuizQuestions] looks at the number of
    groups before it builds a question. *)
Theorem one_group_one_option (r : Rng.t) :
  (App.buildQuizQuestions "species" [Sample.bird 6 "Parus major" "Paridae"] r).1
  = [ {| App.correct := Sample.bird 6 "Parus major" "Paridae";
         App.options := [Sample.bird 6 "Parus major" "Paridae"] |} ].
Proof. reflexivity. Qed.

(** With three species every question has three options. *)
Example three_groups_three_options r q :
  q ∈ (App.buildQuizQuestions "species"
         [ Sample.bird 6 "Parus major" "Paridae";
           Sample.bird 7 "Pica pica" "Corvidae";
           Sample.bird 8 "Corvus corax" "Corvidae" ] r).1 →
  length (App.options q) = 3.
Proof.
  intros Hq. by destruct (question_options_shape _ _ _ _ Hq) as [-> _].
Qed.

(** *** The vocabulary builders *)

Lemma sampleLoop_terminates {Q} (attempt : Rng.t → option Q * Rng.t)
    fuel (questions : list Q) attempts r :
  Vocab.MAX_ATTEMPTS - attempts ≤ fuel →
  attempts ≤ Vocab.MAX_ATTEMPTS →
  length questions ≤ CONFIG.QUESTIONS_COUNT →
  ∃ qs n r', Vocab.sampleLoop attempt fuel questions attempts r = Some (qs, n, r')
             ∧ n ≤ Vocab.MAX_ATTEMPTS
             ∧ length qs ≤ CONFIG.QUESTIONS_COUNT.
Proof.
  revert questions attempts r.
  induction fuel as [|fuel IH]; intros questions attempts r Hfuel Hatt Hlen.
  - simpl.
    destruct (length questions <? CONFIG.QUESTIONS_COUNT) eqn:Eq; simpl;
      [|by eauto 6].
    destruct (attempts <? Vocab.MAX_ATTEMPTS) eqn:Ea; simpl; [|by eauto 6].
    apply Nat.ltb_lt in Ea. lia.
  - simpl.
    destruct (length questions <? CONFIG.QUESTIONS_COUNT) eqn:Eq; simpl;
      [|by eauto 6].
    destruct (attempts <? Vocab.MAX_ATTEMPTS) eqn:Ea; simpl; [|by eauto 6].
    apply Nat.ltb_lt in Eq, Ea.
    destruct (attempt r) as [q r1]. apply IH; [lia|lia|].
    destruct q; [rewrite length_app; simpl; lia|lia].
Qed.

Lemma build_terminates {E Q} (groups : Vocab.vocab E)
    (attempt : Vocab.vocab E → Rng.t → option Q * Rng.t) fuel r :
  Vocab.MAX_ATTEMPTS ≤ fuel →
  ∃ qs n r', Vocab.build groups attempt fuel r = Some (qs, n, r')
             ∧ n ≤ Vocab.MAX_ATTEMPTS
             ∧ length qs ≤ CONFIG.QUESTIONS_COUNT.
Proof.
  intros Hfuel. unfold Vocab.build. case_decide.
  - exists [], 0, r. split; [done|]. split; [lia|simpl; lia].
  - apply sampleLoop_terminates; [lia|lia|simpl; lia].
Qed.

(** C10.  Each of the three vocabulary builders comes to an end: with fuel
    for [MAX_ATTEMPTS = 200] turns the loop of the model returns, after at
    most 200 turns, with at most [QUESTIONS_COUNT] questions.  A builder may
    return fewer: a vocabulary of twelve distinct species, genera and
    families in groups of three gives no question at any level. *)
Theorem vocab_builders_bounded (fuel : nat) (r : Rng.t) :
  Vocab.MAX_ATTEMPTS ≤ fuel →
  (∀ vocabByGroup, ∃ qs n r',
      Vocab.buildSpeciesQuizQuestionsFromVocab vocabByGroup fuel r
      = Some (qs, n, r')
      ∧ n ≤ 200 ∧ length qs ≤ CONFIG.QUESTIONS_COUNT)
  ∧ (∀ genusVocabByGroup, ∃ qs n r',
      Vocab.buildGenusQuizQuestionsFromVocab genusVocabByGroup fuel r
      = Some (qs, n, r')
      ∧ n ≤ 200 ∧ length qs ≤ CONFIG.QUESTIONS_COUNT)
  ∧ (∀ familyVocabByGroup, ∃ qs n r',
      Vocab.buildFamilyQuizQuestionsFromVocab familyVocabByGroup fuel r
      = Some (qs, n, r')
      ∧ n ≤ 200 ∧ length qs ≤ CONFIG.QUESTIONS_COUNT)
  ∧ (Vocab.buildSpeciesQuizQuestionsFromVocab Sample.smallGroups fuel r
     = Some ([], 0, r)
     ∧ Vocab.buildGenusQuizQuestionsFromVocab
         (Vocab.buildGenusVocabFromSpecies Sample.smallGroups) fuel r
       = Some ([], 0, r)
     ∧ Vocab.buildFamilyQuizQuestionsFromVocab
         (Vocab.buildFamilyVocabFromSpecies Sample.smallGroups) fuel r
       = Some ([], 0, r)).
Proof.
  intros Hfuel. split_and!; try (intros v; by apply build_terminates).
  all: reflexivity.
Qed.

Lemma vocab_builders_bounded_witness :
  ∃ qs n r',
    Vocab.buildSpeciesQuizQuestionsFromVocab Sample.birdVocab 200 [3; 1; 4; 1; 5]
    = Some (qs, n, r')
    ∧ n ≤ 200 ∧ length qs ≤ CONFIG.QUESTIONS_COUNT.
Proof.
  apply (proj1 (vocab_builders_bounded 200 [3; 1; 4; 1; 5] (le_n 200))).
Defined.

(** The loop can also use up its 200 attempts: when the first group holds
    one taxon four times, every attempt in that group finds no distractors,
    and with draws that always choose it no question is built, although the
    second group has ten species. *)
Example species_attempts_exhausted :
  Vocab.buildSpeciesQuizQuestionsFromVocab Sample.repeatedFirst 200 []
  = Some ([], 200, []).
Proof. vm_compute. reflexivity. Qed.

(** The fuel of the model is not what stops the loop: less fuel than
    attempts gives no result. *)
Example species_fuel_too_small :
  Vocab.buildSpeciesQuizQuestionsFromVocab Sample.repeatedFirst 5 [] = None.
Proof. vm_compute. reflexivity. Qed.

(** C2 as it is written fails on the vocabulary builder: from a vocabulary
    of four species it returns ten questions, not [min 10 4], and with draws
    that always choose the first entry all ten have the same correct
    answer. *)
Lemma vocab_repeats_counterexample :
  ∃ qs n r',
    Vocab.buildSpeciesQuizQuestionsFromVocab Sample.birdVocab 200 []
    = Some (qs, n, r')
    ∧ length qs = 10
    ∧ length qs ≠ CONFIG.QUESTIONS_COUNT `min` 4
    ∧ (λ q, Vocab.answerKey (Vocab.correct q)) <$> qs = replicate 10 "1"
    ∧ ¬ NoDup ((λ q, Vocab.answerKey (Vocab.correct q)) <$> qs).
Proof.
  eexists _, _, _. split; [vm_compute; reflexivity|].
  split; [reflexivity|]. split; [vm_compute; lia|]. split; [reflexivity|].
  intros Hnd. apply NoDup_cons in Hnd as [Hnot _]. apply Hnot. left.
Qed.

(** C3 as it is written fails on the hybrid [buildQuizQuestions]: with one
    bird and four insects, the bird has no other group of its broad group,
    four other groups exist, and no question is built for the bird. *)
Lemma hybrid_skips_group_counterexample :
  Hybrid.label <$> Hybrid.buildGroups "species" Sample.hybridQuizObs
  = ["Parus major"; "Apis mellifera"; "Bombus terrestris";
     "Vespula vulgaris"; "Pieris napi"]
  ∧ (λ q, Hybrid.scientificName (Hybrid.correct q))
      <$> (Hybrid.buildQuizQuestions "species" ∅ Sample.hybridQuizObs []).1
    = ["Apis mellifera"; "Bombus terrestris"; "Vespula vulgaris"; "Pieris napi"]
  ∧ ¬ (∀ g, g ∈ Hybrid.buildGroups "species" Sample.hybridQuizObs →
         ∃ q, q ∈ (Hybrid.buildQuizQuestions "species" ∅
                     Sample.hybridQuizObs []).1
              ∧ Hybrid.correct q = Hybrid.obs g).
Proof.
  split; [reflexivity|]. split; [vm_compute; reflexivity|].
  intros H.
  destruct (H {| Hybrid.label := "Parus major";
                 Hybrid.obs := Sample.hybridObs 6 "Parus major" "Aves" "birds";
                 Hybrid.grpBroadGroup := Some "Aves";
                 Hybrid.grpDidacticGroup := Some "birds" |})
    as (q & Hq & Hc).
  { vm_compute. left. }
  assert (Hybrid.scientificName (Hybrid.correct q)
          ∈ (λ q, Hybrid.scientificName (Hybrid.correct q))
              <$> (Hybrid.buildQuizQuestions "species" ∅
                     Sample.hybridQuizObs []).1) as Hin
    by (apply list_elem_of_fmap; eauto).
  rewrite Hc in Hin. vm_compute in Hin.
  repeat (apply elem_of_cons in Hin as [Hin|Hin]; [discriminate Hin|]).
  by apply elem_of_nil in Hin.
Qed.

(** The vocabulary of twelve species is one that [loadVocab] keeps as it is:
    every entry has an example observation with a photo and an id, and the
    twelve taxa are distinct. *)
Example smallGroups_loadable :
  Forall (λ kl : string * list Vocab.SpeciesEntry,
            Forall (λ e, Vocab.hasExample e = true) kl.2) Sample.smallGroups
  ∧ NoDup (Vocab.taxonId <$> concat (snd <$> Sample.smallGroups))
  ∧ length (concat (snd <$> Sample.smallGroups)) = 12.
Proof.
  split; [repeat constructor|]. split; [|reflexivity].
  apply (bool_decide_unpack _). vm_compute. exact I.
Qed.

(** ** Further properties of the code *)

(** *** Strings *)

Lemma prefix_append pat b : String.prefix pat (pat +:+ b) = true.
Proof.
  induction pat as [|c pat IH]; simpl; [by destruct b|].
  destruct (Ascii.ascii_dec c c); [done|congruence].
Qed.

Lemma substring_whole b n :
  String.length b ≤ n → String.substring 0 n b = b.
Proof.
  revert n. induction b as [|c b IH]; intros n Hn; simpl.
  - by destruct n.
  - destruct n as [|n]; simpl in *; [lia|]. rewrite IH by lia. done.
Qed.

Lemma substring_append a b n :
  String.substring (String.length a) n (a +:+ b) = String.substring 0 n b.
Proof. induction a as [|c a IH]; simpl; [done|]. apply IH. Qed.

Lemma length_append a b :
  String.length (a +:+ b) = String.length a + String.length b.
Proof. induction a as [|c a IH]; simpl; [done|]. by rewrite IH. Qed.

Lemma replace_unfold pat rep s :
  Str.replace pat rep s
  = if String.prefix pat s then
      rep +:+ String.substring (String.length pat) (String.length s) s
    else
      match s with
      | String.EmptyString => String.EmptyString
      | String.String c s' => String.String c (Str.replace pat rep s')
      end.
Proof. by destruct s. Qed.

Lemma replace_here pat rep b : Str.replace pat rep (pat +:+ b) = rep +:+ b.
Proof.
  rewrite replace_unfold, prefix_append, substring_append.
  rewrite substring_whole; [done|]. rewrite length_append. lia.
Qed.

Lemma replace_skip pat rep c s :
  String.prefix pat (String.String c s) = false →
  Str.replace pat rep (String.String c s)
  = String.String c (Str.replace pat rep s).
Proof. intros Hp. by rewrite replace_unfold, Hp. Qed.

Lemma replace_nonempty pat rep s : rep ≠ "" → s ≠ "" → Str.replace pat rep s ≠ "".
Proof.
  intros Hrep Hs. destruct s as [|c s]; [done|]. rewrite replace_unfold.
  destruct (String.prefix pat (String.String c s)); [|done].
  by destruct rep.
Qed.

Lemma replace_first pat rep a b :
  (∀ a1 a2, a = a1 +:+ a2 → a2 ≠ "" →
            String.prefix pat (a2 +:+ pat +:+ b) = false) →
  Str.replace pat rep (a +:+ pat +:+ b) = a +:+ rep +:+ b.
Proof.
  induction a as [|c a IH]; intros Hno.
  - exact (replace_here pat rep b).
  - change (String.String c a +:+ pat +:+ b)
      with (String.String c (a +:+ pat +:+ b)).
    rewrite replace_skip.
    + rewrite IH; [done|]. intros a1 a2 -> Hne.
      by apply (Hno (String.String c a1) a2).
    + by apply (Hno "" (String.String c a)).
Qed.

Lemma replace_absent pat rep s :
  (∀ s1 s2, s = s1 +:+ s2 → String.prefix pat s2 = false) →
  Str.replace pat rep s = s.
Proof.
  induction s as [|c s IH]; intros Hno.
  - rewrite replace_unfold. by rewrite (Hno "" "").
  - rewrite replace_skip by by apply (Hno "").
    rewrite IH; [done|]. intros s1 s2 ->.
    by apply (Hno (String.String c s1) s2).
Qed.

Lemma truthy_false_iff v : Js.truthy v = false ↔ v = None ∨ v = Some "".
Proof.
  destruct v as [s|]; simpl; [|naive_solver].
  destruct (String.eqb s "") eqn:E; simpl.
  - apply String.eqb_eq in E. naive_solver.
  - apply String.eqb_neq in E. naive_solver.
Qed.

(** X1.  [buildPhotoUrl] gives [null] exactly for a photo without URL; what
    it gives otherwise is never empty.  Only the first ["square."] of the
    URL becomes ["large."], and a URL without ["square."] is returned as it
    is. *)
Theorem buildPhotoUrl_spec (p : App.RawPhoto.t) :
  (App.buildPhotoUrl (Some p) = None ↔ Js.truthy (App.RawPhoto.url p) = false)
  ∧ (∀ u, App.buildPhotoUrl (Some p) = Some u → u ≠ "")
  ∧ (∀ a b, App.RawPhoto.url p = Some (a +:+ "square." +:+ b) →
       (∀ a1 a2, a = a1 +:+ a2 → a2 ≠ "" →
                 String.prefix "square." (a2 +:+ "square." +:+ b) = false) →
       App.buildPhotoUrl (Some p) = Some (a +:+ "large." +:+ b))
  ∧ (∀ u, App.RawPhoto.url p = Some u → u ≠ "" →
       (∀ s1 s2, u = s1 +:+ s2 → String.prefix "square." s2 = false) →
       App.buildPhotoUrl (Some p) = Some u).
Proof.
  unfold App.buildPhotoUrl. split_and!.
  - rewrite truthy_false_iff. destruct (App.RawPhoto.url p) as [u|]; [|naive_solver].
    destruct (String.eqb u "") eqn:E.
    + apply String.eqb_eq in E. naive_solver.
    + apply String.eqb_neq in E. naive_solver.
  - intros u. destruct (App.RawPhoto.url p) as [v|]; [|done].
    destruct (String.eqb v "") eqn:E; [done|]. apply String.eqb_neq in E.
    intros [= <-]. by apply replace_nonempty.
  - intros a b -> Hno.
    destruct (String.eqb (a +:+ "square." +:+ b) "") eqn:E.
    + apply String.eqb_eq in E. by destruct a.
    + by rewrite replace_first.
  - intros u -> Hne Hno. apply String.eqb_neq in Hne. rewrite Hne.
    by rewrite replace_absent.
Qed.

Lemma buildPhotoUrl_spec_witness :
  App.buildPhotoUrl
    (Some {| App.RawPhoto.url := Some "a/square.square.jpg";
             App.RawPhoto.license_code := None |})
  = Some "a/large.square.jpg".
Proof.
  refine (proj1 (proj2 (proj2 (buildPhotoUrl_spec
            {| App.RawPhoto.url := Some "a/square.square.jpg";
               App.RawPhoto.license_code := None |})))
            "a/" "square.jpg" eq_refl _).
  intros a1 a2 Heq Hne.
  destruct a1 as [|c1 a1].
  { change ("a/" = a2) in Heq. by rewrite <- Heq. }
  change ("a/" = String.String c1 (a1 +:+ a2)) in Heq. injection Heq as _ Heq.
  destruct a1 as [|c2 a1].
  { change ("/" = a2) in Heq. by rewrite <- Heq. }
  change ("/" = String.String c2 (a1 +:+ a2)) in Heq. injection Heq as _ Heq.
  destruct a1 as [|c3 a1].
  { change ("" = a2) in Heq. by destruct Hne. }
  discriminate Heq.
Defined.

Lemma toLowerCase_empty c : Str.toLowerCase c = "" ↔ c = "".
Proof. by destruct c. Qed.

(** X2.  [licenseIsAllowed] does not look at the case of the letters A to
    Z: two codes with the same lower-case form get the same answer, and the
    codes accepted are exactly those whose lower-case form is one of
    [ALLOWED_LICENSES]; [null] and the empty code are refused. *)
Theorem licenseIsAllowed_case (c : string) :
  (App.licenseIsAllowed (Some c) = true
   ↔ Str.toLowerCase c ∈ CONFIG.ALLOWED_LICENSES)
  ∧ (∀ c', Str.toLowerCase c = Str.toLowerCase c' →
           App.licenseIsAllowed (Some c) = App.licenseIsAllowed (Some c'))
  ∧ App.licenseIsAllowed None = false
  ∧ App.licenseIsAllowed (Some "") = false.
Proof.
  assert (∀ d, App.licenseIsAllowed (Some d)
               = bool_decide (Str.toLowerCase d ∈ CONFIG.ALLOWED_LICENSES))
    as Hd.
  { intros d. unfold App.licenseIsAllowed.
    destruct (String.eqb d "") eqn:E; [|done].
    apply String.eqb_eq in E as ->. done. }
  split_and!; [|intros c' Heq; by rewrite !Hd, Heq|done|done].
  rewrite Hd. apply bool_decide_eq_true.
Qed.

(** *** Which records [filterAndTransform] keeps *)

Lemma orStr_empty v : Js.orStr v "" = "" ↔ Js.truthy v = false.
Proof.
  destruct v as [s|]; simpl; [|done].
  destruct (String.eqb s "") eqn:E; simpl; [done|].
  apply String.eqb_neq in E. naive_solver.
Qed.

Lemma transform_is_Some (o : App.RawObs.t) :
  is_Some (App.transform o) ↔ kept o.
Proof.
  unfold kept, firstAllowedPhoto, App.transform.
  destruct (App.RawObs.taxon o) as [taxon|];
    [|split; [by intros [??]|by intros ((t & Ht & _) & _)]].
  set (photos := default [] (App.RawObs.photos o)).
  case_decide as Hlen.
  { split; [by intros [??]|]. intros (_ & _ & _ & photo & Hf & _).
    destruct photos; [done|simpl in Hlen; lia]. }
  unfold CONFIG.REQUIRE_RESEARCH_GRADE. simpl.
  case_bool_decide as Hq; simpl;
    [|split; [by intros [??]|by intros (_ & Hr & _)]].
  destruct (Js.truthy (App.RawObs.license_code o)
            && negb (App.licenseIsAllowed (App.RawObs.license_code o)))
    eqn:Elic.
  { split; [by intros [??]|]. intros (_ & _ & Hl & _).
    apply andb_true_iff in Elic as [Ht Hn]. rewrite (Hl Ht) in Hn. done. }
  assert (Js.truthy (App.RawObs.license_code o) = true →
          App.licenseIsAllowed (App.RawObs.license_code o) = true) as Hlic.
  { intros Ht. rewrite Ht in Elic. simpl in Elic.
    by destruct (App.licenseIsAllowed _). }
  destruct (List.find _ photos) as [photo|] eqn:Ef;
    [|split; [by intros [??]|by intros (_ & _ & _ & p & Hp & _)]].
  unfold App.buildPhotoUrl.
  destruct (App.RawPhoto.url photo) as [u|] eqn:Eu.
  2: { split; [by intros [??]|]. intros (_ & _ & _ & p & [= <-] & Ht).
       by rewrite Eu in Ht. }
  destruct (String.eqb u "") eqn:Eue.
  { split; [by intros [??]|]. intros (_ & _ & _ & p & [= <-] & Ht).
    rewrite Eu in Ht. simpl in Ht. by rewrite Eue in Ht. }
  apply String.eqb_neq in Eue.
  pose proof (replace_nonempty "square." "large." u) as Hr.
  destruct (String.eqb (Str.replace "square." "large." u) "") eqn:Er.
  { apply String.eqb_eq in Er. by destruct Hr. }
  destruct (String.eqb (Js.orStr (App.RawTaxon.name taxon) "") "") eqn:En.
  { apply String.eqb_eq, orStr_empty in En.
    split; [by intros [??]|]. intros ((t & [= <-] & Ht) & _). congruence. }
  apply String.eqb_neq in En.
  split; [|by eauto]. intros _.
  split_and!; [|done|done|].
  - exists taxon. split; [done|].
    destruct (Js.truthy (App.RawTaxon.name taxon)) eqn:E; [done|].
    by apply orStr_empty in E.
  - exists photo. split; [done|]. rewrite Eu. simpl.
    apply String.eqb_neq in Eue. by rewrite Eue.
Qed.

(** X3.  A raw record is kept exactly when it has a taxon with a name, is of
    research grade, has no license of its own or an allowed one, and the
    first of its photos with an allowed license has a URL.  A later photo
    does not make up for a first allowed photo without URL. *)
Theorem transform_kept_iff (o : App.RawObs.t) :
  is_Some (App.transform o) ↔ kept o.
Proof. exact (transform_is_Some o). Qed.

(** A record whose first allowed photo has no URL is dropped, whatever
    photos follow. *)
Example first_photo_without_url_drops :
  App.filterAndTransform
    [ Sample.rawWith 5 "Parus major"
        (Some [ {| App.RawPhoto.url := None;
                   App.RawPhoto.license_code := Some "cc0" |};
                Sample.photoOk ]) ] = [].
Proof. reflexivity. Qed.

(** X4.  [filterAndTransform] works record by record: the result of two
    lists one after the other is the two results one after the other, no
    more observations come out than records went in, and the ids of the
    observations are ids of the records, in the order of the records. *)
Theorem filterAndTransform_app (rawObs1 rawObs2 : list App.RawObs.t) :
  App.filterAndTransform (rawObs1 ++ rawObs2)
  = App.filterAndTransform rawObs1 ++ App.filterAndTransform rawObs2
  ∧ length (App.filterAndTransform rawObs1) ≤ length rawObs1
  ∧ App.obsId <$> App.filterAndTransform rawObs1
    `sublist_of` App.RawObs.id <$> rawObs1.
Proof.
  rewrite !filterAndTransform_omap. split; [apply omap_app|].
  assert (∀ o l, omap App.transform (o :: l)
                 = match App.transform o with
                   | Some y => y :: omap App.transform l
                   | None => omap App.transform l
                   end) as Hcons by done.
  split.
  - induction rawObs1 as [|o l IH]; [done|]. rewrite Hcons.
    destruct (App.transform o); simpl; lia.
  - induction rawObs1 as [|o l IH]; [constructor|].
    rewrite Hcons, fmap_cons.
    destruct (App.transform o) as [x|] eqn:Ex.
    + rewrite fmap_cons. assert (App.obsId x = App.RawObs.id o) as ->; [|by constructor].
      unfold App.transform in Ex.
      repeat (first [ discriminate Ex
                    | match type of Ex with
                      | context [match ?d with _ => _ end] => destruct d
                      end ]).
      by injection Ex as <-.
    + by constructor.
Qed.

Lemma transform_license o x :
  App.transform o = Some x →
  App.obsId x = App.RawObs.id o
  ∧ App.licenseIsAllowed (App.licenseCode x) = true
  ∧ (∃ photo, firstAllowedPhoto o = Some photo
              ∧ App.licenseCode x = App.RawPhoto.license_code photo
              ∧ App.buildPhotoUrl (Some photo) = Some (App.photoUrl x))
  ∧ (∀ u l, App.RawObs.user o = Some u → App.RawUser.login u = Some l →
            l ≠ "" → App.observer x = l)
  ∧ (App.RawObs.user o = None
     ∨ (∃ u, App.RawObs.user o = Some u
             ∧ Js.truthy (App.RawUser.login u) = false) →
     App.observer x = "unknown")
  ∧ App.observer x ≠ ""
  ∧ App.obsUrl x
    = "https://www.inaturalist.org/observations/"
      +:+ pretty (App.RawObs.id o).
Proof.
  unfold App.transform, firstAllowedPhoto. intros H.
  destruct (App.RawObs.taxon o) as [taxon|]; [|done].
  case_decide; [done|].
  destruct (_ && _); [done|]. destruct (_ && _); [done|].
  destruct (List.find _ _) as [photo|] eqn:Ef; [|done].
  destruct (App.buildPhotoUrl _) as [url|] eqn:Eu; [|done].
  destruct (String.eqb url ""); [done|].
  destruct (String.eqb (Js.orStr _ "") ""); [done|].
  injection H as <-. simpl.
  pose proof (find_some_elem _ _ _ Ef) as [_ Hallowed].
  assert (Js.truthy (App.RawPhoto.license_code photo) = true) as Ht.
  { unfold App.licenseIsAllowed in Hallowed.
    destruct (App.RawPhoto.license_code photo) as [c|]; [|done]. simpl.
    by destruct (String.eqb c ""). }
  unfold Js.or at 2. rewrite Ht. unfold Js.or. rewrite Ht.
  split_and!; [done|done| | | | |done].
  - exists photo. rewrite Ht. split_and!; [done|done|exact Eu].
  - intros u l -> Hl Hne. simpl. rewrite Hl. simpl.
    apply String.eqb_neq in Hne. by rewrite Hne.
  - intros [->|(u & -> & Hl)]; simpl; [done|].
    destruct (App.RawUser.login u) as [l|]; simpl in *; [|done].
    by destruct (String.eqb l "").
  - destruct (App.RawObs.user o ≫= App.RawUser.login) as [l|]; simpl; [|done].
    destruct (String.eqb l "") eqn:El; [done|]. by apply String.eqb_neq.
Qed.

(** X5.  Every observation that [filterAndTransform] returns is made from a
    record of the list: it has the id of that record and the address of its
    observation page, and it carries an allowed license code, the one of
    the first photo of the record with an allowed license, from which its
    photo URL is made.  Its observer is the login of the record's user, and
    ["unknown"] when the record has no user or the user no login; it is
    never empty. *)
Theorem filterAndTransform_license (rawObs : list App.RawObs.t)
    (x : App.Observation) :
  x ∈ App.filterAndTransform rawObs →
  ∃ o photo,
    o ∈ rawObs
    ∧ App.transform o = Some x
    ∧ App.obsId x = App.RawObs.id o
    ∧ firstAllowedPhoto o = Some photo
    ∧ App.licenseIsAllowed (App.licenseCode x) = true
    ∧ App.licenseCode x = App.RawPhoto.license_code photo
    ∧ App.buildPhotoUrl (Some photo) = Some (App.photoUrl x)
    ∧ (∀ u l, App.RawObs.user o = Some u → App.RawUser.login u = Some l →
              l ≠ "" → App.observer x = l)
    ∧ (App.RawObs.user o = None
       ∨ (∃ u, App.RawObs.user o = Some u
               ∧ Js.truthy (App.RawUser.login u) = false) →
       App.observer x = "unknown")
    ∧ App.observer x ≠ ""
    ∧ App.obsUrl x
      = "https://www.inaturalist.org/observations/"
        +:+ pretty (App.RawObs.id o).
Proof.
  rewrite filterAndTransform_omap. intros Hx.
  apply list_elem_of_omap in Hx as (o & Ho & Hox).
  destruct (transform_license o x Hox)
    as (Hid & Hl & (photo & Hp & Hc & Hu) & Hlogin & Hunknown & Hobs & Hurl).
  exists o, photo. split_and!; done.
Qed.

Lemma filterAndTransform_license_witness :
  ∃ o, o ∈ [Sample.rawNoPhoto; Sample.rawGood]
       ∧ App.transform o = Some (Sample.obsOf 1 "Parus major" None None)
       ∧ App.licenseIsAllowed
           (App.licenseCode (Sample.obsOf 1 "Parus major" None None)) = true
       ∧ App.observer (Sample.obsOf 1 "Parus major" None None) = "unknown".
Proof.
  destruct (filterAndTransform_license
              [Sample.rawNoPhoto; Sample.rawGood]
              (Sample.obsOf 1 "Parus major" None None))
    as (o & photo & Ho & Ht & _ & _ & Hl & _ & _ & _ & _ & _).
  { vm_compute. left. }
  exists o. split; [exact Ho|]. split; [exact Ht|]. split; [exact Hl|].
  reflexivity.
Defined.

(** *** More on [enrichWithTaxaData] *)

Lemma uniq_snoc xs x :
  App.uniq (xs ++ [x])
  = if decide (x ∈ App.uniq xs) then App.uniq xs else App.uniq xs ++ [x].
Proof. unfold App.uniq. by rewrite foldl_app. Qed.

Lemma uniq_spec xs : NoDup (App.uniq xs) ∧ ∀ x, x ∈ App.uniq xs ↔ x ∈ xs.
Proof.
  induction xs as [|x xs [IHnd IHin]] using rev_ind.
  - split; [constructor|done].
  - rewrite uniq_snoc. case_decide as Hx.
    + split; [done|]. intros y. rewrite elem_of_app, list_elem_of_singleton, IHin.
      split; [by left|]. intros [?| ->]; [done|]. by apply IHin.
    + split.
      * apply NoDup_app. split; [done|]. split; [|apply NoDup_singleton].
        intros y Hy Hy'. apply list_elem_of_singleton in Hy'. by subst.
      * intros y. rewrite !elem_of_app, IHin. done.
Qed.

Lemma applyMaps_taxonId m o : App.taxonId (App.applyMaps m o) = App.taxonId o.
Proof. done. Qed.

Lemma enrich_taxonIds fetch obsList :
  omap App.taxonNum (App.enrichWithTaxaData fetch obsList)
  = omap App.taxonNum obsList.
Proof.
  unfold App.enrichWithTaxaData. case_decide as Hlen; [done|]. clear Hlen.
  generalize (App.enrichLoop
                (length (App.uniq (omap App.taxonNum obsList))) 0
                (App.uniq (omap App.taxonNum obsList)) fetch App.emptyMaps).
  intros m. induction obsList as [|o l IH]; [done|].
  rewrite fmap_cons.
  change (omap App.taxonNum (App.applyMaps m o :: (App.applyMaps m <$> l)))
    with (match App.taxonNum o with
          | Some k => k :: omap App.taxonNum (App.applyMaps m <$> l)
          | None => omap App.taxonNum (App.applyMaps m <$> l)
          end).
  rewrite IH. done.
Qed.

Lemma applyMaps_idem m o :
  App.applyMaps m (App.applyMaps m o) = App.applyMaps m o.
Proof. done. Qed.

Lemma foldl_ext_in {X S} (f g : S → X → S) (l : list X) (s : S) :
  (∀ s x, x ∈ l → f s x = g s x) → foldl f s l = foldl g s l.
Proof.
  revert s. induction l as [|x l IH]; intros s Hfg; simpl; [done|].
  rewrite (Hfg s x) by left. apply IH. intros s' y Hy. apply Hfg. by right.
Qed.

(** X6.  Enriching twice with the same answers is enriching once; and the
    answers matter only for the chunks that are requested: two services
    that agree on them give the same observations. *)
Theorem enrichWithTaxaData_idempotent (fetch : list Z → App.Response)
    (obsList : list App.Observation) :
  App.enrichWithTaxaData fetch (App.enrichWithTaxaData fetch obsList)
  = App.enrichWithTaxaData fetch obsList
  ∧ (∀ fetch', (∀ c, c ∈ chunksOf obsList → fetch' c = fetch c) →
       App.enrichWithTaxaData fetch' obsList
       = App.enrichWithTaxaData fetch obsList).
Proof.
  split.
  - unfold App.enrichWithTaxaData at 1. rewrite enrich_taxonIds.
    unfold App.enrichWithTaxaData. case_decide; [done|].
    rewrite <- list_fmap_compose. apply list_fmap_ext. intros i o _. done.
  - intros fetch' Hagree. unfold App.enrichWithTaxaData. case_decide; [done|].
    rewrite !enrichLoop_chunks. f_equal. f_equal.
    apply foldl_ext_in. intros m c Hc. by rewrite Hagree.
Qed.

Lemma uniq_first xs pre k post :
  App.uniq xs = pre ++ k :: post →
  ∃ before after, xs = before ++ k :: after ∧ (k ∉ before)
                  ∧ (∀ k', k' ∈ pre ↔ k' ∈ before).
Proof.
  revert pre k post. induction xs as [|x xs IH] using rev_ind;
    intros pre k post Heq.
  { by destruct pre. }
  destruct (uniq_spec xs) as [_ Hin].
  rewrite uniq_snoc in Heq.
  assert (∀ post', App.uniq xs = pre ++ k :: post' →
          ∃ before after, xs ++ [x] = before ++ k :: after ∧ (k ∉ before)
                          ∧ (∀ k', k' ∈ pre ↔ k' ∈ before)) as Hold.
  { intros post' Hu. destruct (IH pre k post' Hu) as (b & a & -> & Hk & Hpre).
    exists b, (a ++ [x]). split; [by rewrite <- app_assoc|done]. }
  case_decide as Hx; [by apply (Hold post)|].
  destruct post as [|z post _] using rev_ind.
  - apply (app_inj_tail (App.uniq xs) pre x k) in Heq as [Hu ->].
    exists xs, []. split; [done|]. split; [by rewrite <- Hin|].
    intros k'. by rewrite <- Hu, Hin.
  - rewrite app_comm_cons, app_assoc in Heq.
    apply app_inj_tail in Heq as [Hu _]. by apply (Hold post).
Qed.

Lemma omap_split {A B} (f : A → option B) (l : list A) before k after :
  omap f l = before ++ k :: after →
  ∃ l1 x l2, l = l1 ++ x :: l2 ∧ omap f l1 = before ∧ f x = Some k
             ∧ omap f l2 = after.
Proof.
  revert before. induction l as [|y l IH]; intros before Heq.
  { by destruct before. }
  change (omap f (y :: l))
    with (match f y with Some z => z :: omap f l | None => omap f l end)
    in Heq.
  destruct (f y) as [z|] eqn:Ey.
  - destruct before as [|b before].
    + injection Heq as -> Hl. exists [], y, l. done.
    + injection Heq as -> Hl.
      destruct (IH before Hl) as (l1 & x & l2 & -> & H1 & Hx & H2).
      exists (y :: l1), x, l2. split; [done|]. split; [|done].
      change (omap f (y :: l1))
        with (match f y with Some z => z :: omap f l1 | None => omap f l1 end).
      by rewrite Ey, H1.
  - destruct (IH before Heq) as (l1 & x & l2 & -> & H1 & Hx & H2).
    exists (y :: l1), x, l2. split; [done|]. split; [|done].
    change (omap f (y :: l1))
      with (match f y with Some z => z :: omap f l1 | None => omap f l1 end).
    by rewrite Ey.
Qed.

Lemma taxonNum_Some o k : App.taxonNum o = Some k ↔ App.taxonId o = Js.Num k.
Proof.
  unfold App.taxonNum. destruct (App.taxonId o); simpl; split; congruence.
Qed.

(** X7.  The ids that are requested are the taxon ids of the observations
    that are numbers: each one once, in the order of their first
    observation, that is, the ids requested before an id are exactly the
    ids of the observations before the first observation that has it.  A
    list in which no observation has such an id is left as it is, whatever
    the service would answer. *)
Theorem enrichWithTaxaData_requests (fetch : list Z → App.Response)
    (obsList : list App.Observation) :
  NoDup (concat (chunksOf obsList))
  ∧ (∀ k, k ∈ concat (chunksOf obsList)
          ↔ ∃ o, o ∈ obsList ∧ App.taxonId o = Js.Num k)
  ∧ concat (chunksOf obsList) `sublist_of` omap App.taxonNum obsList
  ∧ (∀ pre k post, concat (chunksOf obsList) = pre ++ k :: post →
       ∃ before o after,
         obsList = before ++ o :: after
         ∧ App.taxonId o = Js.Num k
         ∧ (∀ o', o' ∈ before → App.taxonId o' ≠ Js.Num k)
         ∧ (∀ k', k' ∈ pre
                  ↔ ∃ o', o' ∈ before ∧ App.taxonId o' = Js.Num k'))
  ∧ ((∀ o k, o ∈ obsList → App.taxonId o ≠ Js.Num k) →
     App.enrichWithTaxaData fetch obsList = obsList).
Proof.
  assert (concat (chunksOf obsList) = App.uniq (omap App.taxonNum obsList))
    as Hconcat.
  { unfold chunksOf. rewrite requestedChunks_concat by lia. apply drop_0. }
  rewrite Hconcat.
  destruct (uniq_spec (omap App.taxonNum obsList)) as [Hnd Hin].
  split; [done|]. split; [|split; [|split]].
  - intros k. rewrite Hin, list_elem_of_omap.
    by setoid_rewrite taxonNum_Some.
  - generalize (omap App.taxonNum obsList). clear. intros xs.
    induction xs as [|x xs IH] using rev_ind; [done|].
    rewrite uniq_snoc. case_decide.
    + etrans; [exact IH|]. by apply sublist_inserts_r.
    + by apply sublist_app.
  - intros pre k post Heq.
    destruct (uniq_first _ _ _ _ Heq) as (b & a & Hsplit & Hk & Hpre).
    destruct (omap_split _ _ _ _ _ Hsplit) as (l1 & o & l2 & -> & H1 & Ho & H2).
    exists l1, o, l2. split; [done|]. split; [by apply taxonNum_Some|].
    split.
    + intros o' Ho' Hid. apply Hk. rewrite <- H1.
      apply list_elem_of_omap. exists o'. split; [done|].
      by apply taxonNum_Some.
    + intros k'. rewrite Hpre, <- H1, list_elem_of_omap.
      by setoid_rewrite taxonNum_Some.
  - intros Hnone. unfold App.enrichWithTaxaData.
    assert (omap App.taxonNum obsList = []) as ->; [|done].
    destruct (omap App.taxonNum obsList) as [|k l] eqn:E; [done|].
    assert (k ∈ omap App.taxonNum obsList) as Hk by (rewrite E; left).
    apply list_elem_of_omap in Hk as (o & Ho & Hn).
    apply taxonNum_Some in Hn. by destruct (Hnone o k Ho).
Qed.

(** X8.  The broad group of a taxon follows the priority class, phylum,
    division: the first ancestor of rank class decides, whatever ancestors
    of the other ranks there are; only without one the first ancestor of
    rank phylum decides, and only without that the first of rank division.
    An ancestor that decides but has no name leaves the taxon without broad
    group, and then nothing is recorded for it. *)
Theorem broadGroup_priority (t : App.Taxon.t) (ancestors : list App.Ancestor.t) :
  App.Taxon.ancestors t = Some ancestors →
  (∀ a, List.find (App.hasRank "class") ancestors = Some a →
        App.broadGroupOf t = App.Ancestor.name a)
  ∧ (List.find (App.hasRank "class") ancestors = None →
     ∀ a, List.find (App.hasRank "phylum") ancestors = Some a →
          App.broadGroupOf t = App.Ancestor.name a)
  ∧ (List.find (App.hasRank "class") ancestors = None →
     List.find (App.hasRank "phylum") ancestors = None →
     ∀ a, List.find (App.hasRank "division") ancestors = Some a →
          App.broadGroupOf t = App.Ancestor.name a)
  ∧ (Js.truthy (App.broadGroupOf t) = false →
     ∀ m, App.broadGroupMap (App.recordTaxon t m) = App.broadGroupMap m).
Proof.
  intros Hanc. unfold App.broadGroupOf. rewrite Hanc.
  unfold CONFIG.GROUP_RANK_PRIORITY. simpl.
  split_and!.
  - by intros a ->.
  - by intros -> a ->.
  - by intros -> -> a ->.
  - intros Hf m. unfold App.recordTaxon, App.broadGroupOf. rewrite Hanc.
    unfold CONFIG.GROUP_RANK_PRIORITY. simpl.
    destruct (match List.find (App.hasRank "class") ancestors with
              | Some anc => _ | None => _ end) as [b|]; [|done].
    simpl in Hf. destruct (String.eqb b ""); [done|discriminate Hf].
Qed.

Lemma broadGroup_priority_witness :
  App.broadGroupOf Sample.taxon31 = Some "Aves".
Proof.
  exact (proj1 (broadGroup_priority Sample.taxon31 _ eq_refl)
           {| App.Ancestor.rank := Some "class";
              App.Ancestor.name := Some "Aves" |} eq_refl).
Defined.

(** *** The buttons of a question *)

Lemma buttonLabel_groupLabel lvl o l :
  groupLabel lvl o = Some l → App.buttonLabel lvl o = l.
Proof.
  unfold groupLabel, App.buttonLabel.
  destruct (App.getGroupLabelForObs lvl o) as [l'|]; [|done]. simpl.
  destruct (String.eqb l' ""); [done|]. by intros [= ->].
Qed.

Lemma filter_none {X} (P : X → Prop) `{∀ x, Decision (P x)} (l : list X) :
  (∀ z, z ∈ l → ¬ P z) → filter P l = [].
Proof.
  induction l as [|y l IH]; intros Hno; [done|].
  rewrite filter_cons_False by (apply Hno; left).
  apply IH. intros z Hz. apply Hno. by right.
Qed.

Lemma filter_eq_one {X Y} `{EqDecision Y} (f : X → Y) (l : list X) (x : X) :
  NoDup (f <$> l) → x ∈ l → length (filter (λ y, f y = f x) l) = 1.
Proof.
  induction l as [|y l IH]; intros Hnd Hx; [by apply elem_of_nil in Hx|].
  rewrite fmap_cons in Hnd. apply NoDup_cons in Hnd as [Hy Hnd].
  destruct (decide (f y = f x)) as [Heq|Hne].
  - rewrite filter_cons_True by done. simpl. f_equal.
    assert (filter (λ z, f z = f x) l = []) as ->; [|done].
    apply filter_none. intros z Hz Hzx. apply Hy.
    rewrite Heq, <- Hzx. apply list_elem_of_fmap. eauto.
  - rewrite filter_cons_False by done.
    apply elem_of_cons in Hx as [->|Hx]; [done|]. by apply IH.
Qed.

Lemma question_buttons lvl obsList r q :
  q ∈ (App.buildQuizQuestions lvl obsList r).1 →
  NoDup (App.buttonLabel lvl <$> App.options q)
  ∧ App.correct q ∈ App.options q
  ∧ Forall (λ o, App.buttonLabel lvl o ≠ "") (App.options q).
Proof.
  intros Hq.
  destruct (question_origin lvl obsList r q Hq) as (g & r' & _ & Hgin & ->).
  set (groups := App.buildGroups lvl obsList) in *.
  destruct (buildGroups_inv lvl obsList) as (Hnd & Hg & _). fold groups in Hnd, Hg.
  destruct (buildQuestion_spec groups g r') as [Hc Hp].
  assert (∀ x, x ∈ g :: distractorsOf groups g r' → x ∈ groups) as Hall.
  { intros x Hx. apply elem_of_cons in Hx as [->|Hx]; [done|].
    by apply distractorsOf_groups in Hx as [? _]. }
  assert (App.buttonLabel lvl <$> (App.obs <$> (g :: distractorsOf groups g r'))
          = App.label <$> (g :: distractorsOf groups g r')) as Hlabels.
  { rewrite <- list_fmap_compose. apply list_fmap_ext. intros i x Hx. simpl.
    apply buttonLabel_groupLabel, Hg, Hall. by apply list_elem_of_lookup_2 in Hx. }
  split_and!.
  - rewrite Hp, Hlabels. by apply options_labels_NoDup.
  - rewrite Hp, Hc, fmap_cons. left.
  - rewrite Hp. apply Forall_forall. intros o Ho.
    apply list_elem_of_fmap in Ho as (x & -> & Hx).
    destruct (Hg x (Hall x Hx)) as (_ & Hl & _).
    rewrite (buttonLabel_groupLabel _ _ _ Hl). by eapply groupLabel_nonempty.
Qed.

(** X9.  Every question of [buildQuizQuestions] can be answered right in
    exactly one way: the correct observation is among the options, and
    exactly one option carries the label that an answer is compared with. *)
Theorem one_right_button (lvl : string) (obsList : list App.Observation)
    (r : Rng.t) (q : App.Question) :
  q ∈ (App.buildQuizQuestions lvl obsList r).1 →
  App.correct q ∈ App.options q
  ∧ length (filter (λ o, App.buttonLabel lvl o
                         = App.buttonLabel lvl (App.correct q))
                   (App.options q)) = 1.
Proof.
  intros Hq. destruct (question_buttons lvl obsList r q Hq) as (Hnd & Hin & _).
  split; [done|]. by apply filter_eq_one.
Qed.

Lemma one_right_button_witness :
  length (filter (λ o, App.buttonLabel "species" o
                       = App.buttonLabel "species"
                           (Sample.insect 1 "Apis mellifera" "Apidae"))
                 [ Sample.insect 3 "Vespula vulgaris" "Vespidae";
                   Sample.insect 4 "Pieris napi" "Pieridae";
                   Sample.insect 5 "Aglais io" "Nymphalidae";
                   Sample.insect 1 "Apis mellifera" "Apidae" ]) = 1.
Proof.
  refine (proj2 (one_right_button "species" Sample.quizObs []
            {| App.correct := Sample.insect 1 "Apis mellifera" "Apidae";
               App.options :=
                 [ Sample.insect 3 "Vespula vulgaris" "Vespidae";
                   Sample.insect 4 "Pieris napi" "Pieridae";
                   Sample.insect 5 "Aglais io" "Nymphalidae";
                   Sample.insect 1 "Apis mellifera" "Apidae" ] |} _)).
  vm_compute. left.
Defined.

Lemma questions_nil_iff lvl obsList r :
  (App.buildQuizQuestions lvl obsList r).1 = []
  ↔ ∀ o, o ∈ obsList → groupLabel lvl o = None.
Proof.
  pose proof (Forall2_length _ _ _ (buildQuizQuestions_Forall2 lvl obsList r))
    as Hlen.
  destruct (chosenGroups_sub lvl obsList r) as [_ Hchosen].
  rewrite Hchosen in Hlen. unfold groupCount in Hlen.
  split.
  - intros Hnil o Ho. rewrite Hnil in Hlen. simpl in Hlen.
    destruct (groupLabel lvl o) as [l|] eqn:El; [|done]. exfalso.
    assert (l ∈ remove_dups (omap (groupLabel lvl) obsList)) as Hin.
    { apply elem_of_remove_dups, list_elem_of_omap. eauto. }
    destruct (remove_dups _); [by apply elem_of_nil in Hin|].
    unfold CONFIG.QUESTIONS_COUNT in Hlen. simpl in Hlen. lia.
  - intros Hall.
    assert (omap (groupLabel lvl) obsList = []) as Hnil.
    { destruct (omap (groupLabel lvl) obsList) as [|l ls] eqn:E; [done|].
      assert (l ∈ omap (groupLabel lvl) obsList) as Hin by (rewrite E; left).
      apply list_elem_of_omap in Hin as (o & Ho & Hl).
      rewrite (Hall o Ho) in Hl. done. }
    rewrite Hnil in Hlen. simpl in Hlen.
    destruct (App.buildQuizQuestions lvl obsList r).1; [done|simpl in Hlen; lia].
Qed.

Lemma pipeline_questions_nonempty lvl fetch rawObs r :
  App.enrichWithTaxaData fetch (App.filterAndTransform rawObs) ≠ [] →
  lvl ≠ "family" →
  (App.buildQuizQuestions lvl
     (App.enrichWithTaxaData fetch (App.filterAndTransform rawObs)) r).1 ≠ [].
Proof.
  intros Hne Hlvl Hnil.
  rewrite questions_nil_iff in Hnil.
  pose proof (pipeline_genusName fetch rawObs) as Hgen.
  destruct (App.enrichWithTaxaData fetch (App.filterAndTransform rawObs))
    as [|o l] eqn:E; [done|].
  apply Forall_cons in Hgen as [Hgen _].
  specialize (Hnil o (list_elem_of_here _ _)).
  rewrite (groupLabel_levelLabel lvl o Hgen) in Hnil.
  assert (App.scientificName o ≠ "") as Hsci.
  { assert (o ∈ App.enrichWithTaxaData fetch (App.filterAndTransform rawObs))
      as Hin by (rewrite E; left).
    unfold App.enrichWithTaxaData in Hin.
    assert (∃ o', o' ∈ App.filterAndTransform rawObs
                  ∧ App.scientificName o = App.scientificName o')
      as (o' & Ho' & ->).
    { case_decide; [by eauto|].
      apply list_elem_of_fmap in Hin as (o' & -> & Ho'). by eauto. }
    rewrite filterAndTransform_omap in Ho'.
    apply list_elem_of_omap in Ho' as (raw & _ & Hraw).
    by destruct (transform_shape raw o' Hraw) as (_ & ? & _). }
  unfold levelLabel in Hnil. apply String.eqb_neq in Hgen, Hsci.
  repeat case_decide; simpl in Hnil; [by rewrite Hgen in Hnil|done|].
  by rewrite Hsci in Hnil.
Qed.

(** X10.  The quiz is empty exactly when no observation has a label at the
    level.  For observations that come out of [filterAndTransform] and the
    enrichment this happens only at the family level: at any other level a
    list that is not empty gives at least one question. *)
Theorem quiz_empty_iff (lvl : string) (obsList : list App.Observation)
    (r : Rng.t) :
  ((App.buildQuizQuestions lvl obsList r).1 = []
   ↔ ∀ o, o ∈ obsList → groupLabel lvl o = None)
  ∧ (∀ fetch rawObs,
       obsList = App.enrichWithTaxaData fetch (App.filterAndTransform rawObs) →
       obsList ≠ [] → lvl ≠ "family" →
       (App.buildQuizQuestions lvl obsList r).1 ≠ []).
Proof.
  split; [apply questions_nil_iff|].
  intros fetch rawObs -> Hne Hlvl. by apply pipeline_questions_nonempty.
Qed.

(** *** The hybrid [buildQuizQuestions] *)

Lemma hybrid_addGroup_unfold lvl groups o :
  Hybrid.addGroup lvl groups o
  = match hybridLabel lvl o with
    | None => groups
    | Some l =>
        if decide (l ∈ Hybrid.label <$> groups) then groups
        else groups ++ [ {| Hybrid.label := l; Hybrid.obs := o;
                            Hybrid.grpBroadGroup := Js.or (Hybrid.broadGroup o) None;
                            Hybrid.grpDidacticGroup :=
                              Js.or (Hybrid.didacticGroup o) None |} ]
    end.
Proof.
  unfold Hybrid.addGroup, hybridLabel.
  destruct (Hybrid.getGroupLabelForObs lvl o) as [l|]; [|done].
  by destruct (String.eqb l "").
Qed.

Lemma hybrid_buildGroups_inv lvl obsList :
  NoDup (Hybrid.label <$> Hybrid.buildGroups lvl obsList)
  ∧ (∀ g, g ∈ Hybrid.buildGroups lvl obsList →
       Hybrid.obs g ∈ obsList
       ∧ hybridLabel lvl (Hybrid.obs g) = Some (Hybrid.label g)
       ∧ Hybrid.grpBroadGroup g = Js.or (Hybrid.broadGroup (Hybrid.obs g)) None).
Proof.
  unfold Hybrid.buildGroups.
  induction obsList as [|o obsList (IHnd & IHg)] using rev_ind.
  - split; [constructor|]. by intros g Hg; apply elem_of_nil in Hg.
  - rewrite foldl_app. simpl. rewrite hybrid_addGroup_unfold.
    assert (∀ g, g ∈ foldl (Hybrid.addGroup lvl) [] obsList →
              Hybrid.obs g ∈ obsList ++ [o]
              ∧ hybridLabel lvl (Hybrid.obs g) = Some (Hybrid.label g)
              ∧ Hybrid.grpBroadGroup g
                = Js.or (Hybrid.broadGroup (Hybrid.obs g)) None) as Hold.
    { intros g Hg. destruct (IHg g Hg) as (? & ? & ?).
      split_and!; [|done|done]. apply elem_of_app. by left. }
    destruct (hybridLabel lvl o) as [l|] eqn:El; [|done].
    case_decide as Hin; [done|]. split.
    + rewrite fmap_app. apply NoDup_app. split; [done|].
      split; [|apply NoDup_singleton].
      intros x Hx Hx'. apply list_elem_of_singleton in Hx'. by subst.
    + intros g Hg. apply elem_of_app in Hg as [Hg|Hg]; [by apply Hold|].
      apply list_elem_of_singleton in Hg as ->. simpl.
      split_and!; [|done|done]. apply elem_of_app. right. left.
Qed.

Lemma hybrid_buttonLabel lvl o l :
  hybridLabel lvl o = Some l → Hybrid.buttonLabel lvl o = l ∧ l ≠ "".
Proof.
  unfold hybridLabel, Hybrid.buttonLabel.
  destruct (Hybrid.getGroupLabelForObs lvl o) as [l'|]; [|done]. simpl.
  destruct (String.eqb l' "") eqn:E; [done|]. intros [= ->].
  split; [done|]. by apply String.eqb_neq.
Qed.

Lemma or_none_truthy a : Js.truthy (Js.or a None) = Js.truthy a.
Proof. unfold Js.or. by destruct (Js.truthy a) eqn:E. Qed.

Lemma hybrid_projectQuestion_spec lvl obsList g r q r' :
  let groups := Hybrid.buildGroups lvl obsList in
  g ∈ groups →
  Js.truthy (Hybrid.grpBroadGroup g) = true →
  Hybrid.projectQuestion groups g r = (Some q, r') →
  hybridWellFormed lvl q.
Proof.
  intros groups Hg Hbroad. unfold Hybrid.projectQuestion.
  destruct (hybrid_buildGroups_inv lvl obsList) as (Hnd & Hinv).
  fold groups in Hnd, Hinv.
  set (cands := filter _ groups).
  case_decide as Hlen; [done|].
  pose proof (pickRandomSubset_length (Hybrid.obs <$> cands)
                Hybrid.neededDistractors r) as Hdl.
  pose proof (pickRandomSubset_submseteq (Hybrid.obs <$> cands)
                Hybrid.neededDistractors r) as Hds.
  destruct (Arr.pickRandomSubset (Hybrid.obs <$> cands) _ r) as [ds r1].
  pose proof (shuffleArray_perm (Hybrid.obs g :: ds) r1) as Hp.
  destruct (Arr.shuffleArray (Hybrid.obs g :: ds) r1) as [opts r2].
  cbn [fst snd] in *. intros [= <- <-]. exists ds. simpl.
  destruct (Hinv g Hg) as (_ & Hgl & Hgb).
  split_and!; [done| | |].
  - rewrite Hdl, length_fmap.
    unfold Hybrid.neededDistractors, CONFIG.OPTIONS_PER_QUESTION in *. lia.
  - by rewrite Hgb, or_none_truthy in Hbroad.
  - intros d Hd. eapply elem_of_submseteq in Hd; [|exact Hds].
    apply list_elem_of_fmap in Hd as (x & -> & Hx).
    apply list_elem_of_filter in Hx as [[Hne _] Hx].
    destruct (Hinv x Hx) as (_ & Hxl & _).
    apply hybrid_buttonLabel in Hxl as [-> _].
    apply hybrid_buttonLabel in Hgl as [-> _]. done.
Qed.

Lemma hybrid_distractor_label bg d v :
  Hybrid.buttonLabel "genus" (Hybrid.distractorOf bg d v)
  = Hybrid.vocScientificName v.
Proof.
  unfold Hybrid.buttonLabel, Hybrid.getGroupLabelForObs, Js.or. simpl.
  by destruct (String.eqb (Hybrid.vocScientificName v) "") eqn:E; simpl;
    rewrite ?E.
Qed.

Lemma hybrid_genusQuestion_spec lvl obsList ext g r q r' :
  let groups := Hybrid.buildGroups lvl obsList in
  lvl = "genus" →
  g ∈ groups →
  Js.truthy (Hybrid.grpBroadGroup g) = true →
  Hybrid.genusQuestion lvl ext g r = (Some q, r') →
  hybridWellFormed lvl q.
Proof.
  intros groups -> Hg Hbroad. unfold Hybrid.genusQuestion.
  destruct (hybrid_buildGroups_inv "genus" obsList) as (Hnd & Hinv).
  fold groups in Hnd, Hinv.
  destruct (Hinv g Hg) as (_ & Hgl & Hgb).
  destruct (Hybrid.grpDidacticGroup g) as [d|]; [|done].
  destruct (String.eqb d ""); [done|].
  destruct (ext !! d) as [vocabList|]; [|done].
  case_decide; [done|].
  destruct (Hybrid.getGroupLabelForObs "genus" (Hybrid.obs g)) as [c|] eqn:Ec;
    [|done].
  destruct (String.eqb c "") eqn:Ece; [done|].
  set (vocabClean := filter _ vocabList).
  case_decide as Hlen; [done|].
  pose proof (pickRandomSubset_length vocabClean Hybrid.neededDistractors r)
    as Hdl.
  pose proof (pickRandomSubset_submseteq vocabClean Hybrid.neededDistractors r)
    as Hds.
  destruct (Arr.pickRandomSubset vocabClean _ r) as [chosen r1].
  pose proof (shuffleArray_perm
                (Hybrid.obs g
                 :: (Hybrid.distractorOf (Hybrid.grpBroadGroup g) (Some d)
                       <$> chosen)) r1) as Hp.
  destruct (Arr.shuffleArray _ r1) as [opts r2].
  cbn [fst snd] in *. intros [= <- <-].
  exists (Hybrid.distractorOf (Hybrid.grpBroadGroup g) (Some d) <$> chosen).
  simpl. split_and!; [done| | |].
  - rewrite length_fmap, Hdl.
    unfold Hybrid.neededDistractors, CONFIG.OPTIONS_PER_QUESTION in *. lia.
  - by rewrite Hgb, or_none_truthy in Hbroad.
  - intros o Ho. apply list_elem_of_fmap in Ho as (v & -> & Hv).
    eapply elem_of_submseteq in Hv; [|exact Hds].
    apply list_elem_of_filter in Hv as [Hne _].
    rewrite hybrid_distractor_label.
    unfold Hybrid.buttonLabel. rewrite Ec. simpl. by rewrite Ece.
Qed.

Lemma hybrid_fold_inv lvl ext obsList (l : list Hybrid.Group) qs r :
  let groups := Hybrid.buildGroups lvl obsList in
  (∀ g, g ∈ l → g ∈ groups) →
  Forall (hybridWellFormed lvl) qs →
  length qs ≤ CONFIG.QUESTIONS_COUNT →
  Forall (hybridWellFormed lvl) (foldl (Hybrid.step lvl ext groups) (qs, r) l).1
  ∧ length (foldl (Hybrid.step lvl ext groups) (qs, r) l).1
    ≤ CONFIG.QUESTIONS_COUNT.
Proof.
  intros groups. revert qs r.
  induction l as [|g l IH]; intros qs r Hl Hwf Hlen; [done|].
  simpl.
  assert (∀ g', g' ∈ l → g' ∈ groups) as Hl' by (intros g' ?; apply Hl; by right).
  assert (g ∈ groups) as Hg by (apply Hl; left).
  destruct (decide (CONFIG.QUESTIONS_COUNT ≤ length qs)) as [Hfull|Hroom].
  { by apply IH. }
  destruct (Js.truthy (Hybrid.grpBroadGroup g)) eqn:Hbroad; simpl.
  2: { by apply IH. }
  destruct (decide (lvl = "genus")) as [Hlvl|Hlvl].
  - destruct (Hybrid.genusQuestion lvl ext g r) as [[q|] r1] eqn:Eq.
    + apply IH; [done| |rewrite length_app; simpl; lia].
      apply Forall_app. split; [done|]. apply Forall_singleton.
      by eapply hybrid_genusQuestion_spec.
    + by apply IH.
  - destruct (Hybrid.projectQuestion groups g r) as [[q|] r1] eqn:Eq.
    + apply IH; [done| |rewrite length_app; simpl; lia].
      apply Forall_app. split; [done|]. apply Forall_singleton.
      by eapply hybrid_projectQuestion_spec.
    + by apply IH.
Qed.

(** X11.  The hybrid [buildQuizQuestions] returns at most [QUESTIONS_COUNT]
    questions, at every level and with any external vocabulary.  Each has
    exactly [OPTIONS_PER_QUESTION] options, the correct observation among
    them, and exactly one option carries the label an answer is compared
    with; the correct observation always has a broad group. *)
Theorem hybrid_questions_shape (lvl : string)
    (ext : gmap string (list Hybrid.VocabEntry))
    (obsList : list Hybrid.Observation) (r : Rng.t) :
  let questions := (Hybrid.buildQuizQuestions lvl ext obsList r).1 in
  length questions ≤ CONFIG.QUESTIONS_COUNT
  ∧ ∀ q, q ∈ questions →
      length (Hybrid.options q) = CONFIG.OPTIONS_PER_QUESTION
      ∧ Hybrid.correct q ∈ Hybrid.options q
      ∧ Js.truthy (Hybrid.broadGroup (Hybrid.correct q)) = true
      ∧ length (filter (λ o, Hybrid.buttonLabel lvl o
                             = Hybrid.buttonLabel lvl (Hybrid.correct q))
                       (Hybrid.options q)) = 1.
Proof.
  intros questions.
  assert (Forall (hybridWellFormed lvl) questions
          ∧ length questions ≤ CONFIG.QUESTIONS_COUNT) as [Hwf Hlen].
  { unfold questions, Hybrid.buildQuizQuestions.
    case_decide; [split; [constructor|simpl; lia]|].
    pose proof (shuffleArray_perm (Hybrid.buildGroups lvl obsList) r) as Hp.
    destruct (Arr.shuffleArray (Hybrid.buildGroups lvl obsList) r)
      as [shuffled r1]. simpl in Hp.
    apply hybrid_fold_inv; [|constructor|simpl; lia].
    intros g Hg. by rewrite <- Hp. }
  split; [done|]. intros q Hq.
  rewrite Forall_forall in Hwf.
  destruct (Hwf q Hq) as (ds & Hp & Hds & Hbroad & Hne).
  split_and!; [| |done|].
  - rewrite Hp. simpl. rewrite Hds. done.
  - rewrite Hp. left.
  - rewrite Hp. rewrite filter_cons_True by done.
    by rewrite (filter_none _ ds).
Qed.

(** X12.  [mapBroadGroupToDidacticGroup] gives [null] or one of the eight
    keys of [externalDistractors], so that the vocabulary of a didactic
    group is always one of the eight lists; a missing or empty broad group,
    and any name that is not in the table, gives [null]. *)
Theorem didacticGroup_range (b : option string) :
  (∀ k, Hybrid.mapBroadGroupToDidacticGroup b = Some k →
        k ∈ Hybrid.externalKeys)
  ∧ (Js.truthy b = false → Hybrid.mapBroadGroupToDidacticGroup b = None)
  ∧ (∀ s, b = Some s →
       s ∉ ["Insecta"; "Aves"; "Mammalia"; "Araneae"; "Plantae";
            "Tracheophyta"; "Bryophyta"; "Marchantiophyta";
            "Anthocerotophyta"; "Fungi"; "Lecanoromycetes"] →
       Hybrid.mapBroadGroupToDidacticGroup b = None).
Proof.
  split_and!.
  - intros k. unfold Hybrid.mapBroadGroupToDidacticGroup, Hybrid.externalKeys.
    destruct b as [s|]; [|done].
    repeat match goal with
           | |- context [if ?c then _ else _] => destruct c
           end;
      intros [= <-]; set_solver.
  - intros Hf. apply truthy_false_iff in Hf as [->| ->]; done.
  - intros s -> Hs. unfold Hybrid.mapBroadGroupToDidacticGroup.
    repeat match goal with
           | |- context [String.eqb s ?t] =>
               destruct (String.eqb s t) eqn:?
           end; simpl; try done;
      exfalso; apply Hs;
      repeat match goal with
             | H : String.eqb _ _ = true |- _ => apply String.eqb_eq in H; subst
             end; set_solver.
Qed.

(** *** The questions of the vocabulary builders *)

Lemma speciesAttempt_generic avail r :
  Vocab.speciesAttempt avail r
  = attemptWith Vocab.taxonId (λ s, s) Vocab.speciesOption
      (λ c ex groupKey,
         Vocab.correctOf (pretty (Vocab.taxonId c)) (Vocab.scientificName c)
                         (Vocab.swedishName c) ex groupKey)
      avail r.
Proof. reflexivity. Qed.

Lemma genusAttempt_generic avail r :
  Vocab.genusAttempt avail r
  = attemptWith Vocab.genGenusName Vocab.genRepresentative Vocab.genusOption
      (λ c ex groupKey,
         Vocab.correctOf (Vocab.genGenusName c) (Vocab.genGenusName c)
                         (Vocab.genSwedishName c) ex groupKey)
      avail r.
Proof. reflexivity. Qed.

Lemma familyAttempt_generic avail r :
  Vocab.familyAttempt avail r
  = attemptWith Vocab.famFamilyName Vocab.famRepresentative Vocab.familyOption
      (λ c ex groupKey,
         Vocab.correctOf (Vocab.famFamilyName c) (Vocab.famFamilyName c)
                         (Vocab.famSwedishName c) ex groupKey)
      avail r.
Proof. reflexivity. Qed.

Lemma filter_all {X} (P : X → Prop) `{∀ x, Decision (P x)} (l : list X) :
  (∀ z, z ∈ l → P z) → filter P l = l.
Proof.
  induction l as [|y l IH]; intros Hall; [done|].
  rewrite filter_cons_True by (apply Hall; left).
  f_equal. apply IH. intros z Hz. apply Hall. by right.
Qed.

Section Attempt.
Context {E K : Type} `{EqDecision K}.
Context (keyOf : E → K) (rep : E → Vocab.SpeciesEntry)
        (optOf : E → Vocab.Option_)
        (corOf : E → Vocab.ExampleObservation → string → Vocab.Correct).

Lemma attemptWith_spec avail r q r' :
  attemptWith keyOf rep optOf corOf avail r = (Some q, r') →
  ∃ groupKey list c ex ds,
    (groupKey, list) ∈ avail ∧ c ∈ list
    ∧ Vocab.usableExample (rep c) = Some ex
    ∧ Vocab.correct q = corOf c ex groupKey
    ∧ Vocab.options q ≡ₚ optOf c :: (optOf <$> ds)
    ∧ length ds = Vocab.neededDistractors
    ∧ ds ⊆+ list
    ∧ ∀ d, d ∈ ds → keyOf d ≠ keyOf c.
Proof.
  unfold attemptWith.
  destruct (Rng.randomInt (length avail) r) as [gi r1].
  destruct (avail !! gi) as [[groupKey list]|] eqn:Eg; [|done].
  case_decide; [done|].
  destruct (Rng.randomInt (length list) r1) as [ci r2].
  destruct (list !! ci) as [c|] eqn:Ec; [|done].
  destruct (Vocab.usableExample (rep c)) as [ex|] eqn:Eex; [|done].
  set (pool := filter _ list).
  case_decide as Hpool; [done|].
  pose proof (pickRandomSubset_length pool Vocab.neededDistractors r2) as Hdl.
  pose proof (pickRandomSubset_submseteq pool Vocab.neededDistractors r2) as Hds.
  destruct (Arr.pickRandomSubset pool _ r2) as [ds r3].
  pose proof (shuffleArray_perm (optOf c :: (optOf <$> ds)) r3) as Hp.
  destruct (Arr.shuffleArray _ r3) as [sh r4].
  cbn [fst snd] in *. intros [= <- <-].
  exists groupKey, list, c, ex, ds. simpl.
  split_and!; try done.
  - by apply list_elem_of_lookup_2 in Eg.
  - by apply list_elem_of_lookup_2 in Ec.
  - lia.
  - etrans; [exact Hds|]. apply sublist_submseteq, sublist_filter.
  - intros d Hd. eapply elem_of_submseteq in Hd; [|exact Hds].
    by apply list_elem_of_filter in Hd as [? _].
Qed.

Lemma filter_key_length (list : list E) (c : E) :
  NoDup (keyOf <$> list) → c ∈ list →
  length list = S (length (filter (λ s, keyOf s ≠ keyOf c) list)).
Proof.
  induction list as [|x l IH]; intros Hnd Hc; [by apply elem_of_nil in Hc|].
  rewrite fmap_cons in Hnd. apply NoDup_cons in Hnd as [Hx Hnd].
  destruct (decide (keyOf x = keyOf c)) as [Heq|Hne].
  - rewrite filter_cons_False by (intros Hn; by apply Hn).
    rewrite filter_all; [done|].
    intros y Hy Hyc. apply Hx. rewrite Heq, <- Hyc.
    apply list_elem_of_fmap. eauto.
  - rewrite filter_cons_True by done. simpl. f_equal. apply IH; [done|].
    apply elem_of_cons in Hc as [->|Hc]; [done|done].
Qed.

Lemma attemptWith_succeeds (avail : Vocab.vocab E) r :
  avail ≠ [] →
  (∀ groupKey list, (groupKey, list) ∈ avail →
     Vocab.neededDistractors < length list
     ∧ NoDup (keyOf <$> list)
     ∧ ∀ e, e ∈ list → is_Some (Vocab.usableExample (rep e))) →
  is_Some (attemptWith keyOf rep optOf corOf avail r).1.
Proof.
  intros Hne Hready. unfold attemptWith.
  pose proof (randomInt_bound (length avail) r) as Hgi.
  destruct (Rng.randomInt (length avail) r) as [gi r1]. cbn [fst] in Hgi.
  assert (gi < length avail) as Hlt
    by (apply Hgi; destruct avail; [done|simpl; lia]).
  destruct (avail !! gi) as [[groupKey list]|] eqn:Eg;
    [|apply lookup_ge_None in Eg; lia].
  destruct (Hready groupKey list) as (Hlen & Hnd & Hex).
  { by apply list_elem_of_lookup_2 in Eg. }
  case_decide; [lia|].
  pose proof (randomInt_bound (length list) r1) as Hci.
  destruct (Rng.randomInt (length list) r1) as [ci r2]. cbn [fst] in Hci.
  destruct (list !! ci) as [c|] eqn:Ec;
    [|apply lookup_ge_None in Ec; lia].
  assert (c ∈ list) as Hc by by apply list_elem_of_lookup_2 in Ec.
  destruct (Hex c Hc) as [ex ->].
  pose proof (filter_key_length list c Hnd Hc) as Hpool.
  case_decide; [lia|].
  destruct (Arr.pickRandomSubset _ _ r2) as [ds r3].
  destruct (Arr.shuffleArray _ r3) as [sh r4]. by eexists.
Qed.
End Attempt.

(** *** Grouping by first occurrence *)

Section ByKey.
Context {X G : Type} (keyOf : X → option string) (gkey : G → string)
        (rep : G → X) (mk : string → X → G).
Hypothesis mk_key : ∀ k x, gkey (mk k x) = k.
Hypothesis mk_rep : ∀ k x, rep (mk k x) = x.

Lemma byKey_inv (l : list X) :
  let res := foldl (addByKey keyOf gkey mk) [] l in
  NoDup (gkey <$> res)
  ∧ (∀ g, g ∈ res →
       g = mk (gkey g) (rep g)
       ∧ keyOf (rep g) = Some (gkey g)
       ∧ ∃ pre post, l = pre ++ rep g :: post
                     ∧ ∀ y, y ∈ pre → keyOf y ≠ Some (gkey g))
  ∧ (∀ x k, x ∈ l → keyOf x = Some k → k ∈ gkey <$> res).
Proof.
  induction l as [|x l (IHnd & IHg & IHx)] using rev_ind.
  - split; [constructor|]. split; [by intros g Hg; apply elem_of_nil in Hg|].
    by intros x k Hx; apply elem_of_nil in Hx.
  - cbn zeta. rewrite foldl_app. cbn [foldl]. unfold addByKey at 1 3 5.
    set (res := foldl (addByKey keyOf gkey mk) [] l) in *.
    assert (∀ g, g ∈ res →
              g = mk (gkey g) (rep g)
              ∧ keyOf (rep g) = Some (gkey g)
              ∧ ∃ pre post, l ++ [x] = pre ++ rep g :: post
                            ∧ ∀ y, y ∈ pre → keyOf y ≠ Some (gkey g)) as Hold.
    { intros g Hg. destruct (IHg g Hg) as (Hmk & Hk & pre & post & -> & Hpre).
      split_and!; [done|done|]. exists pre, (post ++ [x]).
      by rewrite <- app_assoc. }
    destruct (keyOf x) as [k|] eqn:Ek.
    + case_decide as Hin.
      * split; [done|]. split; [done|].
        intros y k' Hy Hk'. apply elem_of_app in Hy as [Hy|Hy]; [by eapply IHx|].
        apply list_elem_of_singleton in Hy as ->. congruence.
      * split.
        { rewrite fmap_app. apply NoDup_app. split; [done|].
          split; [|apply NoDup_singleton].
          intros z Hz Hz'. apply list_elem_of_singleton in Hz'.
          rewrite mk_key in Hz'. by subst. }
        split.
        -- intros g Hg. apply elem_of_app in Hg as [Hg|Hg]; [by apply Hold|].
           apply list_elem_of_singleton in Hg as ->.
           rewrite mk_key, mk_rep. split_and!; [done|done|].
           exists l, []. split; [done|].
           intros y Hy Hyk. apply Hin. by eapply IHx.
        -- intros y k' Hy Hk'. rewrite fmap_app. apply elem_of_app.
           apply elem_of_app in Hy as [Hy|Hy]; [left; by eapply IHx|].
           apply list_elem_of_singleton in Hy as ->. right.
           rewrite Ek in Hk'. injection Hk' as <-. rewrite fmap_cons, mk_key. left.
    + split; [done|]. split; [done|].
      intros y k' Hy Hk'. apply elem_of_app in Hy as [Hy|Hy]; [by eapply IHx|].
      apply list_elem_of_singleton in Hy as ->. congruence.
Qed.
End ByKey.

Lemma addGenus_byKey genera sp :
  Vocab.addGenus genera sp
  = addByKey (λ s, nonEmpty (Vocab.genusName s)) Vocab.genGenusName mkGenus
             genera sp.
Proof.
  unfold Vocab.addGenus, addByKey, nonEmpty.
  destruct (Vocab.genusName sp) as [g|]; [|done]. by destruct (String.eqb g "").
Qed.

Lemma addFamily_byKey families sp :
  Vocab.addFamily families sp
  = addByKey (λ s, nonEmpty (Vocab.familyName s)) Vocab.famFamilyName mkFamily
             families sp.
Proof.
  unfold Vocab.addFamily, addByKey, nonEmpty.
  destruct (Vocab.familyName sp) as [g|]; [|done]. by destruct (String.eqb g "").
Qed.

Lemma foldl_ext_all {X S} (f g : S → X → S) (l : list X) (s : S) :
  (∀ s x, f s x = g s x) → foldl f s l = foldl g s l.
Proof. intros Hfg. apply foldl_ext_in. intros s' x _. apply Hfg. Qed.

(** X13.  The genus and family vocabularies keep the groups of the species
    vocabulary, in their order.  Within a group no genus (family) occurs
    twice; every entry stands for the first species of the group with that
    genus (family) and has its name from it; every genus (family) of a
    species of the group has its entry; species without one add nothing. *)
Theorem derived_vocab_spec (vocabByGroup : Vocab.vocab Vocab.SpeciesEntry) :
  fst <$> Vocab.buildGenusVocabFromSpecies vocabByGroup = fst <$> vocabByGroup
  ∧ fst <$> Vocab.buildFamilyVocabFromSpecies vocabByGroup = fst <$> vocabByGroup
  ∧ (∀ i groupKey speciesList, vocabByGroup !! i = Some (groupKey, speciesList) →
       ∃ genera families,
         Vocab.buildGenusVocabFromSpecies vocabByGroup !! i
         = Some (groupKey, genera)
         ∧ Vocab.buildFamilyVocabFromSpecies vocabByGroup !! i
           = Some (groupKey, families)
         ∧ NoDup (Vocab.genGenusName <$> genera)
         ∧ NoDup (Vocab.famFamilyName <$> families)
         ∧ (∀ g, g ∈ genera →
              Vocab.genGenusName g ≠ ""
              ∧ Vocab.genusName (Vocab.genRepresentative g)
                = Some (Vocab.genGenusName g)
              ∧ ∃ pre post,
                  speciesList = pre ++ Vocab.genRepresentative g :: post
                  ∧ ∀ sp, sp ∈ pre →
                          Vocab.genusName sp ≠ Some (Vocab.genGenusName g))
         ∧ (∀ f, f ∈ families →
              Vocab.famFamilyName f ≠ ""
              ∧ Vocab.familyName (Vocab.famRepresentative f)
                = Some (Vocab.famFamilyName f)
              ∧ ∃ pre post,
                  speciesList = pre ++ Vocab.famRepresentative f :: post
                  ∧ ∀ sp, sp ∈ pre →
                          Vocab.familyName sp ≠ Some (Vocab.famFamilyName f))
         ∧ (∀ sp n, sp ∈ speciesList → Vocab.genusName sp = Some n → n ≠ "" →
              n ∈ Vocab.genGenusName <$> genera)
         ∧ (∀ sp n, sp ∈ speciesList → Vocab.familyName sp = Some n → n ≠ "" →
              n ∈ Vocab.famFamilyName <$> families)).
Proof.
  assert (∀ s n, nonEmpty s = Some n ↔ s = Some n ∧ n ≠ "") as Hne.
  { intros [t|] n; simpl; [|naive_solver].
    destruct (String.eqb t "") eqn:E.
    - apply String.eqb_eq in E. naive_solver.
    - apply String.eqb_neq in E. naive_solver. }
  unfold Vocab.buildGenusVocabFromSpecies, Vocab.buildFamilyVocabFromSpecies.
  split_and!.
  - rewrite <- list_fmap_compose. apply list_fmap_ext. by intros i [??] _.
  - rewrite <- list_fmap_compose. apply list_fmap_ext. by intros i [??] _.
  - intros i groupKey speciesList Hi.
    exists (foldl Vocab.addGenus [] speciesList),
           (foldl Vocab.addFamily [] speciesList).
    unfold Vocab.vocab in *.
    rewrite !list_lookup_fmap, Hi. split; [done|]. split; [done|].
    rewrite (foldl_ext_all Vocab.addGenus _ _ _ addGenus_byKey).
    rewrite (foldl_ext_all Vocab.addFamily _ _ _ addFamily_byKey).
    destruct (byKey_inv (λ s, nonEmpty (Vocab.genusName s)) Vocab.genGenusName
                Vocab.genRepresentative mkGenus (λ _ _, eq_refl) (λ _ _, eq_refl)
                speciesList) as (Hgn & Hgg & Hgx).
    destruct (byKey_inv (λ s, nonEmpty (Vocab.familyName s)) Vocab.famFamilyName
                Vocab.famRepresentative mkFamily (λ _ _, eq_refl) (λ _ _, eq_refl)
                speciesList) as (Hfn & Hfg & Hfx).
    split_and!; [done|done| | | |].
    + intros g Hg. destruct (Hgg g Hg) as (_ & Hk & pre & post & Hl & Hpre).
      apply Hne in Hk as [Hk Hnz]. split_and!; [done|done|].
      exists pre, post. split; [done|]. intros sp Hsp Hsn.
      apply (Hpre sp Hsp). by apply Hne.
    + intros g Hg. destruct (Hfg g Hg) as (_ & Hk & pre & post & Hl & Hpre).
      apply Hne in Hk as [Hk Hnz]. split_and!; [done|done|].
      exists pre, post. split; [done|]. intros sp Hsp Hsn.
      apply (Hpre sp Hsp). by apply Hne.
    + intros sp n Hsp Hn Hnz. apply (Hgx sp); [done|]. by apply Hne.
    + intros sp n Hsp Hn Hnz. apply (Hfx sp); [done|]. by apply Hne.
Qed.

(** *** [loadVocab] *)

Lemma hasExample_usable e :
  Vocab.hasExample e = true → is_Some (Vocab.usableExample e).
Proof.
  unfold Vocab.hasExample, Vocab.usableExample.
  destruct (Vocab.exampleObservation e) as [ex|]; [|done].
  intros Hh. apply andb_true_iff in Hh as [-> _]. by eexists.
Qed.

Lemma loadGroup_usable resp e :
  e ∈ Vocab.loadGroup resp → Vocab.hasExample e = true.
Proof.
  unfold Vocab.loadGroup. destruct resp as [| | |[list|]]; try by intros ?%elem_of_nil.
  destruct (mapM id list) as [entries|]; [|by intros ?%elem_of_nil].
  intros He. by apply list_elem_of_filter in He as [? _].
Qed.

(** X14.  Whatever the requests come back with, [loadVocab] gives the eight
    groups of [VOCAB_FILES], in their order.  A file that cannot be fetched
    or read, or whose body is not an array, leaves its own group empty and
    the other groups as they are; the entries of a file that is read are
    those with an example observation that has a photo and an id, in the
    order of the file. *)
Theorem loadVocab_spec (fetch : string → Vocab.Response) :
  fst <$> Vocab.loadVocab fetch
  = ["insects"; "plants"; "mosses"; "lichens"; "mammals"; "birds"; "fungi";
     "spiders"]
  ∧ (∀ i groupKey path, Vocab.VOCAB_FILES !! i = Some (groupKey, path) →
       Vocab.loadVocab fetch !! i
       = Some (groupKey, Vocab.loadGroup (fetch path))
       ∧ (∀ e, e ∈ Vocab.loadGroup (fetch path) →
               Vocab.hasExample e = true
               ∧ is_Some (Vocab.usableExample e))
       ∧ (∀ entries, fetch path = Vocab.Ok (Some (Some <$> entries)) →
            Vocab.loadGroup (fetch path)
            = filter (λ e, Vocab.hasExample e = true) entries)
       ∧ ((∀ entries, fetch path ≠ Vocab.Ok (Some (Some <$> entries))) →
            Vocab.loadGroup (fetch path) = [])
       ∧ (∀ fetch', fetch' path = fetch path →
            Vocab.loadVocab fetch' !! i = Vocab.loadVocab fetch !! i)).
Proof.
  split; [done|]. intros i groupKey path Hi.
  assert (∀ f, Vocab.loadVocab f !! i = Some (groupKey, Vocab.loadGroup (f path)))
    as Hload.
  { intros f. unfold Vocab.loadVocab, Vocab.vocab.
    by rewrite list_lookup_fmap, Hi. }
  split_and!.
  - apply Hload.
  - intros e He. pose proof (loadGroup_usable _ _ He).
    split; [done|]. by apply hasExample_usable.
  - intros entries ->. unfold Vocab.loadGroup.
    assert (mapM id (Some <$> entries) = Some entries) as ->; [|done].
    apply mapM_Some. clear. induction entries; constructor; done.
  - intros Hno. unfold Vocab.loadGroup.
    destruct (fetch path) as [| | |[list|]]; try done.
    destruct (mapM id list) as [entries|] eqn:Em; [|done].
    destruct (Hno entries). do 2 f_equal.
    apply mapM_Some in Em. clear -Em.
    induction Em as [|x y l k Hxy _ IH]; [done|].
    simpl in Hxy. rewrite fmap_cons. by rewrite Hxy, IH.
  - intros fetch' Heq. by rewrite !Hload, Heq.
Qed.

(** *** The sampling loop *)

Lemma sampleLoop_origin {Q} (attempt : Rng.t → option Q * Rng.t)
    fuel (qs : list Q) n r qs' n' r' :
  Vocab.sampleLoop attempt fuel qs n r = Some (qs', n', r') →
  ∀ q, q ∈ qs' → q ∈ qs ∨ ∃ r0, (attempt r0).1 = Some q.
Proof.
  revert qs n r. induction fuel as [|fuel IH]; intros qs n r; simpl.
  - destruct (_ && _); [done|]. intros [= <- <- <-] q Hq. by left.
  - destruct (_ && _); [|intros [= <- <- <-] q Hq; by left].
    destruct (attempt r) as [[q0|] r1] eqn:Ea; intros Hloop q Hq.
    + destruct (IH _ _ _ Hloop q Hq) as [Hin|Hex]; [|by right].
      apply elem_of_app in Hin as [Hin|Hin]; [by left|].
      apply list_elem_of_singleton in Hin as ->. right. exists r. by rewrite Ea.
    + by apply (IH _ _ _ Hloop).
Qed.

Lemma sampleLoop_full {Q} (attempt : Rng.t → option Q * Rng.t)
    fuel (qs : list Q) r :
  (∀ r0, is_Some (attempt r0).1) →
  length qs ≤ CONFIG.QUESTIONS_COUNT →
  CONFIG.QUESTIONS_COUNT - length qs ≤ fuel →
  ∃ qs' r', Vocab.sampleLoop attempt fuel qs (length qs) r
            = Some (qs', CONFIG.QUESTIONS_COUNT, r')
            ∧ length qs' = CONFIG.QUESTIONS_COUNT.
Proof.
  intros Hok. revert qs r.
  induction fuel as [|fuel IH]; intros qs r Hlen Hfuel.
  - assert (length qs = CONFIG.QUESTIONS_COUNT) as Heq by lia.
    simpl. rewrite Heq. rewrite Nat.ltb_irrefl. simpl. eauto.
  - simpl. destruct (length qs <? CONFIG.QUESTIONS_COUNT) eqn:Elt.
    + apply Nat.ltb_lt in Elt.
      assert ((length qs <? Vocab.MAX_ATTEMPTS) = true) as ->.
      { apply Nat.ltb_lt. unfold Vocab.MAX_ATTEMPTS, CONFIG.QUESTIONS_COUNT in *.
        lia. }
      simpl. destruct (Hok r) as [q Hq].
      destruct (attempt r) as [[q0|] r1]; [|done].
      replace (length qs + 1) with (length (qs ++ [q0]))
        by (rewrite length_app; simpl; lia).
      apply IH; rewrite length_app; simpl; lia.
    + apply Nat.ltb_ge in Elt.
      assert (length qs = CONFIG.QUESTIONS_COUNT) as Heq by lia.
      simpl. rewrite Heq. eauto.
Qed.

Lemma build_origin {E Q} (groups : Vocab.vocab E)
    (attempt : Vocab.vocab E → Rng.t → option Q * Rng.t) fuel r qs n r' :
  Vocab.build groups attempt fuel r = Some (qs, n, r') →
  ∀ q, q ∈ qs →
    ∃ r0, (attempt (filter (λ kl : string * list E,
                              Vocab.neededDistractors < length kl.2) groups)
                   r0).1 = Some q.
Proof.
  unfold Vocab.build. case_decide.
  - intros [= <- <- <-] q Hq. by apply elem_of_nil in Hq.
  - intros Hloop q Hq.
    destruct (sampleLoop_origin _ _ _ _ _ _ _ _ Hloop q Hq) as [Hin|Hex];
      [by apply elem_of_nil in Hin|done].
Qed.

Lemma wellFormed_shape q : vocabWellFormed q → vocabShape q.
Proof.
  intros (Hphoto & c & ds & Hp & Hkey & Hlen & Hne).
  split; [done|]. split.
  - rewrite Hp. simpl. by rewrite Hlen.
  - rewrite Hp, <- Hkey. rewrite filter_cons_True by done.
    by rewrite (filter_none _ ds).
Qed.

Lemma usableExample_photo sp ex :
  Vocab.usableExample sp = Some ex → Js.truthy (Vocab.exPhotoUrl ex) = true.
Proof.
  unfold Vocab.usableExample.
  destruct (Vocab.exampleObservation sp) as [e|]; [|done].
  destruct (Js.truthy (Vocab.exPhotoUrl e)) eqn:E; [|done]. by intros [= <-].
Qed.

Lemma attemptWith_wellFormed {E K} `{EqDecision K} (keyOf : E → K) rep optOf
    (ak : E → string) ls lw avail r q r' :
  (∀ c, Vocab.key (optOf c) = ak c) →
  (∀ c d, keyOf d ≠ keyOf c → ak d ≠ ak c) →
  attemptWith keyOf rep optOf
    (λ c ex groupKey, Vocab.correctOf (ak c) (ls c) (lw c) ex groupKey)
    avail r = (Some q, r') →
  vocabWellFormed q.
Proof.
  intros Hkey Hinj Ha.
  destruct (attemptWith_spec _ _ _ _ _ _ _ _ Ha)
    as (groupKey & list & c & ex & ds & _ & _ & Hex & Hc & Hp & Hlen & _ & Hne).
  split.
  - rewrite Hc. simpl. by eapply usableExample_photo.
  - exists (optOf c), (optOf <$> ds). rewrite Hc. simpl.
    split_and!; [done|apply Hkey|by rewrite length_fmap|].
    intros d Hd. apply list_elem_of_fmap in Hd as (e & -> & He).
    rewrite !Hkey. by apply Hinj, Hne.
Qed.

(** X15.  Every question that a vocabulary builder returns, at the species,
    genus or family level, has a photo to show, exactly
    [OPTIONS_PER_QUESTION] options, and exactly one option whose key is the
    key of the answer. *)
Theorem vocab_questions_shape (fuel : nat) (r : Rng.t) :
  (∀ v qs n r',
      Vocab.buildSpeciesQuizQuestionsFromVocab v fuel r = Some (qs, n, r') →
      Forall vocabShape qs)
  ∧ (∀ v qs n r',
      Vocab.buildGenusQuizQuestionsFromVocab v fuel r = Some (qs, n, r') →
      Forall vocabShape qs)
  ∧ (∀ v qs n r',
      Vocab.buildFamilyQuizQuestionsFromVocab v fuel r = Some (qs, n, r') →
      Forall vocabShape qs).
Proof.
  split_and!; intros v qs n r' Hb; apply Forall_forall; intros q Hq;
    apply wellFormed_shape;
    destruct (build_origin _ _ _ _ _ _ _ Hb q Hq) as [r0 Hr0];
    match type of Hr0 with
    | (?a ?av r0).1 = _ => destruct (a av r0) as [q' r1] eqn:Ea
    end; simpl in Hr0; subst q'.
  - rewrite speciesAttempt_generic in Ea.
    eapply (attemptWith_wellFormed Vocab.taxonId (λ s, s) Vocab.speciesOption
              (λ c, pretty (Vocab.taxonId c))); [done| |exact Ea].
    intros c d Hne Heq. apply Hne. by apply (inj pretty) in Heq.
  - rewrite genusAttempt_generic in Ea.
    by eapply (attemptWith_wellFormed Vocab.genGenusName Vocab.genRepresentative
                 Vocab.genusOption Vocab.genGenusName); [| |exact Ea].
  - rewrite familyAttempt_generic in Ea.
    by eapply (attemptWith_wellFormed Vocab.famFamilyName Vocab.famRepresentative
                 Vocab.familyOption Vocab.famFamilyName); [| |exact Ea].
Qed.

(** *** A full quiz from a loaded vocabulary *)

Lemma build_full {E K} `{EqDecision K} (keyOf : E → K) rep optOf corOf
    (groups : Vocab.vocab E)
    (attempt : Vocab.vocab E → Rng.t → option Vocab.Question * Rng.t)
    fuel r :
  (∀ avail r0, attempt avail r0 = attemptWith keyOf rep optOf corOf avail r0) →
  vocabReady keyOf rep groups →
  CONFIG.QUESTIONS_COUNT ≤ fuel →
  (Exists (λ kl, Vocab.neededDistractors < length kl.2) groups →
   ∃ qs r', Vocab.build groups attempt fuel r
            = Some (qs, CONFIG.QUESTIONS_COUNT, r')
            ∧ length qs = CONFIG.QUESTIONS_COUNT)
  ∧ (Forall (λ kl, length kl.2 ≤ Vocab.neededDistractors) groups →
     Vocab.build groups attempt fuel r = Some ([], 0, r)).
Proof.
  intros Hgen Hready Hfuel. unfold Vocab.build.
  set (avail := filter _ groups). split.
  - intros Hbig. apply Exists_exists in Hbig as (kl & Hkl & Hlen).
    assert (kl ∈ avail) as Hin by by apply list_elem_of_filter.
    case_decide as Hnil.
    { destruct avail; [by apply elem_of_nil in Hin|done]. }
    apply (sampleLoop_full (attempt avail) fuel [] r);
      [|simpl; lia|unfold CONFIG.QUESTIONS_COUNT in *; simpl; lia].
    intros r0. rewrite Hgen. apply attemptWith_succeeds.
    + intros ->. by apply elem_of_nil in Hin.
    + intros groupKey list Hgl.
      apply list_elem_of_filter in Hgl as [Hl Hgl]. simpl in Hl.
      split; [done|]. by apply (Hready groupKey).
  - intros Hsmall. rewrite decide_True; [done|].
    assert (avail = []) as ->; [|done].
    apply filter_none. intros kl Hkl Hlen.
    rewrite Forall_forall in Hsmall. specialize (Hsmall kl Hkl). lia.
Qed.

Lemma loadVocab_ready fetch groupKey list e :
  (groupKey, list) ∈ Vocab.loadVocab fetch → e ∈ list →
  is_Some (Vocab.usableExample e).
Proof.
  unfold Vocab.loadVocab. intros Hin He.
  apply list_elem_of_fmap in Hin as ([k path] & [= -> ->] & _).
  by apply hasExample_usable, (loadGroup_usable (fetch path)).
Qed.

Lemma genus_ready (species : Vocab.vocab Vocab.SpeciesEntry) :
  (∀ groupKey list e, (groupKey, list) ∈ species → e ∈ list →
     is_Some (Vocab.usableExample e)) →
  vocabReady Vocab.genGenusName Vocab.genRepresentative
             (Vocab.buildGenusVocabFromSpecies species).
Proof.
  intros Hsp groupKey genera Hin. unfold Vocab.buildGenusVocabFromSpecies in Hin.
  apply list_elem_of_fmap in Hin as ([k sl] & [= -> ->] & Hsl).
  rewrite (foldl_ext_all Vocab.addGenus _ _ _ addGenus_byKey).
  destruct (byKey_inv (λ s, nonEmpty (Vocab.genusName s)) Vocab.genGenusName
              Vocab.genRepresentative mkGenus (λ _ _, eq_refl) (λ _ _, eq_refl)
              sl) as (Hnd & Hg & _).
  split; [done|]. intros g Hgin.
  destruct (Hg g Hgin) as (_ & _ & pre & post & Hl & _).
  apply (Hsp k sl); [done|]. rewrite Hl. apply elem_of_app. right. left.
Qed.

Lemma family_ready (species : Vocab.vocab Vocab.SpeciesEntry) :
  (∀ groupKey list e, (groupKey, list) ∈ species → e ∈ list →
     is_Some (Vocab.usableExample e)) →
  vocabReady Vocab.famFamilyName Vocab.famRepresentative
             (Vocab.buildFamilyVocabFromSpecies species).
Proof.
  intros Hsp groupKey families Hin.
  unfold Vocab.buildFamilyVocabFromSpecies in Hin.
  apply list_elem_of_fmap in Hin as ([k sl] & [= -> ->] & Hsl).
  rewrite (foldl_ext_all Vocab.addFamily _ _ _ addFamily_byKey).
  destruct (byKey_inv (λ s, nonEmpty (Vocab.familyName s)) Vocab.famFamilyName
              Vocab.famRepresentative mkFamily (λ _ _, eq_refl) (λ _ _, eq_refl)
              sl) as (Hnd & Hg & _).
  split; [done|]. intros g Hgin.
  destruct (Hg g Hgin) as (_ & _ & pre & post & Hl & _).
  apply (Hsp k sl); [done|]. rewrite Hl. apply elem_of_app. right. left.
Qed.

(** X16.  From a vocabulary as [loadVocab] gives it, the genus quiz and the
    family quiz are all or nothing: when some group has more than three
    genera (families) the builder returns exactly [QUESTIONS_COUNT]
    questions after exactly that many attempts, with any draws; when no
    group has, it returns none.  The same holds of the species quiz when no
    group lists a taxon twice. *)
Theorem vocab_quiz_full (fetch : string → Vocab.Response) (fuel : nat)
    (r : Rng.t) :
  CONFIG.QUESTIONS_COUNT ≤ fuel →
  let species := Vocab.loadVocab fetch in
  let genera := Vocab.buildGenusVocabFromSpecies species in
  let families := Vocab.buildFamilyVocabFromSpecies species in
  ((Exists (λ kl, 3 < length kl.2) genera →
    ∃ qs r', Vocab.buildGenusQuizQuestionsFromVocab genera fuel r
             = Some (qs, 10, r') ∧ length qs = 10)
   ∧ (Forall (λ kl, length kl.2 ≤ 3) genera →
      Vocab.buildGenusQuizQuestionsFromVocab genera fuel r = Some ([], 0, r)))
  ∧ ((Exists (λ kl, 3 < length kl.2) families →
      ∃ qs r', Vocab.buildFamilyQuizQuestionsFromVocab families fuel r
               = Some (qs, 10, r') ∧ length qs = 10)
     ∧ (Forall (λ kl, length kl.2 ≤ 3) families →
        Vocab.buildFamilyQuizQuestionsFromVocab families fuel r
        = Some ([], 0, r)))
  ∧ (Forall (λ kl, NoDup (Vocab.taxonId <$> kl.2)) species →
     (Exists (λ kl, 3 < length kl.2) species →
      ∃ qs r', Vocab.buildSpeciesQuizQuestionsFromVocab species fuel r
               = Some (qs, 10, r') ∧ length qs = 10)
     ∧ (Forall (λ kl, length kl.2 ≤ 3) species →
        Vocab.buildSpeciesQuizQuestionsFromVocab species fuel r
        = Some ([], 0, r))).
Proof.
  intros Hfuel species genera families.
  pose proof (loadVocab_ready fetch) as Hsp. fold species in Hsp.
  split_and!.
  - apply (build_full Vocab.genGenusName Vocab.genRepresentative
             Vocab.genusOption _ genera Vocab.genusAttempt fuel r
             genusAttempt_generic (genus_ready species Hsp) Hfuel).
  - apply (build_full Vocab.genGenusName Vocab.genRepresentative
             Vocab.genusOption _ genera Vocab.genusAttempt fuel r
             genusAttempt_generic (genus_ready species Hsp) Hfuel).
  - apply (build_full Vocab.famFamilyName Vocab.famRepresentative
             Vocab.familyOption _ families Vocab.familyAttempt fuel r
             familyAttempt_generic (family_ready species Hsp) Hfuel).
  - apply (build_full Vocab.famFamilyName Vocab.famRepresentative
             Vocab.familyOption _ families Vocab.familyAttempt fuel r
             familyAttempt_generic (family_ready species Hsp) Hfuel).
  - intros Hnd.
    apply (build_full Vocab.taxonId (λ s, s) Vocab.speciesOption _ species
             Vocab.speciesAttempt fuel r speciesAttempt_generic); [|done].
    intros groupKey list Hin. split; [|intros e He; by apply (Hsp groupKey list)].
    rewrite Forall_forall in Hnd. apply (Hnd _ Hin).
Qed.

Lemma vocab_quiz_full_witness :
  ∃ qs r',
    Vocab.buildGenusQuizQuestionsFromVocab
      (Vocab.buildGenusVocabFromSpecies (Vocab.loadVocab Sample.fetchFourBirds))
      10 [2; 7; 1; 8]
    = Some (qs, 10, r') ∧ length qs = 10.
Proof.
  apply (proj1 (proj1 (vocab_quiz_full Sample.fetchFourBirds 10 [2; 7; 1; 8]
                         (le_n 10)))).
  apply Exists_cons_hd. vm_compute. lia.
Defined.

(** *** [fetchObservations], [initQuiz] and the level selector *)

Lemma filterAndTransform_nil_iff rawObs :
  App.filterAndTransform rawObs = [] ↔ Forall (λ o, ¬ kept o) rawObs.
Proof.
  rewrite filterAndTransform_omap.
  induction rawObs as [|o l IH]; [by split; [constructor|]|].
  change (omap App.transform (o :: l))
    with (match App.transform o with
          | Some x => x :: omap App.transform l
          | None => omap App.transform l
          end).
  rewrite Forall_cons, <- IH, <- transform_is_Some.
  destruct (App.transform o) as [x|]; split.
  - done.
  - intros [Hn _]. destruct Hn. by eexists.
  - intros ->. split; [by intros [??]|done].
  - by intros [_ ?].
Qed.

Lemma length_zero_iff {A} (l : list A) : length l = 0 ↔ l = [].
Proof. by destruct l. Qed.

(** X17.  How [initQuiz] ends, for a response whose results are records.
    The status is the error message exactly when the request of the
    observations fails, and the state is then as before;
    it is the "no suitable observations" message exactly when no record of
    the response is kept, the state again as before.  Otherwise the
    observations are the enriched records, index and score are zero, the
    questions are those of the level, and the status is empty when there is
    a question and the "not enough taxa" message when there is none, which
    can only be at the family level.  A later change of level keeps the
    observations, and at a level other than family always shows a
    question. *)
Theorem initQuiz_outcome (lvl : string) (s : App.Quiz)
    (resp : App.ObsResponse) (fetch : list Z → App.Response) (r : Rng.t) :
  let s' := (App.initQuiz lvl s resp fetch r).1 in
  (App.status s' = App.msgError ↔ App.fetchObservations resp = None)
  ∧ (App.fetchObservations resp = None →
     App.observations s' = App.observations s
     ∧ App.quizQuestions s' = App.quizQuestions s
     ∧ App.currentIndex s' = App.currentIndex s
     ∧ App.score s' = App.score s)
  ∧ (∀ raw, App.fetchObservations resp = Some raw →
       (App.status s' = App.msgNoSuitable ↔ Forall (λ o, ¬ kept o) raw)
       ∧ (Forall (λ o, ¬ kept o) raw →
          App.observations s' = App.observations s
          ∧ App.quizQuestions s' = App.quizQuestions s
          ∧ App.currentIndex s' = App.currentIndex s
          ∧ App.score s' = App.score s)
       ∧ (Exists kept raw →
          App.observations s'
          = App.enrichWithTaxaData fetch (App.filterAndTransform raw)
          ∧ App.observations s' ≠ []
          ∧ App.quizQuestions s'
            = (App.buildQuizQuestions lvl (App.observations s') r).1
          ∧ App.currentIndex s' = 0
          ∧ App.score s' = 0
          ∧ (App.quizQuestions s' ≠ [] → App.status s' = "")
          ∧ (App.quizQuestions s' = [] →
             App.status s' = App.msgNotEnoughTaxa ∧ lvl = "family")
          ∧ ∀ lvl' r2,
              let s'' := (App.rebuildQuizForCurrentLevel lvl' s' r2).1 in
              App.observations s'' = App.observations s'
              ∧ App.quizQuestions s''
                = (App.buildQuizQuestions lvl' (App.observations s') r2).1
              ∧ App.currentIndex s'' = 0
              ∧ App.score s'' = 0
              ∧ (App.quizQuestions s'' ≠ [] → App.status s'' = "")
              ∧ (App.quizQuestions s'' = [] →
                 App.status s'' = App.msgNotEnoughGroups ∧ lvl' = "family"))).
Proof.
  intros s'. subst s'. unfold App.initQuiz.
  destruct (App.fetchObservations resp) as [raw|] eqn:Ef; simpl.
  2: { split_and!; [done|done|done]. }
  split; [|split; [done|]].
  { split; [|done]. case_decide; [done|].
    destruct (App.buildQuizQuestions _ _ _) as [qs r']. simpl.
    by case_decide. }
  intros ? [= <-].
  pose proof (filterAndTransform_nil_iff raw) as Hnil.
  case_decide as Hlen.
  { apply length_zero_iff in Hlen. simpl.
    split_and!; [by split; [intros _; apply Hnil|]|done|].
    intros Hex. apply Hnil in Hlen.
    apply Exists_exists in Hex as (o & Ho & Hk).
    by destruct (proj1 (Forall_forall _ _) Hlen o Ho). }
  assert (App.filterAndTransform raw ≠ []) as Hne
    by (by rewrite <- length_zero_iff).
  assert (App.enrichWithTaxaData fetch (App.filterAndTransform raw) ≠ [])
    as Hne'.
  { unfold App.enrichWithTaxaData. case_decide; [done|].
    destruct (App.filterAndTransform raw); [done|]. by rewrite fmap_cons. }
  pose proof (pipeline_questions_nonempty lvl fetch raw r Hne') as Hq.
  destruct (App.buildQuizQuestions lvl _ r) as [qs r'] eqn:Eb. simpl in *.
  split_and!.
  - split; [|by intros ?%Hnil].
    case_decide; [done|done].
  - by intros ?%Hnil.
  - intros _. split_and!; try done.
    + by rewrite Eb.
    + intros Hqs. case_decide as Hl; [|done].
      by apply length_zero_iff in Hl.
    + intros ->. split; [done|].
      destruct (decide (lvl = "family")) as [|Hlvl]; [done|].
      by destruct (Hq Hlvl).
    + intros lvl' r2. unfold App.rebuildQuizForCurrentLevel. simpl.
      case_decide as Hl0; [by apply length_zero_iff in Hl0|].
      pose proof (pipeline_questions_nonempty lvl' fetch raw r2 Hne') as Hq'.
      destruct (App.buildQuizQuestions lvl' _ r2) as [qs' r2'] eqn:Eb'.
      simpl in *. split_and!; try done.
      * intros Hqs. case_decide as Hl; [|done].
        by apply length_zero_iff in Hl.
      * intros ->. split; [done|].
        destruct (decide (lvl' = "family")) as [|Hlvl]; [done|].
        by destruct (Hq' Hlvl).
Qed.

(** *** Every order can come out of the shuffle *)

Lemma swap_app_l {A} i j (l t : list A) :
  i < length l → j < length l →
  Arr.swap i j (l ++ t) = Arr.swap i j l ++ t.
Proof.
  intros Hi Hj. unfold Arr.swap.
  rewrite !lookup_app_l by done.
  destruct (l !! i) as [x|] eqn:Ei; [|done].
  destruct (l !! j) as [y|] eqn:Ej; [|done].
  rewrite insert_app_l by done.
  by rewrite insert_app_l by (by rewrite length_insert).
Qed.

Lemma shuffleLoop_app_l {A} i (l t : list A) r :
  i < length l →
  Arr.shuffleLoop i (l ++ t) r
  = ((Arr.shuffleLoop i l r).1 ++ t, (Arr.shuffleLoop i l r).2).
Proof.
  revert l r. induction i as [|i IH]; intros l r Hi; [done|].
  rewrite !shuffleLoop_step.
  pose proof (randomInt_bound (S i + 1) r) as Hb.
  rewrite swap_app_l by lia.
  apply IH. rewrite swap_length. lia.
Qed.

Lemma shuffleLoop_reaches {A} n (arr p : list A) :
  length arr = S n → p ≡ₚ arr →
  ∃ r, length r = n ∧ (Arr.shuffleLoop n arr r).1 = p.
Proof.
  revert arr p. induction n as [|n IH]; intros arr p Hlen Hp.
  { exists []. split; [done|]. simpl.
    destruct arr as [|a [|??]]; try done.
    symmetry. by apply Permutation_singleton_r. }
  assert (length p = S (S n)) as Hlp by (by rewrite Hp).
  destruct p as [|p0 p1] using rev_ind; [done|]. clear IHp1.
  rename p1 into x. rename p0 into x0.
  (* p = p' ++ [x0] *)
  assert (x0 ∈ arr) as Hin.
  { rewrite <- Hp. apply elem_of_app. right. by left. }
  apply list_elem_of_lookup in Hin as [j Hj].
  pose proof (lookup_lt_Some _ _ _ Hj) as Hjlt.
  set (arr1 := Arr.swap (S n) j arr).
  assert (length arr1 = S (S n)) as Hlen1
    by (unfold arr1; by rewrite swap_length).
  assert (arr1 !! S n = Some x0) as Hlast.
  { unfold arr1. rewrite swap_at by lia. done. }
  assert (arr1 = take (S n) arr1 ++ [x0]) as Hsplit.
  { rewrite <- (take_drop (S n) arr1) at 1. f_equal.
    rewrite (drop_S _ _ _ Hlast).
    by rewrite drop_ge by lia. }
  destruct (IH (take (S n) arr1) x) as (r' & Hr' & Hres).
  { rewrite length_take. lia. }
  { apply (Permutation_app_inv_r [x0]).
    rewrite <- Hsplit. unfold arr1. by rewrite swap_perm. }
  exists (j :: r'). split; [simpl; by rewrite Hr'|].
  rewrite shuffleLoop_step.
  assert (Rng.randomInt (S n + 1) (j :: r') = (j, r')) as ->.
  { unfold Rng.randomInt. replace (S n + 1) with (S (S n)) by lia.
    simpl hd. simpl tl. f_equal. apply Nat.mod_small. lia. }
  cbn [fst snd]. fold arr1. rewrite Hsplit.
  rewrite shuffleLoop_app_l by (rewrite length_take; lia).
  cbn [fst]. by rewrite Hres.
Qed.

(** X18.  Every order of the array can come out of [shuffleArray]: for
    every permutation of the input there are draws, one for each turn of the
    loop, with which the result is that permutation.  So [pickRandomSubset]
    of fewer elements than the array has can return the first elements of
    any permutation, that is any selection in any order. *)
Theorem shuffleArray_reaches_every_order {A} (array p : list A) :
  p ≡ₚ array →
  (∃ r, length r = length array - 1 ∧ (Arr.shuffleArray array r).1 = p)
  ∧ (∀ n, n < length array →
       ∃ r, (Arr.pickRandomSubset array n r).1 = take n p).
Proof.
  intros Hp.
  assert (∃ r, length r = length array - 1
               ∧ (Arr.shuffleArray array r).1 = p) as (r & Hr & Hres).
  { unfold Arr.shuffleArray. destruct array as [|a l].
    { exists []. split; [done|]. simpl. by apply Permutation_nil_r in Hp. }
    simpl length. replace (S (length l) - 1) with (length l) by lia.
    by apply shuffleLoop_reaches. }
  split; [by exists r|].
  intros n Hn. exists r. unfold Arr.pickRandomSubset.
  case_decide; [lia|].
  destruct (Arr.shuffleArray array r) as [shuffled r']. simpl in *.
  by rewrite Hres.
Qed.

Lemma shuffleArray_reaches_every_order_witness :
  (∃ r, length r = length [1; 2; 3] - 1
        ∧ (Arr.shuffleArray [1; 2; 3] r).1 = [3; 1; 2])
  ∧ (∀ n, n < length [1; 2; 3] →
       ∃ r, (Arr.pickRandomSubset [1; 2; 3] n r).1 = take n [3; 1; 2]).
Proof.
  apply (shuffleArray_reaches_every_order [1; 2; 3] [3; 1; 2]).
  exact (Permutation_app_comm [3] [1; 2]).
Defined.
